(** * Library synchronisation and merge: the [useBooksSync] hook

    A shallow embedding of
    [apps/readest-app/src/app/library/hooks/useBooksSync.ts]: the selection of
    locally changed books ([getNewBooks]), the three sync entry points
    ([pullLibrary], [pushLibrary], [handleAutoSync]) and the merge of a synced
    batch into the local library ([updateLibrary]).

    Book records are JavaScript objects; they are modelled as finite maps from
    property names to values, so that object spread, property presence and
    truthiness read as in the source. *)

From Stdlib Require Import ZArith QArith Qminmax.
From stdpp Require Import base decidable countable gmap strings list sorting.

Local Open Scope Z_scope.

(** ** JavaScript values *)

Module Js.

(** The values a book property can hold. Numbers that reach this hook are
    epoch-millisecond timestamps, hence integers; [VRef] stands for any
    object or array (tags, progress, metadata), compared by reference. *)
Inductive value : Type :=
| VUndefined
| VNull
| VBool (b : bool)
| VNum (n : Z)
| VStr (s : string)
| VRef (r : positive).

#[global] Instance value_eq_dec : EqDecision value.
Proof. solve_decision. Defined.

Definition value_enc (v : value) : unit + unit + bool + Z + string + positive :=
  match v with
  | VUndefined => inl (inl (inl (inl (inl tt))))
  | VNull => inl (inl (inl (inl (inr tt))))
  | VBool b => inl (inl (inl (inr b)))
  | VNum n => inl (inl (inr n))
  | VStr s => inl (inr s)
  | VRef r => inr r
  end.

Definition value_dec (x : unit + unit + bool + Z + string + positive) : value :=
  match x with
  | inl (inl (inl (inl (inl _)))) => VUndefined
  | inl (inl (inl (inl (inr _)))) => VNull
  | inl (inl (inl (inr b))) => VBool b
  | inl (inl (inr n)) => VNum n
  | inl (inr s) => VStr s
  | inr r => VRef r
  end.

#[global] Instance value_countable : Countable value.
Proof. apply (inj_countable' value_enc value_dec). by intros []. Defined.

(** ToBoolean. *)
Definition truthy (v : value) : bool :=
  match v with
  | VUndefined | VNull => false
  | VBool b => b
  | VNum n => negb (n =? 0)
  | VStr s => negb (String.eqb s "")
  | VRef _ => true
  end.

(** [a ?? b]. *)
Definition nullish_or (a b : value) : value :=
  match a with
  | VUndefined | VNull => b
  | _ => a
  end.

(** [a < b] on the operands this hook compares: two numbers. An
    [undefined] operand makes the comparison false (NaN); the [Book]
    interface declares every compared property a number, so other operand
    shapes do not arise and are given the same answer. *)
Definition lt (a b : value) : bool :=
  match a, b with
  | VNum x, VNum y => x <? y
  | _, _ => false
  end.

End Js.

Import Js.

(** ** Book records *)

(** A book is the finite map of its own properties. *)
Abbreviation Book := (gmap string value).

(** [book.k]: reading a missing property gives [undefined]. *)
Definition prop (book : Book) (k : string) : value :=
  default VUndefined (book !! k).

Definition hash (book : Book) : value := prop book "hash".
Definition deletedAt (book : Book) : value := prop book "deletedAt".
Definition uploadedAt (book : Book) : value := prop book "uploadedAt".
Definition coverDownloadedAt (book : Book) : value := prop book "coverDownloadedAt".

(** [Book] declares [updatedAt: number]; the timestamp is read as an integer.
    [has_updatedAt] says that a record is typed that way, and the results
    that compare timestamps assume it. *)
Definition updatedAt (book : Book) : Z :=
  match book !! "updatedAt" with
  | Some (VNum n) => n
  | _ => 0
  end.

Definition has_updatedAt (book : Book) : Prop :=
  ∃ n, book !! "updatedAt" = Some (VNum n).

#[global] Instance has_updatedAt_dec book : Decision (has_updatedAt book).
Proof.
  unfold has_updatedAt.
  destruct (book !! "updatedAt") as [[| | |n| |]|] eqn:E;
    first [ left; eexists; reflexivity | right; intros [? ?]; congruence ].
Defined.

(** [{ ...a, ...b }]: the properties of [b] laid over those of [a]. *)
Definition spread (a b : Book) : Book := b ∪ a.

(** [book.k = v]. *)
Definition assign (book : Book) (k : string) (v : value) : Book := <[k := v]> book.

(** [Array.prototype.sort] with a comparator. The sort is stable, so for a
    comparator that orders its arguments consistently (here: a difference of
    integers) the result is determined: it is the sorted rearrangement that
    keeps equal elements in their original order, which inserting the
    elements from the right builds. *)
Fixpoint sort_insert (cmp : Book → Book → Z) (x : Book) (l : list Book) : list Book :=
  match l with
  | [] => [x]
  | y :: l' => if cmp x y <=? 0 then x :: l else y :: sort_insert cmp x l'
  end.

Definition Array_sort (cmp : Book → Book → Z) (l : list Book) : list Book :=
  foldr (sort_insert cmp) [] l.

(** [Array.prototype.slice i j]. *)
Definition slice (l : list Book) (i j : nat) : list Book := take (j - i) (drop i l).

(** ** The library store, the services and the world *)

(** The progress fraction is kept exact, as a rational. *)
Record Store := {
  library : list Book;
  isSyncing : bool;
  syncProgress : Q
}.

Inductive SyncOp := pull | push | both.

(** What the hook does to its collaborators, in the order it does it. *)
Inductive event :=
| SyncBooks (payload : option (list Book)) (op : SyncOp)
| DownloadBookCovers (batch : list Book)
| GenerateCoverImageUrl (book : Book)
| SaveLibraryBooks (snapshot : list Book)
| SetLibrary (snapshot : list Book)
| SetIsSyncing (flag : bool)
| SetSyncProgress (progress : Q).

(** The two awaited calls of [appService] either resolve or reject.
    [generateCoverImageUrl] resolves to a value ([None]: it rejects);
    [downloadBookCovers] resolves to nothing ([false]: it rejects). What the
    service itself writes into the records it is handed lies outside this
    hook and is not modelled. [saveLibraryBooks] is not awaited: whether it
    settles well is invisible to the hook. *)
Record AppService := {
  generateCoverImageUrl : Book → option value;
  downloadBookCovers : list Book → bool
}.

(** Everything the hook can read or write. [updatedLibrary] is the working
    array of the merge cycle in progress, the local of [updateLibrary] that
    [processNewBook] pushes to. *)
Record World := {
  store : Store;
  isPullingRef : bool;
  updatedLibrary : list Book;
  trace : list event
}.

Definition emit (e : event) (w : World) : World :=
  {| store := store w; isPullingRef := isPullingRef w;
     updatedLibrary := updatedLibrary w; trace := trace w ++ [e] |}.

Definition with_store (f : Store → Store) (w : World) : World :=
  {| store := f (store w); isPullingRef := isPullingRef w;
     updatedLibrary := updatedLibrary w; trace := trace w |}.

Definition with_isPullingRef (b : bool) (w : World) : World :=
  {| store := store w; isPullingRef := b;
     updatedLibrary := updatedLibrary w; trace := trace w |}.

Definition with_updatedLibrary (l : list Book) (w : World) : World :=
  {| store := store w; isPullingRef := isPullingRef w;
     updatedLibrary := l; trace := trace w |}.

(** ** Asynchronous computations

    An [async] function is run to its end: it returns, or it throws (a
    rejected promise it awaited), or the model's loop budget is used up
    ([OutOfFuel], shown below never to happen). Promises are taken to settle
    in the order in which they were created. *)
Inductive result (A : Type) :=
| Return (a : A)
| Throw
| OutOfFuel.
Arguments Return {A} a.
Arguments Throw {A}.
Arguments OutOfFuel {A}.

Definition Async (A : Type) : Type := World → result A * World.

Definition ret {A} (a : A) : Async A := λ w, (Return a, w).

Definition bind {A B} (m : Async A) (k : A → Async B) : Async B :=
  λ w, match m w with
       | (Return a, w') => k a w'
       | (Throw, w') => (Throw, w')
       | (OutOfFuel, w') => (OutOfFuel, w')
       end.

#[global] Instance Async_ret : MRet Async := @ret.
#[global] Instance Async_bind : MBind Async := λ A B k m, bind m k.

Definition throw {A} : Async A := λ w, (Throw, w).
Definition out_of_fuel {A} : Async A := λ w, (OutOfFuel, w).
Definition tell (e : event) : Async unit := λ w, (Return tt, emit e w).
Definition when (c : bool) (m : Async unit) : Async unit := if c then m else ret tt.

(** The outcome of a promise and of those after it, taken together. *)
Definition settle_all {A} (r : result A) (rs : result (list A)) : result (list A) :=
  match r, rs with
  | Return a, Return l => Return (a :: l)
  | OutOfFuel, _ | _, OutOfFuel => OutOfFuel
  | _, _ => Throw
  end.

(** [Promise.all(xs.map(f))]: every [f x] is started, in order; the whole
    rejects when one of them does, and the others still run. The promises
    are run here in the order of their creation. The code does not fix the
    order in which they settle, and what [processNewBook] does after its
    [await] (the push to the working array) happens in that order: the
    properties of the records appended by a batch are therefore stated up
    to their order within the batch. *)
Fixpoint Promise_all {A} (ps : list (Async A)) : Async (list A) :=
  match ps with
  | [] => ret []
  | p :: ps' => λ w,
      let '(r, w1) := p w in
      let '(rs, w2) := Promise_all ps' w1 in
      (settle_all r rs, w2)
  end.

(** [for (let i = i0; i < xs.length; i += size) body(i, xs.slice(i, i + size))],
    run from [i = i0] with a budget of [fuel] iterations. *)
Fixpoint for_batches (fuel : nat) (xs : list Book) (size : nat)
    (body : nat → list Book → Async unit) (i : nat) : Async unit :=
  if (i <? length xs)%nat then
    match fuel with
    | O => out_of_fuel
    | S fuel' =>
        body i (slice xs i (i + size));;
        for_batches fuel' xs size body (i + size)
    end
  else ret tt.

(** The store's setters. *)
Definition setLibrary (l : list Book) : Async unit := λ w,
  (Return tt,
   emit (SetLibrary l)
     (with_store (λ s, {| library := l; isSyncing := isSyncing s;
                          syncProgress := syncProgress s |}) w)).

Definition setIsSyncing (b : bool) : Async unit := λ w,
  (Return tt,
   emit (SetIsSyncing b)
     (with_store (λ s, {| library := library s; isSyncing := b;
                          syncProgress := syncProgress s |}) w)).

Definition setSyncProgress (p : Q) : Async unit := λ w,
  (Return tt,
   emit (SetSyncProgress p)
     (with_store (λ s, {| library := library s; isSyncing := isSyncing s;
                          syncProgress := p |}) w)).

(** The working array: [updatedLibrary = l], reading it, and
    [updatedLibrary.push(book)]. *)
Definition set_updatedLibrary (l : list Book) : Async unit := λ w,
  (Return tt, with_updatedLibrary l w).

Definition get_updatedLibrary : Async (list Book) := λ w,
  (Return (updatedLibrary w), w).

Definition push_updatedLibrary (book : Book) : Async unit := λ w,
  (Return tt, with_updatedLibrary (updatedLibrary w ++ [book]) w).

(** [await appService?.generateCoverImageUrl(book)]: [undefined] when there
    is no service. *)
Definition call_generateCoverImageUrl (appService : option AppService)
    (book : Book) : Async value :=
  match appService with
  | None => ret VUndefined
  | Some svc =>
      tell (GenerateCoverImageUrl book);;
      match generateCoverImageUrl svc book with
      | Some url => ret url
      | None => throw
      end
  end.

(** [await appService?.downloadBookCovers(batch)]. *)
Definition call_downloadBookCovers (appService : option AppService)
    (batch : list Book) : Async unit :=
  match appService with
  | None => ret tt
  | Some svc =>
      tell (DownloadBookCovers batch);;
      if downloadBookCovers svc batch then ret tt else throw
  end.

(** [appService?.saveLibraryBooks(books)], not awaited. *)
Definition call_saveLibraryBooks (appService : option AppService)
    (snapshot : list Book) : Async unit :=
  match appService with
  | None => ret tt
  | Some _ => tell (SaveLibraryBooks snapshot)
  end.

(** ** The hook *)

(** What [useSync()] hands to the hook, besides the batch last received
    from the gateway (an argument of [updateLibrary] below): the gateway call
    itself, which resolves ([true]) or rejects, and the sync cursor. *)
Record Sync := {
  syncBooks : option (list Book) → SyncOp → bool;
  lastSyncedAtBooks : Z
}.

(** The object [getNewBooks] returns; [{}] has neither property. *)
Record NewBooks := {
  books : option (list Book);
  lastSyncedAt : value
}.

Definition getNewBooks (user : option string) (lastSyncedAtBooks : Z) (w : World) : NewBooks :=
  match user with
  | None => {| books := None; lastSyncedAt := VUndefined |}
  | Some _ =>
      let library := library (store w) in
      let newBooks :=
        List.filter
          (λ book, (lastSyncedAtBooks <? updatedAt book)
                   || Js.lt (VNum lastSyncedAtBooks) (nullish_or (deletedAt book) (VNum 0)))
          library in
      {| books := Some newBooks; lastSyncedAt := VNum lastSyncedAtBooks |}
  end.

(** [pullLibrary] has one suspension point, the awaited gateway call. A call
    runs up to it ([pullLibrary_call]); when the gateway settles the function
    resumes in its [finally] block ([pullLibrary_settle]). *)
Inductive suspension :=
| Finished (r : result unit)
| Awaiting.

Definition pullLibrary_call (user : option string) (w : World) : suspension * World :=
  match user with
  | None => (Finished (Return tt), w)
  | Some _ =>
      if isPullingRef w then (Finished (Return tt), w)
      else (Awaiting, emit (SyncBooks (Some []) pull) (with_isPullingRef true w))
  end.

Definition pullLibrary_settle (fulfilled : bool) (w : World) : result unit * World :=
  (if fulfilled then Return tt else Throw, with_isPullingRef false w).

(** A pull that nothing interleaves with. *)
Definition pullLibrary (user : option string) (sync : Sync) : Async unit := λ w,
  match pullLibrary_call user w with
  | (Finished r, w') => (r, w')
  | (Awaiting, w') => pullLibrary_settle (syncBooks sync (Some []) pull) w'
  end.

(** The function handed to [throttle]; the gateway call is not awaited. *)
Definition handleAutoSync (user : option string) (sync : Sync) : Async unit := λ w,
  let newBooks := getNewBooks user (lastSyncedAtBooks sync) w in
  if truthy (lastSyncedAt newBooks)
  then tell (SyncBooks (books newBooks) both) w
  else ret tt w.

(** [throttle(f, ms, { emitLast: false })]: a trigger is either let through
    or dropped; which of the two is the throttle's business and is a
    parameter here. *)
Definition throttle (allowed : bool) (f : Async unit) : Async unit :=
  if allowed then f else ret tt.

(** The effect that fires on every change of the library. [handleAutoSync]
    is memoised on [syncBooks] alone, so the callback the effect calls is the
    one built in the render in which [syncBooks] last changed: it carries the
    [getNewBooks] of that render, and with it that render's user and cursor
    ([memo_user] and the cursor of [memo]), which need not be those of the
    render the effect runs in. The effect's own tests read the current
    [user] and the latch. *)
Definition autoSyncEffect (user : option string) (allowed : bool)
    (memo_user : option string) (memo : Sync) : Async unit := λ w,
  match user with
  | None => ret tt w
  | Some _ =>
      if isPullingRef w then ret tt w
      else throttle allowed (handleAutoSync memo_user memo) w
  end.

Definition pushLibrary (user : option string) (sync : Sync) : Async unit := λ w,
  match user with
  | None => ret tt w
  | Some _ =>
      let newBooks := getNewBooks user (lastSyncedAtBooks sync) w in
      (tell (SyncBooks (books newBooks) push);;
       if syncBooks sync (books newBooks) push then ret tt else throw) w
  end.

(** *** The merge *)

(** The conditional at the heart of [processOldBook]. *)
Definition mergedBook (matchingBook oldBook : Book) : Book :=
  if updatedAt matchingBook >? updatedAt oldBook
  then spread oldBook matchingBook
  else spread matchingBook oldBook.

(** [oldBook.coverImageUrl = ...] changes the record in place; the changed
    record goes into the merge that follows, its only later use in the
    cycle. *)
Definition processOldBook (appService : option AppService) (syncedBooks : list Book)
    (oldBook : Book) : Async Book :=
  match List.find (λ newBook, bool_decide (hash newBook = hash oldBook)) syncedBooks with
  | Some matchingBook =>
      oldBook ←
        (if negb (truthy (deletedAt matchingBook))
            && truthy (uploadedAt matchingBook)
            && negb (truthy (coverDownloadedAt oldBook))
         then url ← call_generateCoverImageUrl appService oldBook;
              ret (assign oldBook "coverImageUrl" url)
         else ret oldBook);
      ret (mergedBook matchingBook oldBook)
  | None => ret oldBook
  end.

Definition processNewBook (appService : option AppService) (newBook : Book) : Async unit :=
  url ← call_generateCoverImageUrl appService newBook;
  push_updatedLibrary (assign newBook "coverImageUrl" url).

Definition oldBooksBatchSize : nat := 20.
Definition batchSize : nat := 10.

Definition updateLibrary (appService : option AppService)
    (syncedBooks : option (list Book)) : Async unit := λ w,
  let library := library (store w) in
  if isSyncing (store w) then ret tt w else
  match syncedBooks with
  | None | Some [] => ret tt w
  | Some syncedBooks =>
    let syncedBooks := Array_sort (λ a b, updatedAt a - updatedAt b) syncedBooks in
    let bookHashesInSynced : gset value := list_to_set (hash <$> syncedBooks) in
    let oldBooks :=
      List.filter (λ book, bool_decide (hash book ∈ bookHashesInSynced)) library in
    let oldBooksNeedsDownload :=
      List.filter
        (λ book, negb (truthy (deletedAt book))
                 && truthy (uploadedAt book)
                 && negb (truthy (coverDownloadedAt book)))
        oldBooks in
    (for_batches (length oldBooksNeedsDownload) oldBooksNeedsDownload oldBooksBatchSize
       (λ _ batch, call_downloadBookCovers appService batch) 0;;
     merged ← Promise_all (processOldBook appService syncedBooks <$> library);
     set_updatedLibrary merged;;
     let bookHashesInLibrary : gset value := list_to_set (hash <$> merged) in
     let newBooks :=
       List.filter
         (λ newBook, negb (bool_decide (hash newBook ∈ bookHashesInLibrary))
                     && truthy (uploadedAt newBook)
                     && negb (truthy (deletedAt newBook)))
         syncedBooks in
     when (0 <? length newBooks)%nat (setIsSyncing true);;
     for_batches (length newBooks) newBooks batchSize
       (λ i batch,
          call_downloadBookCovers appService batch;;
          Promise_all (processNewBook appService <$> batch);;
          let progress :=
            Qmin (inject_Z (Z.of_nat (i + batchSize))
                  / inject_Z (Z.of_nat (length newBooks))) 1 in
          snapshot ← get_updatedLibrary;
          setLibrary snapshot;;
          setSyncProgress progress) 0;;
     final ← get_updatedLibrary;
     setLibrary final;;
     call_saveLibraryBooks appService final;;
     when (0 <? length newBooks)%nat (setIsSyncing false)) w
  end.

(** ** Observations on worlds and traces *)

(** The number of gateway invocations in a trace. *)
Definition is_SyncBooks (e : event) : bool :=
  match e with SyncBooks _ _ => true | _ => false end.

Definition gateway_calls (t : list event) : nat := length (List.filter is_SyncBooks t).

(** The progress fractions published, and the sizes of the library snapshots
    written to the store, in order. *)
Definition published_progress (t : list event) : list Q :=
  omap (λ e, match e with SetSyncProgress p => Some p | _ => None end) t.

Definition snapshot_sizes (t : list event) : list nat :=
  omap (λ e, match e with SetLibrary l => Some (length l) | _ => None end) t.

(** Events that leave the store alone. *)
Definition is_service (e : event) : bool :=
  match e with
  | SetLibrary _ | SetIsSyncing _ | SetSyncProgress _ => false
  | _ => true
  end.

(** [deletedAt ?? 0] of a record whose [deletedAt] is typed as [Book]
    declares it: absent, [null] or a number. *)
Definition deletedAt_typed (book : Book) : Prop :=
  match deletedAt book with
  | VUndefined | VNull | VNum _ => True
  | _ => False
  end.

Definition deletedAt_or_0 (book : Book) : Z :=
  match deletedAt book with
  | VNum d => d
  | _ => 0
  end.

(** [book] is in the payload [getNewBooks] selects. *)
Definition selected (user : option string) (cursor : Z) (w : World) (book : Book) : Prop :=
  ∃ sel, books (getNewBooks user cursor w) = Some sel ∧ book ∈ sel.

(** The comparator of the merge and the lookup of [processOldBook]. *)
Definition byUpdatedAt (a b : Book) : Z := updatedAt a - updatedAt b.

Definition matching (syncedBooks : list Book) (oldBook : Book) : option Book :=
  List.find (λ newBook, bool_decide (hash newBook = hash oldBook)) syncedBooks.

(** [b] is [n] after a write to its [coverImageUrl]. *)
Definition hydrated (n b : Book) : Prop := ∃ url, b = assign n "coverImageUrl" url.

Definition maybe_hydrated (n b : Book) : Prop := b = n ∨ hydrated n b.

(** What [processOldBook] can resolve to for [oldBook]. *)
Definition old_result (syncedBooks : list Book) (oldBook b : Book) : Prop :=
  match matching syncedBooks oldBook with
  | Some matchingBook => ∃ oldBook', maybe_hydrated oldBook oldBook' ∧ b = mergedBook matchingBook oldBook'
  | None => b = oldBook
  end.

(** The records of a batch that the merge treats as newly arrived, given
    the library they are merged into. *)
Definition arrived (library syncedBooks : list Book) : list Book :=
  let inLibrary : gset value := list_to_set (hash <$> library) in
  List.filter
    (λ newBook, negb (bool_decide (hash newBook ∈ inLibrary))
                && truthy (uploadedAt newBook)
                && negb (truthy (deletedAt newBook)))
    (Array_sort byUpdatedAt syncedBooks).

(** A session of pulls: calls of [pullLibrary] and settlements of the
    gateway request interleave freely; [awaiting] counts the activations
    suspended at the [await]. *)
Inductive action :=
| CallPull
| Settle (fulfilled : bool).

Record Session := {
  world : World;
  awaiting : nat
}.

Definition session_step (user : option string) (s : Session) (a : action) : Session :=
  match a with
  | CallPull =>
      match pullLibrary_call user (world s) with
      | (Awaiting, w') => {| world := w'; awaiting := S (awaiting s) |}
      | (Finished _, w') => {| world := w'; awaiting := awaiting s |}
      end
  | Settle fulfilled =>
      match awaiting s with
      | O => s
      | S n => {| world := snd (pullLibrary_settle fulfilled (world s)); awaiting := n |}
      end
  end.

Definition session_run (user : option string) (s : Session) (sched : list action) : Session :=
  foldl (session_step user) s sched.

(** [w'] differs from [w] by calls to the services and, possibly, by the
    working array ([calm]); by calls to the services only ([quiet]). *)
Definition calm (w w' : World) : Prop :=
  store w' = store w ∧ isPullingRef w' = isPullingRef w
  ∧ ∃ t, trace w' = trace w ++ t ∧ Forall (λ e, is_service e = true) t.

Definition quiet (w w' : World) : Prop :=
  calm w w' ∧ updatedLibrary w' = updatedLibrary w.

(** A library grown from [merged] by hydrated records of a prefix of [nb]. *)
Definition grown (merged nb lib : list Book) : Prop :=
  ∃ k X, lib = merged ++ X ∧ Forall2 hydrated (take k nb) X.

(** The iteration of the second loop of [updateLibrary]. *)
Definition hydrate_batch (appService : option AppService) (total : nat)
    (i : nat) (batch : list Book) : Async unit :=
  call_downloadBookCovers appService batch;;
  Promise_all (processNewBook appService <$> batch);;
  let progress :=
    Qmin (inject_Z (Z.of_nat (i + batchSize)) / inject_Z (Z.of_nat total)) 1 in
  snapshot ← get_updatedLibrary;
  setLibrary snapshot;;
  setSyncProgress progress.

(** The order the batch is sorted into. *)
Definition not_after (a b : Book) : Prop := updatedAt a ≤ updatedAt b.

(** Events that report to the interface: a library snapshot or a progress
    fraction. *)
Definition is_report (e : event) : bool :=
  match e with
  | SetLibrary _ | SetSyncProgress _ => true
  | _ => false
  end.

(** A record that no synced record of its hash is newer than ([settled]),
    and that has every property its match in the batch has ([covering]). *)
Definition settled (syncedBooks : list Book) (r : Book) : Prop :=
  ∀ m, matching syncedBooks r = Some m → updatedAt m ≤ updatedAt r.


(** A cover service whose calls all resolve (or no service at all), and a
    computation that never throws. *)
Definition reliable (appService : option AppService) : Prop :=
  ∀ svc, appService = Some svc →
         (∀ book, is_Some (generateCoverImageUrl svc book))
         ∧ (∀ batch, downloadBookCovers svc batch = true).

Definition never_throws {A} (m : Async A) : Prop := ∀ w, (m w).1 ≠ Throw.

(** *** Further observations *)

(** What [await appService?.generateCoverImageUrl(book)] evaluates to:
    [undefined] without a service, the service's answer otherwise ([None]:
    the call rejects). *)
Definition cover_of (appService : option AppService) (book : Book) : option value :=
  match appService with
  | None => Some VUndefined
  | Some svc => generateCoverImageUrl svc book
  end.

(** [b] is [n] with [coverImageUrl] set to what the service generated. *)
Definition hydrated_by (appService : option AppService) (n b : Book) : Prop :=
  ∃ url, cover_of appService n = Some url ∧ b = assign n "coverImageUrl" url.

(** The test of [processOldBook] for generating a cover. *)
Definition wants_cover (matchingBook oldBook : Book) : bool :=
  negb (truthy (deletedAt matchingBook))
  && truthy (uploadedAt matchingBook)
  && negb (truthy (coverDownloadedAt oldBook)).

(** The local record as [processOldBook] hands it to the merge: as it is
    when no cover is due, and after the write to its [coverImageUrl] when one
    is ([None]: the cover service rejects, and nothing is merged). *)
Definition with_cover (appService : option AppService)
    (matchingBook oldBook : Book) : option Book :=
  if wants_cover matchingBook oldBook
  then (λ url, assign oldBook "coverImageUrl" url) <$> cover_of appService oldBook
  else Some oldBook.

(** The cover service resolves every call that the second loop of
    [updateLibrary] makes for [batch]: the download, and the generation of a
    cover for each record. Without a service nothing is called. *)
Definition resolves (appService : option AppService) (batch : list Book) : bool :=
  match appService with
  | None => true
  | Some svc =>
      downloadBookCovers svc batch
      && forallb (λ n, bool_decide (is_Some (generateCoverImageUrl svc n))) batch
  end.

(** What [processOldBook] resolves to for [oldBook], to the letter. *)
Definition old_exact (appService : option AppService) (syncedBooks : list Book)
    (oldBook b : Book) : Prop :=
  match matching syncedBooks oldBook with
  | Some matchingBook =>
      if wants_cover matchingBook oldBook
      then ∃ url, cover_of appService oldBook = Some url
                  ∧ b = mergedBook matchingBook (assign oldBook "coverImageUrl" url)
      else b = mergedBook matchingBook oldBook
  | None => b = oldBook
  end.

(** Every event a computation adds to the trace satisfies [P]. *)
Definition emits {A} (P : event → Prop) (m : Async A) : Prop :=
  ∀ w, ∃ t, trace (m w).2 = trace w ++ t ∧ Forall P t.

(** The values the syncing flag is set to, and the snapshots handed to
    [saveLibraryBooks], in order. *)
Definition flag_events (t : list event) : list bool :=
  omap (λ e, match e with SetIsSyncing b => Some b | _ => None end) t.

Definition saved_snapshots (t : list event) : list (list Book) :=
  omap (λ e, match e with SaveLibraryBooks l => Some l | _ => None end) t.

(** The indices at which a batch loop over [n] records, entered at [i],
    starts its iterations, and the fraction published by the iteration that
    starts at [i]. *)
Definition batch_starts (n i : nat) : list nat :=
  (λ k, i + k * batchSize)%nat <$> seq 0 ((n - i + (batchSize - 1)) / batchSize).

Definition progress_at (total i : nat) : Q :=
  Qmin (inject_Z (Z.of_nat (i + batchSize)) / inject_Z (Z.of_nat total)) 1.

(** Calls to the cover service. *)
Definition is_cover_call (e : event) : bool :=
  match e with
  | DownloadBookCovers _ | GenerateCoverImageUrl _ => true
  | _ => false
  end.

(** Every event a computation adds satisfies [Q] when it returns, and [P]
    when it does not. *)
Definition emits_by_outcome {A} (P Q : event → Prop) (m : Async A) : Prop :=
  ∀ w, ∃ t, trace (m w).2 = trace w ++ t
            ∧ match (m w).1 with
              | Return _ => Forall Q t
              | _ => Forall P t
              end.

(** The number of actions of a schedule that settle a request. *)
Definition settlements (sched : list action) : nat :=
  length (List.filter (λ a, match a with Settle _ => true | CallPull => false end) sched).

(** ** Sample data *)

Module Sample.

Definition book (l : list (string * value)) : Book := list_to_map l.

Definition world_of (lib : list Book) : World :=
  {| store := {| library := lib; isSyncing := false; syncProgress := 0%Q |};
     isPullingRef := false; updatedLibrary := []; trace := [] |}.

Definition covers_ok : AppService :=
  {| generateCoverImageUrl := λ _, Some (VStr "blob:cover");
     downloadBookCovers := λ _, true |}.

Definition covers_down : AppService :=
  {| generateCoverImageUrl := λ _, Some (VStr "blob:cover");
     downloadBookCovers := λ _, false |}.

Definition gateway (cursor : Z) : Sync :=
  {| syncBooks := λ _ _, true; lastSyncedAtBooks := cursor |}.

Definition me : option string := Some "reader".

(** A local record and two synced records with its hash. *)
Definition local1 : Book :=
  book [("hash", VStr "h"); ("updatedAt", VNum 1); ("title", VStr "local")].
Definition synced5 : Book :=
  book [("hash", VStr "h"); ("updatedAt", VNum 5); ("title", VStr "newer")].
Definition synced3 : Book :=
  book [("hash", VStr "h"); ("updatedAt", VNum 3); ("title", VStr "older")].

(** A local record with a cover of its own, and an uploaded synced record
    of its hash, newer and without one. *)
Definition local_cover : Book :=
  book [("hash", VStr "h"); ("updatedAt", VNum 1); ("title", VStr "local");
        ("coverImageUrl", VStr "old-cover")].
Definition uploaded5 : Book :=
  book [("hash", VStr "h"); ("updatedAt", VNum 5); ("uploadedAt", VNum 1);
        ("title", VStr "newer")].

(** Two uploaded records of one hash that no local record has. *)
Definition fresh5 : Book :=
  book [("hash", VStr "n"); ("updatedAt", VNum 5); ("uploadedAt", VNum 1)].
Definition fresh3 : Book :=
  book [("hash", VStr "n"); ("updatedAt", VNum 3); ("uploadedAt", VNum 1)].

(** A local tombstone. *)
Definition tomb : Book :=
  book [("hash", VStr "t"); ("updatedAt", VNum 2); ("deletedAt", VNum 4)].


(** A synced tombstone with the hash of [fresh5], older than it. *)
Definition gone1 : Book :=
  book [("hash", VStr "n"); ("updatedAt", VNum 1); ("deletedAt", VNum 1)].

(** Twenty-five uploaded records with hashes of their own. *)
Definition arrivals : list Book :=
  (λ i : nat, book [("hash", VStr (String (Ascii.ascii_of_nat (65 + i)) ""));
                    ("updatedAt", VNum 5); ("uploadedAt", VNum 1)]) <$> seq 0 25.

End Sample.

(** * Properties *)

(** Take apart an equation between a finished run and [(r, w')]. *)
Ltac finished :=
  let H := fresh in
  intros H; injection H; clear H; intros; subst.

(** ** Records *)

Lemma lookup_spread (a b : Book) (k : string) :
  spread a b !! k = match b !! k with Some v => Some v | None => a !! k end.
Proof.
  unfold spread. rewrite lookup_union.
  destruct (b !! k), (a !! k); reflexivity.
Qed.

Lemma mergedBook_newer (matchingBook oldBook : Book) :
  updatedAt matchingBook > updatedAt oldBook →
  mergedBook matchingBook oldBook = spread oldBook matchingBook.
Proof.
  intros H. unfold mergedBook.
  destruct (Z.gtb_spec (updatedAt matchingBook) (updatedAt oldBook)); [done | lia].
Qed.

Lemma mergedBook_not_newer (matchingBook oldBook : Book) :
  updatedAt matchingBook ≤ updatedAt oldBook →
  mergedBook matchingBook oldBook = spread matchingBook oldBook.
Proof.
  intros H. unfold mergedBook.
  destruct (Z.gtb_spec (updatedAt matchingBook) (updatedAt oldBook)); [lia | done].
Qed.

(** The conditional of [processOldBook] taken by itself is one of two
    overlays of whole records: when the synced record's [updatedAt] is
    strictly greater, the local record overlaid with the synced one (a
    property the synced record has takes the synced value, any other keeps
    the local value); otherwise, ties included, the synced record overlaid
    with the local one. *)
Theorem mergedBook_overlay (synced local : Book) :
  has_updatedAt synced → has_updatedAt local → hash synced = hash local →
  (updatedAt synced > updatedAt local →
     mergedBook synced local = spread local synced
     ∧ ∀ k, mergedBook synced local !! k
            = match synced !! k with Some v => Some v | None => local !! k end)
  ∧ (updatedAt synced ≤ updatedAt local →
     mergedBook synced local = spread synced local
     ∧ ∀ k, mergedBook synced local !! k
            = match local !! k with Some v => Some v | None => synced !! k end).
Proof.
  intros _ _ _. split; intros H.
  - rewrite mergedBook_newer by done. split; [done | apply lookup_spread].
  - rewrite mergedBook_not_newer by done. split; [done | apply lookup_spread].
Qed.

Lemma mergedBook_overlay_witness :
  (mergedBook Sample.synced5 Sample.local1 = spread Sample.local1 Sample.synced5
   ∧ ∀ k, mergedBook Sample.synced5 Sample.local1 !! k
          = match Sample.synced5 !! k with
            | Some v => Some v
            | None => Sample.local1 !! k
            end).
Proof.
  apply (mergedBook_overlay Sample.synced5 Sample.local1).
  - exists 5. reflexivity.
  - exists 1. reflexivity.
  - reflexivity.
  - vm_compute. reflexivity.
Defined.

(** ** Selection of local changes *)

Lemma changed_since_cursor (cursor : Z) (book : Book) :
  deletedAt_typed book →
  (cursor <? updatedAt book)
  || Js.lt (VNum cursor) (nullish_or (deletedAt book) (VNum 0)) = true
  ↔ cursor < updatedAt book ∨ cursor < deletedAt_or_0 book.
Proof.
  unfold deletedAt_typed, deletedAt_or_0. intros Hd.
  rewrite orb_true_iff, Z.ltb_lt.
  destruct (deletedAt book); simpl; try done; rewrite Z.ltb_lt; tauto.
Qed.

Lemma selected_iff (u : string) (cursor : Z) (w : World) (book : Book) :
  deletedAt_typed book →
  selected (Some u) cursor w book ↔
  book ∈ library (store w)
  ∧ (cursor < updatedAt book ∨ cursor < deletedAt_or_0 book).
Proof.
  intros Hd. rewrite <- (changed_since_cursor cursor book Hd).
  unfold selected, getNewBooks. split.
  - intros (sel & [= <-] & Hin).
    apply list_elem_of_In, filter_In in Hin as [Hin Hc].
    split; [by apply list_elem_of_In | exact Hc].
  - intros [Hin Hc]. eexists. split; [reflexivity |].
    apply list_elem_of_In, filter_In. split; [by apply list_elem_of_In | exact Hc].
Qed.

(** C3. With a user signed in, a record of the library is in the payload of
    local changes exactly when the cursor is below its [updatedAt] or below
    its [deletedAt ?? 0]. So a record updated at [cursor + 1] with no
    [deletedAt] is selected, a record updated at [cursor - 1] and deleted at
    [cursor + 1] is selected, and a record with both timestamps below (or
    at) the cursor is not. *)
Theorem getNewBooks_selection (u : string) (cursor : Z) (w : World) (book : Book) :
  book ∈ library (store w) →
  has_updatedAt book →
  deletedAt_typed book →
  (selected (Some u) cursor w book
   ↔ cursor < updatedAt book ∨ cursor < deletedAt_or_0 book)
  ∧ (updatedAt book = cursor + 1 → deletedAt book = VUndefined →
     selected (Some u) cursor w book)
  ∧ (updatedAt book = cursor - 1 → deletedAt book = VNum (cursor + 1) →
     selected (Some u) cursor w book)
  ∧ (updatedAt book ≤ cursor → deletedAt_or_0 book ≤ cursor →
     ¬ selected (Some u) cursor w book).
Proof.
  intros Hin _ Hd. repeat split.
  - intros H. by apply selected_iff in H as [_ H].
  - intros H. by apply selected_iff.
  - intros Hu _. apply selected_iff; [done |]. split; [done |]. left. lia.
  - intros _ Hdel. apply selected_iff; [done |]. split; [done |]. right.
    unfold deletedAt_or_0. rewrite Hdel. lia.
  - intros Hu Hdel H. apply selected_iff in H as [_ H]; [lia | done].
Qed.

Lemma getNewBooks_selection_witness :
  selected Sample.me 3 (Sample.world_of [Sample.tomb; Sample.local1]) Sample.tomb
  ↔ 3 < updatedAt Sample.tomb ∨ 3 < deletedAt_or_0 Sample.tomb.
Proof.
  apply (getNewBooks_selection "reader" 3
           (Sample.world_of [Sample.tomb; Sample.local1]) Sample.tomb).
  - simpl. left.
  - exists 2. reflexivity.
  - vm_compute. exact I.
Defined.

(** ** Pull: the single-flight latch *)

Lemma gateway_calls_app (t1 t2 : list event) :
  gateway_calls (t1 ++ t2) = (gateway_calls t1 + gateway_calls t2)%nat.
Proof. unfold gateway_calls. by rewrite List.filter_app, length_app. Qed.

Lemma pullLibrary_call_latched (user : option string) (w : World) :
  isPullingRef w = true → pullLibrary_call user w = (Finished (Return tt), w).
Proof. intros H. unfold pullLibrary_call. rewrite H. by destruct user. Qed.

Lemma pullLibrary_call_free (u : string) (w : World) :
  isPullingRef w = false →
  pullLibrary_call (Some u) w
  = (Awaiting, emit (SyncBooks (Some []) pull) (with_isPullingRef true w)).
Proof. intros H. unfold pullLibrary_call. by rewrite H. Qed.

(** C4. While a pull is in flight (the latch is set) a call of [pullLibrary]
    returns at once, without an error and without touching the world, so
    without a gateway call. From a free latch, two calls issued before the
    first settles make exactly one gateway invocation. When the gateway
    settles, whether it resolves or rejects, the latch is released. *)
Theorem pullLibrary_single_flight (u : string) (w : World) :
  (isPullingRef w = true →
     ∀ user, pullLibrary_call user w = (Finished (Return tt), w))
  ∧ (isPullingRef w = false →
     ∃ w1, pullLibrary_call (Some u) w = (Awaiting, w1)
           ∧ pullLibrary_call (Some u) w1 = (Finished (Return tt), w1)
           ∧ trace w1 = trace w ++ [SyncBooks (Some []) pull]
           ∧ gateway_calls (trace w1) = S (gateway_calls (trace w)))
  ∧ (∀ fulfilled,
       isPullingRef (snd (pullLibrary_settle fulfilled w)) = false
       ∧ trace (snd (pullLibrary_settle fulfilled w)) = trace w
       ∧ fst (pullLibrary_settle fulfilled w)
         = if fulfilled then Return tt else Throw).
Proof.
  split; [| split].
  - intros H user. by apply pullLibrary_call_latched.
  - intros H. eexists. split; [by apply pullLibrary_call_free |].
    split; [by apply pullLibrary_call_latched |].
    split; [reflexivity |].
    cbn [trace emit with_isPullingRef].
    rewrite gateway_calls_app, Nat.add_comm. reflexivity.
  - intros fulfilled. by destruct fulfilled.
Qed.

Lemma pullLibrary_single_flight_witness :
  ∃ w1, pullLibrary_call Sample.me (Sample.world_of []) = (Awaiting, w1)
        ∧ pullLibrary_call Sample.me w1 = (Finished (Return tt), w1)
        ∧ trace w1 = trace (Sample.world_of []) ++ [SyncBooks (Some []) pull]
        ∧ gateway_calls (trace w1) = S (gateway_calls (trace (Sample.world_of []))).
Proof.
  apply (proj1 (proj2 (pullLibrary_single_flight "reader" (Sample.world_of [])))).
  reflexivity.
Defined.

(** X3. Over any interleaving of calls and settlements that starts with no
    pull in flight, at most one activation is ever suspended at the gateway,
    and the latch is set exactly while one is. *)
Lemma session_single_flight (user : option string) (sched : list action) (s : Session) :
  awaiting s = (if isPullingRef (world s) then 1 else 0)%nat →
  awaiting (session_run user s sched)
  = (if isPullingRef (world (session_run user s sched)) then 1 else 0)%nat.
Proof.
  revert s. induction sched as [| a sched IH]; intros s Hs; [exact Hs |].
  apply IH. destruct a as [| fulfilled]; simpl.
  - unfold pullLibrary_call.
    destruct user as [u |]; [| exact Hs].
    destruct (isPullingRef (world s)) eqn:E; simpl; [by rewrite E | by rewrite Hs].
  - destruct (awaiting s) as [| n] eqn:E; [by rewrite E |].
    simpl. destruct (isPullingRef (world s)); [lia | discriminate].
Qed.

(** A sequential pull leaves the latch released when it took it, whatever
    the gateway answers. *)
Lemma pullLibrary_releases (u : string) (sync : Sync) (w : World) :
  isPullingRef w = false →
  isPullingRef (snd (pullLibrary (Some u) sync w)) = false.
Proof. intros H. unfold pullLibrary. by rewrite pullLibrary_call_free. Qed.

(** ** Autosync *)

(** Autosync is gated on the cursor, not on the selection: with nothing
    changed since a non-zero cursor the gateway is still called, with an
    empty payload; with a changed record and a zero cursor it is not. *)
Lemma handleAutoSync_not_by_selection :
  (books (getNewBooks Sample.me 5 (Sample.world_of [Sample.local1])) = Some []
   ∧ trace (snd (handleAutoSync Sample.me (Sample.gateway 5)
                   (Sample.world_of [Sample.local1])))
     = [SyncBooks (Some []) both])
  ∧ (books (getNewBooks Sample.me 0 (Sample.world_of [Sample.local1]))
     = Some [Sample.local1]
     ∧ trace (snd (handleAutoSync Sample.me (Sample.gateway 0)
                     (Sample.world_of [Sample.local1])))
       = []).
Proof. split; split; vm_compute; reflexivity. Qed.

(** C6, as the code has it. A run of the autosync function calls the gateway
    with direction [both] exactly when a user is signed in and the cursor is
    not zero; the payload is the selection of local changes, which may be
    empty. Otherwise nothing happens. *)
Theorem handleAutoSync_gate (user : option string) (sync : Sync) (w : World) :
  handleAutoSync user sync w
  = (Return tt,
     if bool_decide (is_Some user ∧ lastSyncedAtBooks sync ≠ 0)
     then emit (SyncBooks (books (getNewBooks user (lastSyncedAtBooks sync) w)) both) w
     else w).
Proof.
  unfold handleAutoSync. case_bool_decide as H.
  - destruct H as [[u ->] H]. cbn [getNewBooks lastSyncedAt truthy].
    destruct (Z.eqb_spec (lastSyncedAtBooks sync) 0) as [E | E]; [done |].
    reflexivity.
  - destruct user as [u |]; [| reflexivity]. cbn [getNewBooks lastSyncedAt truthy].
    destruct (Z.eqb_spec (lastSyncedAtBooks sync) 0) as [E | E]; [reflexivity |].
    destruct H. eauto.
Qed.

(** The effect around it: a trigger reaches the memoised autosync function
    only with a user signed in, no pull in flight and the throttle's
    consent. *)
Lemma autoSyncEffect_gate (user : option string) (allowed : bool)
    (memo_user : option string) (memo : Sync) (w : World) :
  autoSyncEffect user allowed memo_user memo w
  = if bool_decide (is_Some user ∧ isPullingRef w = false ∧ allowed = true)
    then handleAutoSync memo_user memo w
    else (Return tt, w).
Proof.
  unfold autoSyncEffect, throttle. case_bool_decide as H.
  - destruct H as ([u ->] & -> & ->). reflexivity.
  - destruct user as [u |]; [| reflexivity].
    destruct (isPullingRef w); [reflexivity |].
    destruct allowed; [| reflexivity].
    destruct H. eauto.
Qed.

(** ** Reasoning about asynchronous computations *)

Lemma bind_inv {A B} (m : Async A) (k : A → Async B) (w w' : World) (r : result B) :
  (m ≫= k) w = (r, w') →
  (∃ a w1, m w = (Return a, w1) ∧ k a w1 = (r, w'))
  ∨ (m w = (Throw, w') ∧ r = Throw)
  ∨ (m w = (OutOfFuel, w') ∧ r = OutOfFuel).
Proof.
  unfold mbind, Async_bind, bind.
  destruct (m w) as [[a | |] w1]; intros H.
  - left. eauto.
  - right. left. by inversion H.
  - right. right. by inversion H.
Qed.

Lemma calm_refl (w : World) : calm w w.
Proof.
  split; [done |]. split; [done |]. exists []. by rewrite app_nil_r.
Qed.

Lemma calm_trans (w1 w2 w3 : World) : calm w1 w2 → calm w2 w3 → calm w1 w3.
Proof.
  intros (Hs1 & Hp1 & t1 & Ht1 & Hf1) (Hs2 & Hp2 & t2 & Ht2 & Hf2).
  split; [congruence |]. split; [congruence |].
  exists (t1 ++ t2). split.
  - by rewrite Ht2, Ht1, app_assoc.
  - by apply Forall_app.
Qed.

Lemma quiet_refl (w : World) : quiet w w.
Proof. split; [apply calm_refl | done]. Qed.

Lemma quiet_trans (w1 w2 w3 : World) : quiet w1 w2 → quiet w2 w3 → quiet w1 w3.
Proof.
  intros [Hc1 Hu1] [Hc2 Hu2]. split; [by eapply calm_trans | congruence].
Qed.

Lemma quiet_emit (e : event) (w : World) : is_service e = true → quiet w (emit e w).
Proof.
  intros He. split; [| done]. split; [done |]. split; [done |].
  exists [e]. split; [done |]. by constructor.
Qed.

Lemma call_generateCoverImageUrl_quiet (appService : option AppService) (book : Book)
    (w w' : World) (r : result value) :
  call_generateCoverImageUrl appService book w = (r, w') →
  quiet w w' ∧ r ≠ OutOfFuel.
Proof.
  unfold call_generateCoverImageUrl. destruct appService as [svc |].
  - unfold tell, mbind, Async_bind, bind.
    destruct (generateCoverImageUrl svc book); intros [= <- <-];
      (split; [by apply quiet_emit | done]).
  - intros [= <- <-]. split; [apply quiet_refl | done].
Qed.

Lemma call_downloadBookCovers_quiet (appService : option AppService) (batch : list Book)
    (w w' : World) (r : result unit) :
  call_downloadBookCovers appService batch w = (r, w') →
  quiet w w' ∧ r ≠ OutOfFuel.
Proof.
  unfold call_downloadBookCovers. destruct appService as [svc |].
  - unfold tell, mbind, Async_bind, bind.
    destruct (downloadBookCovers svc batch); intros [= <- <-];
      (split; [by apply quiet_emit | done]).
  - intros [= <- <-]. split; [apply quiet_refl | done].
Qed.

(** The first loop of the merge only calls the cover service, and the
    budget it is given is enough. *)
Lemma download_loop_quiet (appService : option AppService) (xs : list Book)
    (fuel i : nat) (w w' : World) (r : result unit) :
  (length xs - i ≤ fuel)%nat →
  for_batches fuel xs oldBooksBatchSize
    (λ _ batch, call_downloadBookCovers appService batch) i w = (r, w') →
  quiet w w' ∧ r ≠ OutOfFuel.
Proof.
  revert i w. induction fuel as [| fuel IH]; intros i w Hfuel; simpl.
  - destruct (Nat.ltb_spec i (length xs)) as [Hlt | Hge]; [lia |].
    intros [= <- <-]. split; [apply quiet_refl | done].
  - destruct (Nat.ltb_spec i (length xs)) as [Hlt | Hge].
    + intros H. apply bind_inv in H as [(a & w1 & H1 & H2) | [[H1 ->] | [H1 ->]]].
      * apply call_downloadBookCovers_quiet in H1 as [Hq1 _].
        apply IH in H2 as [Hq2 Hr]; [| unfold oldBooksBatchSize; lia].
        split; [by eapply quiet_trans | done].
      * apply call_downloadBookCovers_quiet in H1 as [Hq1 _]. done.
      * by apply call_downloadBookCovers_quiet in H1 as [_ Hr].
    + intros [= <- <-]. split; [apply quiet_refl | done].
Qed.

Lemma Promise_all_cons {A} (p : Async A) (ps : list (Async A)) (w : World) :
  Promise_all (p :: ps) w
  = (settle_all (p w).1 (Promise_all ps (p w).2).1, (Promise_all ps (p w).2).2).
Proof.
  simpl. destruct (p w) as [r w1]. simpl.
  by destruct (Promise_all ps w1) as [rs w2].
Qed.

Lemma Promise_all_map {X A} (f : X → Async A) (R : World → World → Prop)
    (Q : X → A → Prop) (xs : list X) :
  (∀ w, R w w) →
  (∀ w1 w2 w3, R w1 w2 → R w2 w3 → R w1 w3) →
  (∀ x w r w', f x w = (r, w') → R w w' ∧ r ≠ OutOfFuel ∧ ∀ a, r = Return a → Q x a) →
  ∀ w r w', Promise_all (f <$> xs) w = (r, w') →
            R w w' ∧ r ≠ OutOfFuel ∧ ∀ l, r = Return l → Forall2 Q xs l.
Proof.
  intros Hrefl Htrans Hf. induction xs as [| x xs IH]; intros w r w'.
  - simpl. unfold ret. finished. split; [apply Hrefl |]. split; [done |].
    intros l [= <-]. constructor.
  - rewrite fmap_cons, Promise_all_cons.
    destruct (f x w) as [r1 w1] eqn:E1. cbn [fst snd].
    destruct (Promise_all (f <$> xs) w1) as [rs w2] eqn:E2. cbn [fst snd].
    apply Hf in E1 as (HR1 & Hr1 & HQ1). apply IH in E2 as (HR2 & Hr2 & HQ2).
    finished. split; [by eapply Htrans |].
    destruct r1 as [a | |], rs as [l | |]; try done.
    split; [done |]. intros l' [= <-]. constructor; auto.
Qed.

(** *** Matched records *)

Lemma matching_Some (syncedBooks : list Book) (oldBook m : Book) :
  matching syncedBooks oldBook = Some m → m ∈ syncedBooks ∧ hash m = hash oldBook.
Proof.
  unfold matching. intros H. apply find_some in H as [Hin Hh].
  split; [by apply list_elem_of_In | by apply bool_decide_eq_true in Hh].
Qed.

Lemma matching_None (syncedBooks : list Book) (oldBook : Book) :
  matching syncedBooks oldBook = None →
  ∀ s, s ∈ syncedBooks → hash s ≠ hash oldBook.
Proof.
  unfold matching. intros H s Hin Hh.
  apply list_elem_of_In in Hin.
  pose proof (find_none _ _ H s Hin) as Hn. simpl in Hn.
  by apply bool_decide_eq_false in Hn.
Qed.

Lemma matching_is_Some (syncedBooks : list Book) (oldBook s : Book) :
  s ∈ syncedBooks → hash s = hash oldBook → is_Some (matching syncedBooks oldBook).
Proof.
  intros Hin Hh. destruct (matching syncedBooks oldBook) eqn:E; [eauto |].
  by destruct (matching_None _ _ E s Hin).
Qed.

Lemma processOldBook_run (appService : option AppService) (syncedBooks : list Book)
    (oldBook : Book) (w w' : World) (r : result Book) :
  processOldBook appService syncedBooks oldBook w = (r, w') →
  quiet w w' ∧ r ≠ OutOfFuel ∧ ∀ b, r = Return b → old_result syncedBooks oldBook b.
Proof.
  unfold processOldBook, old_result. fold (matching syncedBooks oldBook).
  destruct (matching syncedBooks oldBook) as [m |].
  - destruct (negb (truthy (deletedAt m)) && truthy (uploadedAt m)
              && negb (truthy (coverDownloadedAt oldBook))).
    + intros H.
      apply bind_inv in H as [(a & w1 & H1 & H2) | [[H1 ->] | [H1 ->]]].
      * apply bind_inv in H1 as [(url & w0 & H0 & H1) | [[H0 [=]] | [H0 [=]]]].
        apply call_generateCoverImageUrl_quiet in H0 as [Hq _].
        injection H1 as <- <-. injection H2 as <- <-.
        split; [done |]. split; [done |]. intros b [= <-].
        eexists. split; [| reflexivity]. right. by eexists.
      * apply bind_inv in H1 as [(url & w0 & H0 & [=]) | [[H0 _] | [H0 [=]]]].
        apply call_generateCoverImageUrl_quiet in H0 as [Hq _]. done.
      * apply bind_inv in H1 as [(url & w0 & H0 & [=]) | [[H0 [=]] | [H0 _]]].
        by apply call_generateCoverImageUrl_quiet in H0 as [_ Hr].
    + intros [= <- <-]. split; [apply quiet_refl |]. split; [done |].
      intros b [= <-]. eexists. split; [by left | reflexivity].
  - intros [= <- <-]. split; [apply quiet_refl |]. split; [done |]. by intros b [= <-].
Qed.

Lemma merge_old_run (appService : option AppService) (syncedBooks lib : list Book)
    (w w' : World) (r : result (list Book)) :
  Promise_all (processOldBook appService syncedBooks <$> lib) w = (r, w') →
  quiet w w' ∧ r ≠ OutOfFuel
  ∧ ∀ merged, r = Return merged → Forall2 (old_result syncedBooks) lib merged.
Proof.
  apply (Promise_all_map _ quiet (old_result syncedBooks)).
  - apply quiet_refl.
  - apply quiet_trans.
  - intros x w0 r0 w0'. apply processOldBook_run.
Qed.

(** *** Newly arrived records *)

Lemma processNewBook_run (appService : option AppService) (newBook : Book)
    (w w' : World) (r : result unit) :
  processNewBook appService newBook w = (r, w') →
  calm w w' ∧ r ≠ OutOfFuel
  ∧ (r = Return tt →
     ∃ b, hydrated newBook b ∧ updatedLibrary w' = updatedLibrary w ++ [b]).
Proof.
  unfold processNewBook. intros H.
  apply bind_inv in H as [(url & w1 & H1 & H2) | [[H1 ->] | [H1 ->]]];
    apply call_generateCoverImageUrl_quiet in H1 as [[Hc Hu] Hr]; [| done | done].
  injection H2 as <- <-. split; [| split; [done |]].
  - destruct Hc as (Hs & Hp & Ht). by repeat split.
  - intros _. eexists. split; [by eexists |]. simpl. by rewrite Hu.
Qed.

Lemma hydrate_all_run (appService : option AppService) (batch : list Book)
    (w w' : World) (r : result (list unit)) :
  Promise_all (processNewBook appService <$> batch) w = (r, w') →
  calm w w' ∧ r ≠ OutOfFuel
  ∧ ((∃ l, r = Return l) →
     ∃ X, Forall2 hydrated batch X ∧ updatedLibrary w' = updatedLibrary w ++ X).
Proof.
  revert w r w'. induction batch as [| n batch IH]; intros w r w'.
  - simpl. unfold ret. finished. split; [apply calm_refl |]. split; [done |].
    intros _. exists []. split; [constructor | by rewrite app_nil_r].
  - rewrite fmap_cons, Promise_all_cons.
    destruct (processNewBook appService n w) as [r1 w1] eqn:E1. cbn [fst snd].
    destruct (Promise_all (processNewBook appService <$> batch) w1)
      as [rs w2] eqn:E2. cbn [fst snd].
    apply processNewBook_run in E1 as (Hc1 & Hr1 & Hu1).
    apply IH in E2 as (Hc2 & Hr2 & Hu2).
    finished. split; [by eapply calm_trans |].
    destruct r1 as [[] | |], rs as [l | |]; try done;
      (split; [done |]); try by intros [? [=]].
    intros _. destruct Hu1 as (b & Hb & Hu1); [done |].
    destruct Hu2 as (X & HX & Hu2); [by eexists |].
    exists (b :: X). split; [by constructor |].
    by rewrite Hu2, Hu1, <- app_assoc.
Qed.

(** *** Hashes survive the merge *)

Lemma hash_assign_cover (n : Book) (url : value) :
  hash (assign n "coverImageUrl" url) = hash n.
Proof. unfold hash, prop, assign. by rewrite lookup_insert_ne. Qed.

Lemma hash_hydrated (n b : Book) : hydrated n b → hash b = hash n.
Proof. intros [url ->]. apply hash_assign_cover. Qed.

Lemma hash_maybe_hydrated (n b : Book) : maybe_hydrated n b → hash b = hash n.
Proof. intros [-> | H]; [done | by apply hash_hydrated]. Qed.

Lemma hash_spread (a b : Book) : hash a = hash b → hash (spread a b) = hash a.
Proof.
  unfold hash, prop. rewrite lookup_spread.
  destruct (b !! "hash"); simpl; congruence.
Qed.

Lemma hash_mergedBook (m l : Book) : hash m = hash l → hash (mergedBook m l) = hash l.
Proof.
  intros H. unfold mergedBook.
  destruct (updatedAt m >? updatedAt l).
  - by apply hash_spread.
  - rewrite hash_spread; done.
Qed.

Lemma old_result_hash (syncedBooks : list Book) (oldBook b : Book) :
  old_result syncedBooks oldBook b → hash b = hash oldBook.
Proof.
  unfold old_result. destruct (matching syncedBooks oldBook) as [m |] eqn:E.
  - intros (l' & Hl' & ->). apply matching_Some in E as [_ Hm].
    apply hash_maybe_hydrated in Hl'. rewrite hash_mergedBook; congruence.
  - by intros ->.
Qed.

Lemma Forall2_same_hashes (R : Book → Book → Prop) (l1 l2 : list Book) :
  (∀ a b, R a b → hash b = hash a) →
  Forall2 R l1 l2 → hash <$> l2 = hash <$> l1.
Proof.
  intros HR H. induction H as [| a b l1 l2 Hab _ IH]; [done |].
  rewrite !fmap_cons. f_equal; auto.
Qed.

Lemma merged_hashes (syncedBooks lib merged : list Book) :
  Forall2 (old_result syncedBooks) lib merged → hash <$> merged = hash <$> lib.
Proof. apply Forall2_same_hashes. apply old_result_hash. Qed.

Lemma hydrated_hashes (nb X : list Book) :
  Forall2 hydrated nb X → hash <$> X = hash <$> nb.
Proof. apply Forall2_same_hashes. apply hash_hydrated. Qed.

(** *** One batch of new records, and the loop over the batches *)

Lemma hydrate_batch_run (appService : option AppService) (total i : nat)
    (batch : list Book) (w w' : World) (r : result unit) :
  hydrate_batch appService total i batch w = (r, w') →
  r ≠ OutOfFuel
  ∧ (r = Throw → calm w w')
  ∧ (r = Return tt →
     ∃ X t,
       Forall2 hydrated batch X
       ∧ updatedLibrary w' = updatedLibrary w ++ X
       ∧ store w'
         = {| library := updatedLibrary w ++ X;
              isSyncing := isSyncing (store w);
              syncProgress :=
                Qmin (inject_Z (Z.of_nat (i + batchSize))
                      / inject_Z (Z.of_nat total)) 1 |}
       ∧ isPullingRef w' = isPullingRef w
       ∧ Forall (λ e, is_service e = true) t
       ∧ trace w'
         = trace w ++ t
           ++ [SetLibrary (updatedLibrary w ++ X);
               SetSyncProgress
                 (Qmin (inject_Z (Z.of_nat (i + batchSize))
                        / inject_Z (Z.of_nat total)) 1)]).
Proof.
  unfold hydrate_batch. intros H.
  apply bind_inv in H as [(a & w1 & H1 & H) | [[H1 ->] | [H1 ->]]];
    apply call_downloadBookCovers_quiet in H1 as [[Hc1 Hu1] Hr1]; [| | done].
  2:{ split; [done |]. split; [done | discriminate]. }
  apply bind_inv in H as [(l & w2 & H2 & H) | [[H2 ->] | [H2 ->]]];
    apply hydrate_all_run in H2 as (Hc2 & Hr2 & HX); [| | done].
  2:{ split; [done |]. split; [| discriminate]. intros _. by eapply calm_trans. }
  destruct HX as (X & HX & Hu2); [by eexists |].
  unfold get_updatedLibrary, setLibrary, setSyncProgress, mbind, Async_bind, bind in H.
  injection H as <- <-. split; [done |]. split; [done |]. intros _.
  destruct Hc1 as (Hs1 & Hp1 & t1 & Ht1 & Hf1).
  destruct Hc2 as (Hs2 & Hp2 & t2 & Ht2 & Hf2).
  exists X, (t1 ++ t2).
  cbn [updatedLibrary store trace isPullingRef emit with_store isSyncing].
  rewrite Hu2, Hu1, Hs2, Hs1, Hp2, Hp1, Ht2, Ht1, <- !app_assoc.
  repeat split; try done. by apply Forall_app.
Qed.

Lemma hydrate_loop_run (appService : option AppService) (merged nb : list Book)
    (total fuel i : nat) (X0 : list Book) (w w' : World) (r : result unit) :
  (length nb - i ≤ fuel)%nat →
  updatedLibrary w = merged ++ X0 →
  Forall2 hydrated (take i nb) X0 →
  for_batches fuel nb batchSize (hydrate_batch appService total) i w = (r, w') →
  r ≠ OutOfFuel
  ∧ isSyncing (store w') = isSyncing (store w)
  ∧ isPullingRef w' = isPullingRef w
  ∧ (library (store w') = library (store w) ∨ grown merged nb (library (store w')))
  ∧ (r = Return tt →
     ∃ X, updatedLibrary w' = merged ++ X ∧ Forall2 hydrated nb X).
Proof.
  revert i X0 w. induction fuel as [| fuel IH]; intros i X0 w Hfuel Hu HX0; simpl;
    destruct (Nat.ltb_spec i (length nb)) as [Hlt | Hge]; try lia.
  - unfold ret. finished. repeat split; auto.
    intros _. exists X0. split; [done |]. by rewrite take_ge in HX0.
  - intros H. apply bind_inv in H as [(a & w1 & H1 & H) | [[H1 ->] | [H1 ->]]];
      apply hydrate_batch_run in H1 as (Hr1 & Hthrow & Hret); [| | done].
    + destruct Hret as (X & t & HX & Hu1 & Hs1 & Hp1 & _ & _); [by destruct a |].
      assert (Forall2 hydrated (take (i + batchSize) nb) (X0 ++ X)) as HX1.
      { rewrite <- take_take_drop. apply Forall2_app; [done |].
        unfold slice in HX. by replace (i + batchSize - i)%nat with batchSize in HX by lia. }
      apply IH with (X0 := X0 ++ X) in H as (Hr & Hsync & Hp & Hlib & Hfin);
        [| unfold batchSize; lia | by rewrite Hu1, Hu, <- app_assoc | done].
      split; [done |]. split; [by rewrite Hsync, Hs1 |]. split; [congruence |].
      split; [| done]. right. destruct Hlib as [Hlib | Hlib]; [| done].
      exists (i + batchSize)%nat, (X0 ++ X). split; [| done].
      by rewrite Hlib, Hs1, Hu, <- app_assoc.
    + destruct Hthrow as (Hs & Hp & _); [done |]. rewrite Hs.
      repeat split; auto. done.
  - unfold ret. finished. repeat split; auto.
    intros _. exists X0. split; [done |]. by rewrite take_ge in HX0.
Qed.

(** *** The phases of a merge cycle *)

Lemma service_not_report (t : list event) :
  Forall (λ e, is_service e = true) t → Forall (λ e, is_report e = false) t.
Proof. intros H. eapply Forall_impl; [exact H |]. by intros []. Qed.

Lemma published_progress_silent (t : list event) :
  Forall (λ e, is_report e = false) t → published_progress t = [].
Proof.
  unfold published_progress. induction 1 as [| e t He _ IH]; [done |].
  destruct e; try discriminate He; exact IH.
Qed.

Lemma snapshot_sizes_silent (t : list event) :
  Forall (λ e, is_report e = false) t → snapshot_sizes t = [].
Proof.
  unfold snapshot_sizes. induction 1 as [| e t He _ IH]; [done |].
  destruct e; try discriminate He; exact IH.
Qed.

(** A cycle that is not skipped either throws before it has touched the
    store, or reaches the loop over the new records with the merged records
    in hand; what the loop does decides the rest. *)
Lemma updateLibrary_phases (appService : option AppService) (synced : list Book)
    (w w' : World) (r : result unit) :
  isSyncing (store w) = false →
  synced ≠ [] →
  updateLibrary appService (Some synced) w = (r, w') →
  (r = Throw ∧ quiet w w')
  ∨ ∃ merged t4 w4 r5 w5,
      Forall2 (old_result (Array_sort byUpdatedAt synced)) (library (store w)) merged
      ∧ library (store w4) = library (store w)
      ∧ isSyncing (store w4) = (0 <? length (arrived (library (store w)) synced))%nat
      ∧ isPullingRef w4 = isPullingRef w
      ∧ updatedLibrary w4 = merged
      ∧ trace w4 = trace w ++ t4
      ∧ Forall (λ e, is_report e = false) t4
      ∧ for_batches (length (arrived (library (store w)) synced))
          (arrived (library (store w)) synced) batchSize
          (hydrate_batch appService (length (arrived (library (store w)) synced)))
          0 w4 = (r5, w5)
      ∧ match r5 with
        | Return _ =>
            r = Return tt
            ∧ library (store w') = updatedLibrary w5
            ∧ isSyncing (store w') = false
            ∧ isPullingRef w' = isPullingRef w5
            ∧ ∃ t6, trace w' = trace w5 ++ SetLibrary (updatedLibrary w5) :: t6
                    ∧ Forall (λ e, is_report e = false) t6
        | _ => r = r5 ∧ w' = w5
        end.
Proof.
  intros Hsync Hne. unfold updateLibrary. rewrite Hsync.
  destruct synced as [| s0 ss]; [done |].
  change (λ a b : Book, updatedAt a - updatedAt b) with byUpdatedAt.
  set (S := Array_sort byUpdatedAt (s0 :: ss)). cbv zeta. intros H.
  apply bind_inv in H as [(a & w1 & H1 & H) | [[H1 ->] | [H1 ->]]];
    apply download_loop_quiet in H1 as [Hq1 Hr1]; try lia; try done.
  2:{ by left. }
  apply bind_inv in H as [(merged & w2 & H2 & H) | [[H2 ->] | [H2 ->]]];
    apply merge_old_run in H2 as (Hq2 & Hr2 & Hm); try done.
  2:{ left. split; [done | by eapply quiet_trans]. }
  specialize (Hm merged eq_refl).
  pose proof (quiet_trans _ _ _ Hq1 Hq2) as [(Hs2 & Hp2 & t2 & Ht2 & Hf2) Hu2].
  rewrite (merged_hashes _ _ _ Hm) in H.
  change (List.filter _ S) with (arrived (library (store w)) (s0 :: ss)) in H.
  set (nb := arrived (library (store w)) (s0 :: ss)) in *.
  apply bind_inv in H as [(? & w3 & H3 & H) | [[[=] _] | [[=] _]]].
  injection H3 as _ <-.
  apply bind_inv in H as [(? & w4 & H4 & H) | [[H4 ->] | [H4 ->]]].
  2,3: by destruct (0 <? length nb)%nat.
  change (λ (i : nat) (batch : list Book), _)
    with (hydrate_batch appService (length nb)) in H.
  right. exists merged.
  exists (t2 ++ if (0 <? length nb)%nat then [SetIsSyncing true] else []), w4.
  destruct (for_batches (length nb) nb batchSize
              (hydrate_batch appService (length nb)) 0 w4) as [r5 w5] eqn:H5.
  exists r5, w5. split; [done |].
  assert (library (store w4) = library (store w)
          ∧ isSyncing (store w4) = (0 <? length nb)%nat
          ∧ isPullingRef w4 = isPullingRef w
          ∧ updatedLibrary w4 = merged
          ∧ trace w4
            = trace w ++ t2 ++ if (0 <? length nb)%nat then [SetIsSyncing true] else [])
    as (Hl4 & Hs4 & Hp4 & Hu4 & Ht4).
  { destruct (0 <? length nb)%nat; injection H4 as _ <-; cbn;
      rewrite ?Hs2, ?Hp2, ?Ht2, ?app_nil_r, <- ?app_assoc; auto. }
  do 5 (split; [done |]).
  split. { apply Forall_app. split; [by apply service_not_report |].
           destruct (0 <? length nb)%nat; repeat constructor. }
  split; [done |].
  unfold mbind, Async_bind, bind in H. rewrite H5 in H.
  destruct r5 as [[] | |]; [| by injection H as <- <- | by injection H as <- <-].
  pose proof H5 as H5'.
  eapply hydrate_loop_run with (X0 := []) in H5' as (_ & Hs5 & _);
    [| lia | by rewrite app_nil_r | rewrite take_0; constructor].
  unfold get_updatedLibrary, setLibrary, call_saveLibraryBooks, when, setIsSyncing,
    tell, ret in H.
  destruct appService, (0 <? length nb)%nat; injection H as <- <-; cbn;
    rewrite ?Hs5, ?Hs4; repeat split; auto;
    eexists; (split; [by rewrite <- ?app_assoc | repeat constructor]).
Qed.

(** *** The merge cycle as a whole *)

Lemma updateLibrary_busy (appService : option AppService) (synced : option (list Book))
    (w : World) :
  isSyncing (store w) = true → updateLibrary appService synced w = (Return tt, w).
Proof. intros H. unfold updateLibrary. by rewrite H. Qed.

Lemma updateLibrary_nothing (appService : option AppService) (synced : option (list Book))
    (w : World) :
  synced = None ∨ synced = Some [] → updateLibrary appService synced w = (Return tt, w).
Proof.
  intros [-> | ->]; unfold updateLibrary; by destruct (isSyncing (store w)).
Qed.

Lemma updateLibrary_run (appService : option AppService) (synced : list Book)
    (w w' : World) (r : result unit) :
  isSyncing (store w) = false →
  synced ≠ [] →
  updateLibrary appService (Some synced) w = (r, w') →
  r ≠ OutOfFuel
  ∧ isPullingRef w' = isPullingRef w
  ∧ (library (store w') = library (store w)
     ∨ ∃ merged,
         Forall2 (old_result (Array_sort byUpdatedAt synced)) (library (store w)) merged
         ∧ grown merged (arrived (library (store w)) synced) (library (store w')))
  ∧ (r = Return tt →
     ∃ merged X,
       Forall2 (old_result (Array_sort byUpdatedAt synced)) (library (store w)) merged
       ∧ Forall2 hydrated (arrived (library (store w)) synced) X
       ∧ library (store w') = merged ++ X
       ∧ isSyncing (store w') = false).
Proof.
  intros Hsync Hne Hrun.
  apply updateLibrary_phases in Hrun
    as [[-> [(Hs & Hp & _) _]]
       | (merged & t4 & w4 & r5 & w5 & Hm & Hl4 & _ & Hp4 & Hu4 & _ & _
          & Hloop & Hend)]; [| | done | done].
  { rewrite Hs. repeat split; auto; done. }
  eapply hydrate_loop_run with (merged := merged) (X0 := []) in Hloop
    as (Hr5 & _ & Hp5 & Hl5 & Hfin);
    [| lia | by rewrite app_nil_r | rewrite take_0; constructor].
  destruct r5 as [[] | |]; [| | done].
  - destruct Hend as (-> & Hl & Hs & Hp & _).
    destruct Hfin as (X & Hu5 & HX); [done |].
    split; [done |]. split; [congruence |]. split.
    + right. exists merged. split; [done |].
      exists (length (arrived (library (store w)) synced)), X.
      split; [congruence | by rewrite take_ge].
    + intros _. exists merged, X. repeat split; auto. congruence.
  - destruct Hend as [-> ->].
    split; [done |]. split; [congruence |]. split; [| done].
    destruct Hl5 as [Hl5 | Hl5]; [left; congruence | right; eauto].
Qed.

(** The loop budgets are never used up: a merge cycle returns or throws. *)
Lemma updateLibrary_settles (appService : option AppService)
    (synced : option (list Book)) (w : World) :
  (updateLibrary appService synced w).1 ≠ OutOfFuel.
Proof.
  destruct (isSyncing (store w)) eqn:Hs.
  - by rewrite updateLibrary_busy.
  - destruct synced as [[| s0 ss] |].
    + rewrite updateLibrary_nothing; [done | by right].
    + destruct (updateLibrary appService (Some (s0 :: ss)) w) as [r w'] eqn:E.
      by apply updateLibrary_run in E as [Hr _].
    + rewrite updateLibrary_nothing; [done | by left].
Qed.

(** What a merge cycle leaves in the store: the library it started from, or
    the merged records followed by hydrated arrivals. *)
Lemma updateLibrary_library (appService : option AppService)
    (synced : option (list Book)) (w : World) :
  library (store (updateLibrary appService synced w).2) = library (store w)
  ∨ ∃ batch merged,
      synced = Some batch
      ∧ Forall2 (old_result (Array_sort byUpdatedAt batch)) (library (store w)) merged
      ∧ grown merged (arrived (library (store w)) batch)
          (library (store (updateLibrary appService synced w).2)).
Proof.
  destruct (isSyncing (store w)) eqn:Hs.
  - left. by rewrite updateLibrary_busy.
  - destruct synced as [[| s0 ss] |].
    + left. rewrite updateLibrary_nothing; [done | by right].
    + destruct (updateLibrary appService (Some (s0 :: ss)) w) as [r w'] eqn:E.
      apply updateLibrary_run in E as (_ & _ & [Hl | (merged & Hm & Hg)] & _);
        [by left | | done | done].
      right. exists (s0 :: ss), merged. auto.
    + left. rewrite updateLibrary_nothing; [done | by left].
Qed.

(** ** Records are never dropped *)

Lemma Forall2_elem_of_l {A B} (R : A → B → Prop) (l1 : list A) (l2 : list B) (a : A) :
  Forall2 R l1 l2 → a ∈ l1 → ∃ b, b ∈ l2 ∧ R a b.
Proof.
  intros H. induction H as [| x y l1 l2 Hxy _ IH]; intros Hin.
  - by apply elem_of_nil in Hin.
  - apply elem_of_cons in Hin as [-> | Hin].
    + exists y. split; [left | done].
    + destruct (IH Hin) as (b & Hb & HR). exists b. split; [by right | done].
Qed.

(** C9. Whatever the merge cycle does, skip, complete or fail part-way,
    every record of the library it started from, a tombstone in particular,
    still has a record with its hash in the library the cycle leaves in the
    store. *)
Theorem updateLibrary_keeps_records (appService : option AppService)
    (synced : option (list Book)) (w : World) (book : Book) :
  book ∈ library (store w) →
  ∃ book', book' ∈ library (store (updateLibrary appService synced w).2)
           ∧ hash book' = hash book.
Proof.
  intros Hin.
  destruct (updateLibrary_library appService synced w)
    as [-> | (batch & merged & _ & Hm & k & X & -> & _)].
  - by exists book.
  - destruct (Forall2_elem_of_l _ _ _ _ Hm Hin) as (b & Hb & HR).
    exists b. split; [apply elem_of_app; by left | by eapply old_result_hash].
Qed.

Lemma updateLibrary_keeps_records_witness :
  ∃ book', book' ∈ library (store (updateLibrary (Some Sample.covers_ok)
                                     (Some [Sample.fresh5])
                                     (Sample.world_of [Sample.tomb])).2)
           ∧ hash book' = hash Sample.tomb.
Proof.
  apply (updateLibrary_keeps_records (Some Sample.covers_ok) (Some [Sample.fresh5])
           (Sample.world_of [Sample.tomb]) Sample.tomb).
  simpl. left.
Defined.

(** ** Uniqueness of hashes *)

Lemma arrived_elem (lib synced : list Book) (n : Book) :
  n ∈ arrived lib synced →
  n ∈ Array_sort byUpdatedAt synced
  ∧ (hash n ∉ hash <$> lib)
  ∧ truthy (uploadedAt n) = true
  ∧ truthy (deletedAt n) = false.
Proof.
  unfold arrived. intros H. apply list_elem_of_In, filter_In in H as [Hin Hc].
  apply andb_prop in Hc as [Hc Hd]. apply andb_prop in Hc as [Hh Hu].
  apply negb_true_iff in Hd. apply negb_true_iff, bool_decide_eq_false in Hh.
  rewrite elem_of_list_to_set in Hh.
  split; [by apply list_elem_of_In | done].
Qed.

(** Two arrivals of one hash are both appended. *)
Lemma updateLibrary_duplicates :
  NoDup (hash <$> library (store (Sample.world_of [Sample.local1])))
  ∧ (updateLibrary (Some Sample.covers_ok) (Some [Sample.fresh5; Sample.fresh3])
       (Sample.world_of [Sample.local1])).1 = Return tt
  ∧ hash <$> library (store (updateLibrary (Some Sample.covers_ok)
                               (Some [Sample.fresh5; Sample.fresh3])
                               (Sample.world_of [Sample.local1])).2)
    = [VStr "h"; VStr "n"; VStr "n"]
  ∧ ¬ NoDup (hash <$> library (store (updateLibrary (Some Sample.covers_ok)
                                       (Some [Sample.fresh5; Sample.fresh3])
                                       (Sample.world_of [Sample.local1])).2)).
Proof.
  assert (hash <$> library (store (updateLibrary (Some Sample.covers_ok)
                               (Some [Sample.fresh5; Sample.fresh3])
                               (Sample.world_of [Sample.local1])).2)
          = [VStr "h"; VStr "n"; VStr "n"]) as E by (vm_compute; reflexivity).
  split; [| split; [| split]].
  - simpl. apply NoDup_singleton.
  - vm_compute. reflexivity.
  - exact E.
  - rewrite E. intros H. apply NoDup_cons in H as [_ H].
    apply NoDup_cons in H as [H _]. apply H. left.
Qed.

(** C8, as the code has it. If the library has unique hashes and no two of
    the batch's newly arrived records share a hash, the library that a merge
    cycle leaves in the store has unique hashes, whether the cycle completes
    or fails part-way. *)
Theorem updateLibrary_unique_hashes (appService : option AppService)
    (synced : list Book) (w : World) :
  NoDup (hash <$> library (store w)) →
  NoDup (hash <$> arrived (library (store w)) synced) →
  NoDup (hash <$> library (store (updateLibrary appService (Some synced) w).2)).
Proof.
  intros Hlib Hnb.
  destruct (updateLibrary_library appService (Some synced) w)
    as [-> | (batch & merged & [= <-] & Hm & k & X & -> & HX)]; [done |].
  rewrite fmap_app, (merged_hashes _ _ _ Hm), (hydrated_hashes _ _ HX).
  apply NoDup_app. split; [done |]. split.
  - intros h Hh Hh'. apply list_elem_of_fmap in Hh' as (n & -> & Hn).
    apply elem_of_take in Hn as (i & Hn & _). apply list_elem_of_lookup_2 in Hn.
    by apply arrived_elem in Hn as (_ & Hn & _).
  - rewrite fmap_take. eapply sublist_NoDup; [exact Hnb | apply sublist_take].
Qed.

Lemma updateLibrary_unique_hashes_witness :
  NoDup (hash <$> library (store (updateLibrary (Some Sample.covers_ok)
                                    (Some [Sample.fresh5; Sample.synced3])
                                    (Sample.world_of [Sample.local1; Sample.tomb])).2)).
Proof.
  apply (updateLibrary_unique_hashes (Some Sample.covers_ok)
           [Sample.fresh5; Sample.synced3]
           (Sample.world_of [Sample.local1; Sample.tomb])).
  - apply (bool_decide_unpack _). vm_compute. exact I.
  - apply (bool_decide_unpack _). vm_compute. exact I.
Defined.

(** ** The sorted batch and the match it yields *)

Lemma sort_insert_perm (cmp : Book → Book → Z) (x : Book) (l : list Book) :
  sort_insert cmp x l ≡ₚ x :: l.
Proof.
  induction l as [| y l IH]; simpl; [done |].
  destruct (cmp x y <=? 0); [done |].
  rewrite IH. apply Permutation_swap.
Qed.

Lemma Array_sort_perm (cmp : Book → Book → Z) (l : list Book) :
  Array_sort cmp l ≡ₚ l.
Proof.
  induction l as [| x l IH]; simpl; [done |].
  rewrite sort_insert_perm. by constructor.
Qed.

Lemma Array_sort_elem (cmp : Book → Book → Z) (l : list Book) (x : Book) :
  x ∈ Array_sort cmp l ↔ x ∈ l.
Proof. by rewrite Array_sort_perm. Qed.

Lemma sort_insert_sorted (x : Book) (l : list Book) :
  StronglySorted not_after l → StronglySorted not_after (sort_insert byUpdatedAt x l).
Proof.
  induction 1 as [| y l Hl IH Hy]; simpl.
  - repeat constructor.
  - unfold byUpdatedAt at 1. destruct (Z.leb_spec (updatedAt x - updatedAt y) 0) as [Hle | Hgt].
    + constructor; [by constructor |].
      constructor; [unfold not_after; lia |].
      eapply Forall_impl; [exact Hy |]. unfold not_after. intros z Hz. lia.
    + constructor; [done |].
      rewrite sort_insert_perm. constructor; [unfold not_after; lia | done].
Qed.

Lemma Array_sort_sorted (l : list Book) :
  StronglySorted not_after (Array_sort byUpdatedAt l).
Proof.
  induction l as [| x l IH]; simpl; [constructor | by apply sort_insert_sorted].
Qed.

(** In a sorted list the first record that passes a test is the earliest
    that does. *)
Lemma find_sorted_least (p : Book → bool) (l : list Book) (m s : Book) :
  StronglySorted not_after l →
  List.find p l = Some m → s ∈ l → p s = true → updatedAt m ≤ updatedAt s.
Proof.
  induction 1 as [| y l Hl IH Hy]; simpl; [done |].
  destruct (p y) eqn:Hp.
  - intros [= <-] Hin _. apply elem_of_cons in Hin as [-> | Hin]; [lia |].
    rewrite Forall_forall in Hy. by apply Hy.
  - intros Hf Hin Hs. apply elem_of_cons in Hin as [-> | Hin]; [congruence |].
    by apply IH.
Qed.

Lemma matching_sorted (synced : list Book) (oldBook m : Book) :
  matching (Array_sort byUpdatedAt synced) oldBook = Some m →
  m ∈ synced ∧ hash m = hash oldBook
  ∧ ∀ s, s ∈ synced → hash s = hash oldBook → updatedAt m ≤ updatedAt s.
Proof.
  intros H. pose proof (matching_Some _ _ _ H) as [Hin Hh].
  apply Array_sort_elem in Hin. split; [done |]. split; [done |].
  intros s Hs Hhs.
  eapply (find_sorted_least _ _ m s (Array_sort_sorted synced) H).
  - by apply Array_sort_elem.
  - by apply bool_decide_eq_true.
Qed.

(** Of two synced records with the hash of a local record, the merge uses
    the older one. *)
Lemma updateLibrary_first_match :
  updatedAt Sample.synced3 < updatedAt Sample.synced5
  ∧ hash Sample.synced3 = hash Sample.local1
  ∧ hash Sample.synced5 = hash Sample.local1
  ∧ updateLibrary (Some Sample.covers_ok) (Some [Sample.synced5; Sample.synced3])
      (Sample.world_of [Sample.local1])
    = (Return tt,
       {| store := {| library := [mergedBook Sample.synced3 Sample.local1];
                      isSyncing := false; syncProgress := 0%Q |};
          isPullingRef := false;
          updatedLibrary := [mergedBook Sample.synced3 Sample.local1];
          trace := [SetLibrary [mergedBook Sample.synced3 Sample.local1];
                    SaveLibraryBooks [mergedBook Sample.synced3 Sample.local1]] |})
  ∧ mergedBook Sample.synced3 Sample.local1 !! "title" = Some (VStr "older")
  ∧ mergedBook Sample.synced5 Sample.local1 !! "title" = Some (VStr "newer").
Proof. repeat split; vm_compute; reflexivity. Qed.

(** C7, as the code has it. When a local record's hash occurs in the synced
    batch, the record that a completed merge cycle stores in its place is the
    merge of the local record (after its cover write, if any) with a synced
    record of that hash whose [updatedAt] is the least among the batch's
    records of that hash: the first match in the batch sorted ascending. *)
Theorem updateLibrary_earliest_match (appService : option AppService)
    (synced : list Book) (w w' : World) (i : nat) (oldBook s : Book) :
  isSyncing (store w) = false →
  Forall has_updatedAt synced →
  library (store w) !! i = Some oldBook →
  s ∈ synced → hash s = hash oldBook →
  updateLibrary appService (Some synced) w = (Return tt, w') →
  ∃ m oldBook',
    m ∈ synced ∧ hash m = hash oldBook
    ∧ (∀ s', s' ∈ synced → hash s' = hash oldBook → updatedAt m ≤ updatedAt s')
    ∧ maybe_hydrated oldBook oldBook'
    ∧ library (store w') !! i = Some (mergedBook m oldBook').
Proof.
  intros Hsync _ Hi Hs Hh Hrun.
  assert (synced ≠ []) as Hne by (intros ->; by apply elem_of_nil in Hs).
  apply updateLibrary_run in Hrun as (_ & _ & _ & Hfin); [| done | done].
  destruct Hfin as (merged & X & Hm & _ & Hl & _); [done |].
  destruct (Forall2_lookup_l _ _ _ _ _ Hm Hi) as (b & Hb & Hres).
  unfold old_result in Hres.
  destruct (matching_is_Some (Array_sort byUpdatedAt synced) oldBook s)
    as [m Hmatch]; [by apply Array_sort_elem | done |].
  rewrite Hmatch in Hres. destruct Hres as (oldBook' & Hhyd & ->).
  apply matching_sorted in Hmatch as (Hin & Hhm & Hleast).
  exists m, oldBook'. repeat split; try done.
  rewrite Hl. by apply lookup_app_l_Some.
Qed.

Lemma updateLibrary_earliest_match_witness :
  ∃ m oldBook',
    m ∈ [Sample.synced5; Sample.synced3] ∧ hash m = hash Sample.local1
    ∧ (∀ s', s' ∈ [Sample.synced5; Sample.synced3] → hash s' = hash Sample.local1 →
             updatedAt m ≤ updatedAt s')
    ∧ maybe_hydrated Sample.local1 oldBook'
    ∧ library (store (updateLibrary (Some Sample.covers_ok)
                        (Some [Sample.synced5; Sample.synced3])
                        (Sample.world_of [Sample.local1])).2) !! 0%nat
      = Some (mergedBook m oldBook').
Proof.
  apply (updateLibrary_earliest_match (Some Sample.covers_ok)
           [Sample.synced5; Sample.synced3] (Sample.world_of [Sample.local1])
           _ 0%nat Sample.local1 Sample.synced5).
  - reflexivity.
  - repeat constructor; eexists; reflexivity.
  - reflexivity.
  - left.
  - reflexivity.
  - vm_compute. reflexivity.
Defined.

(** ** Progress *)

Lemma for_batches_step (fuel : nat) (xs : list Book) (size : nat)
    (body : nat → list Book → Async unit) (i : nat) :
  (i < length xs)%nat →
  for_batches (S fuel) xs size body i
  = (body i (slice xs i (i + size));; for_batches fuel xs size body (i + size)).
Proof.
  intros H. simpl. by destruct (Nat.ltb_spec i (length xs)); [| lia].
Qed.

Lemma for_batches_done (fuel : nat) (xs : list Book) (size : nat)
    (body : nat → list Book → Async unit) (i : nat) :
  (length xs ≤ i)%nat → for_batches fuel xs size body i = ret tt.
Proof.
  intros H. destruct fuel; simpl; by destruct (Nat.ltb_spec i (length xs)); [lia |].
Qed.

Lemma length_slice (xs : list Book) (i j : nat) :
  length (slice xs i j) = ((j - i) `min` (length xs - i))%nat.
Proof. unfold slice. by rewrite length_take, length_drop. Qed.

(** One iteration of the loop over the new records that goes well. *)
Lemma hydrate_step (appService : option AppService) (total fuel i : nat)
    (nb : list Book) (w w' : World) :
  (i < length nb)%nat →
  for_batches (S fuel) nb batchSize (hydrate_batch appService total) i w
  = (Return tt, w') →
  ∃ w1 X t,
    length X = (batchSize `min` (length nb - i))%nat
    ∧ updatedLibrary w1 = updatedLibrary w ++ X
    ∧ Forall (λ e, is_report e = false) t
    ∧ trace w1
      = trace w ++ t
        ++ [SetLibrary (updatedLibrary w ++ X);
            SetSyncProgress
              (Qmin (inject_Z (Z.of_nat (i + batchSize))
                     / inject_Z (Z.of_nat total)) 1)]
    ∧ for_batches fuel nb batchSize (hydrate_batch appService total)
        (i + batchSize) w1 = (Return tt, w').
Proof.
  intros Hi H. rewrite for_batches_step in H by done.
  apply bind_inv in H as [([] & w1 & H1 & H) | [[_ [=]] | [_ [=]]]].
  apply hydrate_batch_run in H1 as (_ & _ & Hret).
  destruct Hret as (X & t & HX & Hu & _ & _ & Hf & Ht); [done |].
  exists w1, X, t. split.
  { rewrite <- (Forall2_length _ _ _ HX), length_slice. lia. }
  split; [done |]. split; [by apply service_not_report |]. done.
Qed.

Lemma published_progress_app (t1 t2 : list event) :
  published_progress (t1 ++ t2) = published_progress t1 ++ published_progress t2.
Proof. apply omap_app. Qed.

Lemma snapshot_sizes_app (t1 t2 : list event) :
  snapshot_sizes (t1 ++ t2) = snapshot_sizes t1 ++ snapshot_sizes t2.
Proof. apply omap_app. Qed.

Lemma published_progress_batch (l : list Book) (p : Q) :
  published_progress [SetLibrary l; SetSyncProgress p] = [p].
Proof. reflexivity. Qed.

Lemma published_progress_commit (l : list Book) (t : list event) :
  published_progress (SetLibrary l :: t) = published_progress t.
Proof. reflexivity. Qed.

Lemma snapshot_sizes_batch (l : list Book) (p : Q) :
  snapshot_sizes [SetLibrary l; SetSyncProgress p] = [length l].
Proof. reflexivity. Qed.

Lemma snapshot_sizes_commit (l : list Book) (t : list event) :
  snapshot_sizes (SetLibrary l :: t) = length l :: snapshot_sizes t.
Proof. reflexivity. Qed.

(** C2. A merge cycle with exactly 25 newly arrived records that runs to
    completion publishes the progress fractions 0.4, 0.8 and 1, in that
    order, and writes library snapshots that hold 10, 20 and 25 records more
    than the library it started from, one after each batch, followed by the
    final commit of the 25. *)
Theorem updateLibrary_progress (appService : option AppService) (synced : list Book)
    (w w' : World) :
  isSyncing (store w) = false →
  length (arrived (library (store w)) synced) = 25%nat →
  updateLibrary appService (Some synced) w = (Return tt, w') →
  ∃ t, trace w' = trace w ++ t
       ∧ Forall2 Qeq (published_progress t) [4 # 10; 8 # 10; 1]%Q
       ∧ snapshot_sizes t
         = [length (library (store w)) + 10; length (library (store w)) + 20;
            length (library (store w)) + 25; length (library (store w)) + 25]%nat.
Proof.
  intros Hsync Hlen Hrun.
  assert (synced ≠ []) as Hne by (intros ->; discriminate Hlen).
  apply updateLibrary_phases in Hrun
    as [[[=] _] | (merged & t4 & w4 & r5 & w5 & Hm & _ & _ & _ & Hu4 & Ht4 & Hf4
                   & Hloop & Hend)]; [| done | done].
  destruct r5 as [[] | |]; [| by destruct Hend | by destruct Hend].
  destruct Hend as (_ & _ & _ & _ & t6 & Ht6 & Hf6).
  rewrite Hlen in Hloop.
  apply hydrate_step in Hloop as (wa & Xa & ta & Hla & Hua & Hfa & Hta & Hloop);
    [| lia].
  apply hydrate_step in Hloop as (wb & Xb & tb & Hlb & Hub & Hfb & Htb & Hloop);
    [| unfold batchSize; lia].
  apply hydrate_step in Hloop as (wc & Xc & tc & Hlc & Huc & Hfc & Htc & Hloop);
    [| unfold batchSize; lia].
  rewrite for_batches_done in Hloop by (unfold batchSize; lia).
  injection Hloop as <-.
  rewrite Hlen in Hla, Hlb, Hlc. unfold batchSize in *. simpl in Hla, Hlb, Hlc.
  apply Forall2_length in Hm.
  eexists. split.
  { rewrite Ht6, Htc, Htb, Hta, Ht4, <- !app_assoc. reflexivity. }
  rewrite !published_progress_app, !snapshot_sizes_app.
  rewrite !(published_progress_silent _ Hf4), !(published_progress_silent _ Hfa),
    !(published_progress_silent _ Hfb), !(published_progress_silent _ Hfc).
  rewrite !(snapshot_sizes_silent _ Hf4), !(snapshot_sizes_silent _ Hfa),
    !(snapshot_sizes_silent _ Hfb), !(snapshot_sizes_silent _ Hfc).
  rewrite !published_progress_batch, !snapshot_sizes_batch,
    published_progress_commit, snapshot_sizes_commit.
  rewrite (published_progress_silent _ Hf6), (snapshot_sizes_silent _ Hf6).
  split.
  - repeat constructor; reflexivity.
  - rewrite Huc, Hub, Hua, Hu4, !length_app, Hla, Hlb, Hlc, <- Hm.
    cbn [app]. repeat (f_equal; try lia).
Qed.

Lemma updateLibrary_progress_witness :
  ∃ t, trace (updateLibrary (Some Sample.covers_ok) (Some Sample.arrivals)
                (Sample.world_of [Sample.local1])).2
       = trace (Sample.world_of [Sample.local1]) ++ t
       ∧ Forall2 Qeq (published_progress t) [4 # 10; 8 # 10; 1]%Q
       ∧ snapshot_sizes t
         = [length (library (store (Sample.world_of [Sample.local1]))) + 10;
            length (library (store (Sample.world_of [Sample.local1]))) + 20;
            length (library (store (Sample.world_of [Sample.local1]))) + 25;
            length (library (store (Sample.world_of [Sample.local1]))) + 25]%nat.
Proof.
  apply (updateLibrary_progress (Some Sample.covers_ok) Sample.arrivals
           (Sample.world_of [Sample.local1])).
  - reflexivity.
  - vm_compute. reflexivity.
  - vm_compute. reflexivity.
Defined.

(** ** The syncing flag *)

(** C5 fails on the code. With one newly arrived record and a cover service
    that rejects the batch, the cycle raises the flag, throws, and leaves the
    flag raised: nothing between [setIsSyncing(true)] and
    [setIsSyncing(false)] catches the rejection. *)
Theorem updateLibrary_leaves_flag_raised :
  updateLibrary (Some Sample.covers_down) (Some [Sample.fresh5]) (Sample.world_of [])
  = (Throw,
     {| store := {| library := []; isSyncing := true; syncProgress := 0%Q |};
        isPullingRef := false;
        updatedLibrary := [];
        trace := [SetIsSyncing true; DownloadBookCovers [Sample.fresh5]] |}).
Proof. vm_compute. reflexivity. Qed.

(** The flag being raised, the next cycle is skipped, whatever it is given. *)
Lemma updateLibrary_then_skipped (appService : option AppService)
    (synced : option (list Book)) :
  updateLibrary appService synced
    (updateLibrary (Some Sample.covers_down) (Some [Sample.fresh5]) (Sample.world_of [])).2
  = (Return tt,
     (updateLibrary (Some Sample.covers_down) (Some [Sample.fresh5]) (Sample.world_of [])).2).
Proof. apply updateLibrary_busy. vm_compute. reflexivity. Qed.

(** In general: a cycle that throws has either not touched the store, or
    exits with the flag raised. *)
Lemma updateLibrary_throw_flag (appService : option AppService) (synced : list Book)
    (w w' : World) :
  isSyncing (store w) = false →
  updateLibrary appService (Some synced) w = (Throw, w') →
  quiet w w' ∨ isSyncing (store w') = true.
Proof.
  intros Hsync Hrun.
  assert (synced ≠ []) as Hne.
  { intros ->. rewrite updateLibrary_nothing in Hrun; [done | by right]. }
  apply updateLibrary_phases in Hrun
    as [[_ Hq] | (merged & t4 & w4 & r5 & w5 & _ & _ & Hs4 & _ & Hu4 & _ & _
                  & Hloop & Hend)]; [by left | | done | done].
  right. destruct r5 as [[] | |]; [by destruct Hend | | by destruct Hend].
  destruct Hend as [_ ->].
  destruct (Nat.ltb_spec 0 (length (arrived (library (store w)) synced)))
    as [Hlt | Hge].
  - eapply hydrate_loop_run with (X0 := []) in Hloop as (_ & Hs5 & _);
      [congruence | lia | by rewrite app_nil_r | rewrite take_0; constructor].
  - rewrite for_batches_done in Hloop by lia. discriminate Hloop.
Qed.

(** ** Merging the same batch again *)

Lemma filter_nil (p : Book → bool) (l : list Book) :
  (∀ x, x ∈ l → p x = false) → List.filter p l = [].
Proof.
  induction l as [| x l IH]; intros H; simpl; [done |].
  rewrite (H x) by left. apply IH. intros y Hy. apply H. by right.
Qed.



Lemma updatedAt_assign_cover (n : Book) (url : value) :
  updatedAt (assign n "coverImageUrl" url) = updatedAt n.
Proof. unfold updatedAt, assign. by rewrite lookup_insert_ne. Qed.

Lemma updatedAt_maybe_hydrated (n b : Book) : maybe_hydrated n b → updatedAt b = updatedAt n.
Proof. intros [-> | [url ->]]; [done | apply updatedAt_assign_cover]. Qed.

Lemma has_updatedAt_maybe_hydrated (n b : Book) :
  maybe_hydrated n b → has_updatedAt n → has_updatedAt b.
Proof.
  intros [-> | [url ->]]; [done |]. unfold has_updatedAt, assign.
  by rewrite lookup_insert_ne.
Qed.

Lemma lookup_maybe_hydrated (n b : Book) (k : string) :
  maybe_hydrated n b → k ≠ "coverImageUrl" → b !! k = n !! k.
Proof.
  intros [-> | [url ->]] Hk; [done |]. unfold assign. by rewrite lookup_insert_ne.
Qed.


Lemma updatedAt_spread (a b : Book) :
  has_updatedAt b → updatedAt (spread a b) = updatedAt b.
Proof. intros [n Hn]. unfold updatedAt. by rewrite lookup_spread, Hn. Qed.

Lemma updatedAt_mergedBook_ge (m l : Book) :
  has_updatedAt m → has_updatedAt l → updatedAt m ≤ updatedAt (mergedBook m l).
Proof.
  intros Hm Hl. unfold mergedBook.
  destruct (Z.gtb_spec (updatedAt m) (updatedAt l)); rewrite updatedAt_spread; lia || done.
Qed.

Lemma keys_mergedBook (m l : Book) (k : string) :
  is_Some (m !! k) → is_Some (mergedBook m l !! k).
Proof.
  intros [v Hv]. unfold mergedBook.
  destruct (updatedAt m >? updatedAt l); rewrite lookup_spread, ?Hv; [eauto |].
  destruct (l !! k); eauto.
Qed.

(** A record that is not older than its match comes out of the merge with
    every property it had, but for the cover write. *)
Lemma old_result_settled (syncedBooks : list Book) (r b : Book) (k : string) (v : value) :
  settled syncedBooks r → old_result syncedBooks r b →
  k ≠ "coverImageUrl" → r !! k = Some v → b !! k = Some v.
Proof.
  unfold settled, old_result. intros Hs Hres Hk Hv.
  destruct (matching syncedBooks r) as [m |]; [| by subst].
  destruct Hres as (r' & Hhyd & ->).
  rewrite mergedBook_not_newer, lookup_spread.
  - by rewrite (lookup_maybe_hydrated _ _ _ Hhyd Hk), Hv.
  - rewrite (updatedAt_maybe_hydrated _ _ Hhyd). by apply Hs.
Qed.












(** And when the batch holds a tombstone and a newer live record of one hash,
    the record appended by the first cycle takes the tombstone's [deletedAt]
    in the second. *)
Lemma updateLibrary_twice_gains_deletedAt :
  ∃ w1 w2 b1 b2,
    updateLibrary (Some Sample.covers_ok) (Some [Sample.fresh5; Sample.gone1])
      (Sample.world_of []) = (Return tt, w1)
    ∧ updateLibrary (Some Sample.covers_ok) (Some [Sample.fresh5; Sample.gone1]) w1
      = (Return tt, w2)
    ∧ library (store w1) = [b1]
    ∧ library (store w2) = [b2]
    ∧ b1 !! "deletedAt" = None
    ∧ b2 !! "deletedAt" = Some (VNum 1).
Proof.
  do 4 eexists.
  split; [vm_compute; reflexivity |].
  split; [vm_compute; reflexivity |].
  split; [reflexivity |]. split; [reflexivity |].
  split; vm_compute; reflexivity.
Qed.



(** ** A cycle served reliably completes *)

Lemma never_throws_ret {A} (a : A) : never_throws (ret a).
Proof. by intros w. Qed.

Lemma never_throws_bind {A B} (m : Async A) (k : A → Async B) :
  never_throws m → (∀ a, never_throws (k a)) → never_throws (m ≫= k).
Proof.
  intros Hm Hk w. unfold mbind, Async_bind, bind.
  specialize (Hm w). destruct (m w) as [[a | |] w1]; [apply Hk | done | done].
Qed.

Lemma never_throws_when (c : bool) (m : Async unit) :
  never_throws m → never_throws (when c m).
Proof. intros Hm. destruct c; [done | apply never_throws_ret]. Qed.

Lemma never_throws_for_batches (fuel : nat) (xs : list Book) (size : nat)
    (body : nat → list Book → Async unit) (i : nat) :
  (∀ j batch, never_throws (body j batch)) →
  never_throws (for_batches fuel xs size body i).
Proof.
  intros Hbody. revert i. induction fuel as [| fuel IH]; intros i; simpl;
    destruct (i <? length xs)%nat; try apply never_throws_ret; [done |].
  apply never_throws_bind; [apply Hbody | intros _; apply IH].
Qed.

Lemma never_throws_Promise_all {X A} (f : X → Async A) (xs : list X) :
  (∀ x, never_throws (f x)) → never_throws (Promise_all (f <$> xs)).
Proof.
  intros Hf. induction xs as [| x xs IH]; intros w; [done |].
  rewrite fmap_cons, Promise_all_cons. cbn [fst].
  specialize (Hf x w). specialize (IH (f x w).2).
  destruct (f x w).1, (Promise_all (f <$> xs) (f x w).2).1; done.
Qed.

Lemma never_throws_generateCoverImageUrl (appService : option AppService) (book : Book) :
  reliable appService → never_throws (call_generateCoverImageUrl appService book).
Proof.
  intros Hrel w. unfold call_generateCoverImageUrl.
  destruct appService as [svc |]; [| done].
  destruct (Hrel svc eq_refl) as [Hgen _]. destruct (Hgen book) as [url Hurl].
  unfold tell, mbind, Async_bind, bind. by rewrite Hurl.
Qed.

Lemma never_throws_downloadBookCovers (appService : option AppService) (batch : list Book) :
  reliable appService → never_throws (call_downloadBookCovers appService batch).
Proof.
  intros Hrel w. unfold call_downloadBookCovers.
  destruct appService as [svc |]; [| done].
  destruct (Hrel svc eq_refl) as [_ Hdl].
  unfold tell, mbind, Async_bind, bind. by rewrite Hdl.
Qed.

Lemma never_throws_processOldBook (appService : option AppService)
    (syncedBooks : list Book) (oldBook : Book) :
  reliable appService → never_throws (processOldBook appService syncedBooks oldBook).
Proof.
  intros Hrel. unfold processOldBook.
  destruct (List.find _ syncedBooks) as [m |]; [| apply never_throws_ret].
  apply never_throws_bind; [| intros; apply never_throws_ret].
  destruct (_ && _); [| apply never_throws_ret].
  apply never_throws_bind; [by apply never_throws_generateCoverImageUrl |].
  intros; apply never_throws_ret.
Qed.

Lemma never_throws_processNewBook (appService : option AppService) (newBook : Book) :
  reliable appService → never_throws (processNewBook appService newBook).
Proof.
  intros Hrel. unfold processNewBook.
  apply never_throws_bind; [by apply never_throws_generateCoverImageUrl | done].
Qed.

(** With a cover service whose calls all resolve, or with none, the merge
    cycle returns. *)
Lemma updateLibrary_returns (appService : option AppService)
    (synced : option (list Book)) (w : World) :
  reliable appService → (updateLibrary appService synced w).1 = Return tt.
Proof.
  intros Hrel.
  assert ((updateLibrary appService synced w).1 ≠ Throw) as Hnt.
  { unfold updateLibrary. destruct (isSyncing (store w)); [done |].
    destruct synced as [[| s0 ss] |]; [done | | done]. cbv zeta.
    apply never_throws_bind.
    { apply never_throws_for_batches. intros.
      by apply never_throws_downloadBookCovers. }
    intros _. apply never_throws_bind.
    { apply never_throws_Promise_all. intros. by apply never_throws_processOldBook. }
    intros merged. apply never_throws_bind; [done |].
    intros _. apply never_throws_bind; [by apply never_throws_when |].
    intros _. apply never_throws_bind.
    { apply never_throws_for_batches. intros j batch.
      apply never_throws_bind; [by apply never_throws_downloadBookCovers |].
      intros _. apply never_throws_bind.
      { apply never_throws_Promise_all. intros. by apply never_throws_processNewBook. }
      intros _. apply never_throws_bind; [done |].
      intros snapshot. apply never_throws_bind; done. }
    intros _. apply never_throws_bind; [done |].
    intros final. apply never_throws_bind; [done |].
    intros _. apply never_throws_bind.
    { unfold call_saveLibraryBooks. by destruct appService. }
    intros _. by apply never_throws_when. }
  pose proof (updateLibrary_settles appService synced w) as Hf.
  destruct (updateLibrary appService synced w).1 as [[] | |]; done.
Qed.

(** * Further properties of the hook *)

(** ** Traces *)

Lemma emits_ret {A} (P : event → Prop) (a : A) : emits P (ret a).
Proof. intros w. exists []. by rewrite app_nil_r. Qed.

Lemma emits_bind {A B} (P : event → Prop) (m : Async A) (k : A → Async B) :
  emits P m → (∀ a, emits P (k a)) → emits P (m ≫= k).
Proof.
  intros Hm Hk w. unfold mbind, Async_bind, bind.
  destruct (Hm w) as (t1 & Ht1 & Hf1).
  destruct (m w) as [[a | |] w1]; cbn [snd] in *; [| by exists t1 | by exists t1].
  destruct (Hk a w1) as (t2 & Ht2 & Hf2).
  exists (t1 ++ t2). split; [by rewrite Ht2, Ht1, app_assoc | by apply Forall_app].
Qed.

Lemma emits_tell (P : event → Prop) (e : event) : P e → emits P (tell e).
Proof. intros He w. exists [e]. split; [done | by constructor]. Qed.

Lemma emits_when (P : event → Prop) (c : bool) (m : Async unit) :
  emits P m → emits P (when c m).
Proof. intros Hm. destruct c; [done | apply emits_ret]. Qed.

Lemma emits_for_batches (P : event → Prop) (fuel : nat) (xs : list Book) (size : nat)
    (body : nat → list Book → Async unit) (i : nat) :
  (∀ j, (j < length xs)%nat → emits P (body j (slice xs j (j + size)))) →
  emits P (for_batches fuel xs size body i).
Proof.
  intros Hbody. revert i. induction fuel as [| fuel IH]; intros i; simpl;
    destruct (Nat.ltb_spec i (length xs)) as [Hlt | Hge]; try apply emits_ret.
  - intros w. exists []. by rewrite app_nil_r.
  - apply emits_bind; [by apply Hbody | intros _; apply IH].
Qed.

Lemma emits_Promise_all {X A} (P : event → Prop) (f : X → Async A) (xs : list X) :
  (∀ x, x ∈ xs → emits P (f x)) → emits P (Promise_all (f <$> xs)).
Proof.
  induction xs as [| x xs IH]; intros Hf w; [exists []; by rewrite app_nil_r |].
  rewrite fmap_cons, Promise_all_cons. cbn [snd].
  destruct (Hf x (list_elem_of_here _ _) w) as (t1 & Ht1 & Hf1).
  destruct (IH (λ y Hy, Hf y (list_elem_of_further _ _ _ Hy)) (f x w).2)
    as (t2 & Ht2 & Hf2).
  exists (t1 ++ t2). split; [by rewrite Ht2, Ht1, app_assoc | by apply Forall_app].
Qed.

Lemma emits_setLibrary (P : event → Prop) (l : list Book) :
  P (SetLibrary l) → emits P (setLibrary l).
Proof. intros He w. exists [SetLibrary l]. split; [done | by constructor]. Qed.

Lemma emits_setIsSyncing (P : event → Prop) (b : bool) :
  P (SetIsSyncing b) → emits P (setIsSyncing b).
Proof. intros He w. exists [SetIsSyncing b]. split; [done | by constructor]. Qed.

Lemma emits_setSyncProgress (P : event → Prop) (p : Q) :
  P (SetSyncProgress p) → emits P (setSyncProgress p).
Proof. intros He w. exists [SetSyncProgress p]. split; [done | by constructor]. Qed.

Lemma emits_silent {A} (P : event → Prop) (m : Async A) :
  (∀ w, trace (m w).2 = trace w) → emits P m.
Proof. intros H w. exists []. by rewrite app_nil_r. Qed.

Lemma emits_generateCoverImageUrl (P : event → Prop) (appService : option AppService)
    (book : Book) :
  (is_Some appService → P (GenerateCoverImageUrl book)) →
  emits P (call_generateCoverImageUrl appService book).
Proof.
  intros He. unfold call_generateCoverImageUrl.
  destruct appService as [svc |]; [| apply emits_ret].
  apply emits_bind; [apply emits_tell, He; eauto |]. intros _.
  destruct (generateCoverImageUrl svc book); [apply emits_ret | by apply emits_silent].
Qed.

Lemma emits_downloadBookCovers (P : event → Prop) (appService : option AppService)
    (batch : list Book) :
  (is_Some appService → P (DownloadBookCovers batch)) →
  emits P (call_downloadBookCovers appService batch).
Proof.
  intros He. unfold call_downloadBookCovers.
  destruct appService as [svc |]; [| apply emits_ret].
  apply emits_bind; [apply emits_tell, He; eauto |]. intros _.
  destruct (downloadBookCovers svc batch); [apply emits_ret | by apply emits_silent].
Qed.

Lemma emits_saveLibraryBooks (P : event → Prop) (appService : option AppService)
    (snapshot : list Book) :
  (is_Some appService → P (SaveLibraryBooks snapshot)) →
  emits P (call_saveLibraryBooks appService snapshot).
Proof.
  intros He. unfold call_saveLibraryBooks.
  destruct appService; [apply emits_tell, He; eauto | apply emits_ret].
Qed.

Lemma emits_processOldBook (P : event → Prop) (appService : option AppService)
    (syncedBooks : list Book) (oldBook : Book) :
  (∀ m, is_Some appService → matching syncedBooks oldBook = Some m →
        wants_cover m oldBook = true → P (GenerateCoverImageUrl oldBook)) →
  emits P (processOldBook appService syncedBooks oldBook).
Proof.
  intros He. unfold processOldBook. fold (matching syncedBooks oldBook).
  destruct (matching syncedBooks oldBook) as [m |]; [| apply emits_ret].
  apply emits_bind; [| intros; apply emits_ret].
  fold (wants_cover m oldBook).
  destruct (wants_cover m oldBook) eqn:Hw; [| apply emits_ret].
  apply emits_bind; [| intros; apply emits_ret].
  apply emits_generateCoverImageUrl. intros Hsvc. by apply (He m).
Qed.

Lemma emits_processNewBook (P : event → Prop) (appService : option AppService)
    (newBook : Book) :
  (is_Some appService → P (GenerateCoverImageUrl newBook)) →
  emits P (processNewBook appService newBook).
Proof.
  intros He. unfold processNewBook.
  apply emits_bind; [by apply emits_generateCoverImageUrl |].
  intros url. by apply emits_silent.
Qed.

Lemma slice_elem (xs : list Book) (i j : nat) (x : Book) :
  x ∈ slice xs i j → x ∈ xs.
Proof.
  unfold slice. intros H.
  eapply elem_of_sublist; [| apply sublist_drop].
  eapply elem_of_sublist; [exact H | apply sublist_take].
Qed.

Lemma progress_at_range (total i : nat) :
  (0 < total)%nat → (0 < progress_at total i)%Q ∧ (progress_at total i <= 1)%Q.
Proof.
  intros Ht. unfold progress_at. split; [| apply Q.le_min_r].
  apply Q.min_glb_lt; [| reflexivity].
  apply Qlt_shift_div_l.
  - change 0%Q with (inject_Z 0). rewrite <- Zlt_Qlt. lia.
  - rewrite Qmult_0_l. change 0%Q with (inject_Z 0). rewrite <- Zlt_Qlt.
    unfold batchSize. lia.
Qed.

(** Whatever a merge cycle does, the events it adds to the trace are of
    these kinds: with a cover service, cover downloads for non-empty batches
    of at most twenty records, all uploaded and none deleted, cover
    generations for records of the library whose match asks for one and for
    uploaded, not deleted records of the batch, and a save; writes to the
    store, with progress fractions in (0, 1]. *)
Lemma updateLibrary_emits (P : event → Prop) (appService : option AppService)
    (synced : option (list Book)) (w : World) :
  (∀ batch, is_Some appService → batch ≠ [] →
            (length batch ≤ oldBooksBatchSize)%nat →
            Forall (λ x, truthy (deletedAt x) = false ∧ truthy (uploadedAt x) = true)
              batch →
            P (DownloadBookCovers batch)) →
  (∀ book batch m, is_Some appService → synced = Some batch →
                   book ∈ library (store w) →
                   matching (Array_sort byUpdatedAt batch) book = Some m →
                   wants_cover m book = true →
                   P (GenerateCoverImageUrl book)) →
  (∀ book batch, is_Some appService → synced = Some batch → book ∈ batch →
                 truthy (uploadedAt book) = true → truthy (deletedAt book) = false →
                 P (GenerateCoverImageUrl book)) →
  (∀ l, is_Some appService → P (SaveLibraryBooks l)) →
  (∀ l, P (SetLibrary l)) →
  (∀ b, P (SetIsSyncing b)) →
  (∀ p, (0 < p)%Q → (p <= 1)%Q → P (SetSyncProgress p)) →
  ∃ t, trace (updateLibrary appService synced w).2 = trace w ++ t ∧ Forall P t.
Proof.
  intros Hdl Hold Hnew Hsave Hlib Hflag Hprog. unfold updateLibrary.
  destruct (isSyncing (store w)); [by apply emits_ret |].
  destruct synced as [[| s0 ss] |]; [by apply emits_ret | | by apply emits_ret].
  change (λ a b : Book, updatedAt a - updatedAt b) with byUpdatedAt.
  set (S := Array_sort byUpdatedAt (s0 :: ss)). cbv zeta.
  assert (∀ (xs : list Book) (size j : nat),
            is_Some appService →
            (0 < size ≤ oldBooksBatchSize)%nat →
            Forall (λ x, truthy (deletedAt x) = false ∧ truthy (uploadedAt x) = true) xs →
            (j < length xs)%nat →
            P (DownloadBookCovers (slice xs j (j + size)))) as Hslice.
  { intros xs size j Hsvc Hsize Hxs Hj. apply Hdl; [done | | |].
    - intros E. apply (f_equal length) in E. rewrite length_slice in E. simpl in E. lia.
    - rewrite length_slice. lia.
    - apply Forall_forall. intros x Hx. rewrite Forall_forall in Hxs.
      apply Hxs. by eapply slice_elem. }
  match goal with
  | |- ∃ t, trace (?m w).2 = _ ∧ _ => enough (emits P m) as H by apply H
  end.
  apply emits_bind.
  { apply emits_for_batches. intros j Hj. apply emits_downloadBookCovers. intros Hsvc.
    apply Hslice; [done | unfold oldBooksBatchSize; lia | | done].
    apply Forall_forall. intros x Hx. apply list_elem_of_In, filter_In in Hx as [_ Hx].
    apply andb_prop in Hx as [Hx _]. apply andb_prop in Hx as [Hd Hu].
    by apply negb_true_iff in Hd. }
  intros _. apply emits_bind.
  { apply emits_Promise_all. intros x Hx. apply emits_processOldBook.
    intros m Hsvc Hm Hw. by apply (Hold x (s0 :: ss) m). }
  intros merged. apply emits_bind; [by apply emits_silent |].
  intros _. apply emits_bind; [by apply emits_when, emits_setIsSyncing |].
  intros _. apply emits_bind.
  { apply emits_for_batches. intros j Hj.
    apply emits_bind.
    { apply emits_downloadBookCovers. intros Hsvc.
      apply Hslice; [done | unfold batchSize, oldBooksBatchSize; lia | | done].
      apply Forall_forall. intros x Hx.
      apply list_elem_of_In, filter_In in Hx as [_ Hx].
      apply andb_prop in Hx as [Hx Hd]. apply andb_prop in Hx as [_ Hu].
      by apply negb_true_iff in Hd. }
    intros _. apply emits_bind.
    { apply emits_Promise_all. intros x Hx. apply emits_processNewBook. intros Hsvc.
      apply slice_elem, list_elem_of_In, filter_In in Hx as [Hin Hx].
      apply andb_prop in Hx as [Hx Hd]. apply andb_prop in Hx as [_ Hu].
      apply negb_true_iff in Hd.
      apply (Hnew x (s0 :: ss)); try done.
      by apply list_elem_of_In, Array_sort_elem in Hin. }
    intros _. apply emits_bind; [by apply emits_silent |].
    intros snapshot. apply emits_bind; [by apply emits_setLibrary |].
    intros _. apply emits_setSyncProgress.
    apply (Hprog (progress_at _ j)); apply progress_at_range; lia. }
  intros _. apply emits_bind; [by apply emits_silent |].
  intros final. apply emits_bind; [by apply emits_setLibrary |].
  intros _. apply emits_bind; [apply emits_saveLibraryBooks; auto |].
  intros _. by apply emits_when, emits_setIsSyncing.
Qed.

(** ** The merge cycle, to the letter *)

Lemma call_generateCoverImageUrl_value (appService : option AppService) (book : Book)
    (w w' : World) (url : value) :
  call_generateCoverImageUrl appService book w = (Return url, w') →
  cover_of appService book = Some url.
Proof.
  unfold call_generateCoverImageUrl, cover_of. destruct appService as [svc |].
  - unfold tell, mbind, Async_bind, bind.
    destruct (generateCoverImageUrl svc book); [| done]. by intros [= -> _].
  - by intros [= -> _].
Qed.

Lemma processOldBook_exact (appService : option AppService) (syncedBooks : list Book)
    (oldBook : Book) (w w' : World) (r : result Book) :
  processOldBook appService syncedBooks oldBook w = (r, w') →
  quiet w w' ∧ r ≠ OutOfFuel
  ∧ ∀ b, r = Return b → old_exact appService syncedBooks oldBook b.
Proof.
  intros H. pose proof (processOldBook_run _ _ _ _ _ _ H) as (Hq & Hr & _).
  split; [done |]. split; [done |]. intros b ->. revert H.
  unfold processOldBook, old_exact. fold (matching syncedBooks oldBook).
  destruct (matching syncedBooks oldBook) as [m |]; [| by intros [= <- _]].
  fold (wants_cover m oldBook). destruct (wants_cover m oldBook).
  - intros H.
    apply bind_inv in H as [(a & w1 & H1 & H2) | [[_ [=]] | [_ [=]]]].
    apply bind_inv in H1 as [(url & w0 & H0 & H1) | [[_ [=]] | [_ [=]]]].
    apply call_generateCoverImageUrl_value in H0.
    injection H1 as <- <-. injection H2 as <- _. eauto.
  - by intros [= <- _].
Qed.

(** ** The merge of a matched pair, as [processOldBook] performs it *)

Lemma processOldBook_matched (appService : option AppService) (syncedBooks : list Book)
    (oldBook matchingBook : Book) (w : World) :
  matching syncedBooks oldBook = Some matchingBook →
  (processOldBook appService syncedBooks oldBook w).1
  = match with_cover appService matchingBook oldBook with
    | Some local => Return (mergedBook matchingBook local)
    | None => Throw
    end.
Proof.
  intros Hm. unfold processOldBook, with_cover, wants_cover. unfold matching in Hm.
  rewrite Hm.
  destruct (negb (truthy (deletedAt matchingBook)) && truthy (uploadedAt matchingBook)
            && negb (truthy (coverDownloadedAt oldBook))); [| reflexivity].
  destruct appService as [svc |]; [| reflexivity].
  cbn [cover_of fmap option_fmap option_map].
  unfold call_generateCoverImageUrl, mbind, Async_bind, bind, tell.
  by destruct (generateCoverImageUrl svc oldBook).
Qed.

(** C1, as the code has it. [processOldBook] merges a matched pair after its
    cover write: where the synced record is uploaded and not deleted and the
    local record has no [coverDownloadedAt], the local record's
    [coverImageUrl] is first set to what the cover service generates (and the
    merge is not reached when the service rejects). The local record so
    updated, equal to the local record in every other property and unchanged
    when no cover is due, is then merged as claimed: when the synced record's
    [updatedAt] is strictly greater, the result is the local record overlaid
    with the synced one; otherwise, ties included, the synced record
    overlaid with the local one. *)
Theorem processOldBook_overlay (appService : option AppService) (syncedBooks : list Book)
    (oldBook matchingBook : Book) (w : World) :
  matching syncedBooks oldBook = Some matchingBook →
  hash matchingBook = hash oldBook
  ∧ match with_cover appService matchingBook oldBook with
    | None => (processOldBook appService syncedBooks oldBook w).1 = Throw
    | Some local =>
        (∀ k, k ≠ "coverImageUrl" → local !! k = oldBook !! k)
        ∧ (wants_cover matchingBook oldBook = false → local = oldBook)
        ∧ (wants_cover matchingBook oldBook = true →
           ∃ url, cover_of appService oldBook = Some url
                  ∧ local !! "coverImageUrl" = Some url)
        ∧ (updatedAt matchingBook > updatedAt oldBook →
           (processOldBook appService syncedBooks oldBook w).1
           = Return (spread local matchingBook)
           ∧ ∀ k, spread local matchingBook !! k
                  = match matchingBook !! k with
                    | Some v => Some v
                    | None => local !! k
                    end)
        ∧ (updatedAt matchingBook ≤ updatedAt oldBook →
           (processOldBook appService syncedBooks oldBook w).1
           = Return (spread matchingBook local)
           ∧ ∀ k, spread matchingBook local !! k
                  = match local !! k with
                    | Some v => Some v
                    | None => matchingBook !! k
                    end)
    end.
Proof.
  intros Hm. split; [by apply matching_Some in Hm as [_ ?] |].
  rewrite (processOldBook_matched _ _ _ _ w Hm).
  destruct (with_cover appService matchingBook oldBook) as [local |] eqn:Hc; [| done].
  assert (updatedAt local = updatedAt oldBook
          ∧ (∀ k, k ≠ "coverImageUrl" → local !! k = oldBook !! k)
          ∧ (wants_cover matchingBook oldBook = false → local = oldBook)
          ∧ (wants_cover matchingBook oldBook = true →
             ∃ url, cover_of appService oldBook = Some url
                    ∧ local !! "coverImageUrl" = Some url))
    as (Hu & Hk & Hn & Hy).
  { unfold with_cover in Hc. destruct (wants_cover matchingBook oldBook).
    - destruct (cover_of appService oldBook) as [url |]; [| done].
      injection Hc as <-. split; [apply updatedAt_assign_cover |].
      split; [intros k Hne; unfold assign; by rewrite lookup_insert_ne |].
      split; [done |]. intros _. exists url. split; [done |].
      unfold assign. by rewrite lookup_insert.
    - injection Hc as <-. split; [done |]. split; [done |]. split; [done |]. done. }
  split; [done |]. split; [done |]. split; [done |].
  split; intros H.
  - rewrite mergedBook_newer by lia. split; [done | apply lookup_spread].
  - rewrite mergedBook_not_newer by lia. split; [done | apply lookup_spread].
Qed.

Lemma processOldBook_overlay_witness :
  hash Sample.uploaded5 = hash Sample.local_cover
  ∧ match with_cover (Some Sample.covers_ok) Sample.uploaded5 Sample.local_cover with
    | None =>
        (processOldBook (Some Sample.covers_ok) [Sample.uploaded5]
           Sample.local_cover (Sample.world_of [Sample.local_cover])).1 = Throw
    | Some local =>
        (∀ k, k ≠ "coverImageUrl" → local !! k = Sample.local_cover !! k)
        ∧ (wants_cover Sample.uploaded5 Sample.local_cover = false →
           local = Sample.local_cover)
        ∧ (wants_cover Sample.uploaded5 Sample.local_cover = true →
           ∃ url, cover_of (Some Sample.covers_ok) Sample.local_cover = Some url
                  ∧ local !! "coverImageUrl" = Some url)
        ∧ (updatedAt Sample.uploaded5 > updatedAt Sample.local_cover →
           (processOldBook (Some Sample.covers_ok) [Sample.uploaded5]
              Sample.local_cover (Sample.world_of [Sample.local_cover])).1
           = Return (spread local Sample.uploaded5)
           ∧ ∀ k, spread local Sample.uploaded5 !! k
                  = match Sample.uploaded5 !! k with
                    | Some v => Some v
                    | None => local !! k
                    end)
        ∧ (updatedAt Sample.uploaded5 ≤ updatedAt Sample.local_cover →
           (processOldBook (Some Sample.covers_ok) [Sample.uploaded5]
              Sample.local_cover (Sample.world_of [Sample.local_cover])).1
           = Return (spread Sample.uploaded5 local)
           ∧ ∀ k, spread Sample.uploaded5 local !! k
                  = match local !! k with
                    | Some v => Some v
                    | None => Sample.uploaded5 !! k
                    end)
    end.
Proof.
  apply (processOldBook_overlay (Some Sample.covers_ok) [Sample.uploaded5]
           Sample.local_cover Sample.uploaded5 (Sample.world_of [Sample.local_cover])).
  vm_compute. reflexivity.
Defined.

(** The claim fails where a cover is due. The local record has a
    [coverImageUrl] and the newer synced record of its hash has none, so the
    claimed result keeps the local value; [processOldBook] stores the cover
    just generated instead, and so does the merge cycle. *)
Lemma processOldBook_rewrites_cover :
  hash Sample.uploaded5 = hash Sample.local_cover
  ∧ updatedAt Sample.uploaded5 > updatedAt Sample.local_cover
  ∧ Sample.uploaded5 !! "coverImageUrl" = None
  ∧ Sample.local_cover !! "coverImageUrl" = Some (VStr "old-cover")
  ∧ spread Sample.local_cover Sample.uploaded5 !! "coverImageUrl"
    = Some (VStr "old-cover")
  ∧ (processOldBook (Some Sample.covers_ok) [Sample.uploaded5] Sample.local_cover
       (Sample.world_of [Sample.local_cover])).1
    = Return (assign (spread Sample.local_cover Sample.uploaded5)
                "coverImageUrl" (VStr "blob:cover"))
  ∧ (updateLibrary (Some Sample.covers_ok) (Some [Sample.uploaded5])
       (Sample.world_of [Sample.local_cover])).1 = Return tt
  ∧ library (store (updateLibrary (Some Sample.covers_ok) (Some [Sample.uploaded5])
                      (Sample.world_of [Sample.local_cover])).2)
    = [assign (spread Sample.local_cover Sample.uploaded5)
         "coverImageUrl" (VStr "blob:cover")]
  ∧ assign (spread Sample.local_cover Sample.uploaded5)
      "coverImageUrl" (VStr "blob:cover") !! "coverImageUrl"
    = Some (VStr "blob:cover").
Proof.
  repeat split; vm_compute; reflexivity.
Qed.

Lemma merge_old_exact (appService : option AppService) (syncedBooks lib : list Book)
    (w w' : World) (r : result (list Book)) :
  Promise_all (processOldBook appService syncedBooks <$> lib) w = (r, w') →
  quiet w w' ∧ r ≠ OutOfFuel
  ∧ ∀ merged, r = Return merged → Forall2 (old_exact appService syncedBooks) lib merged.
Proof.
  apply (Promise_all_map _ quiet (old_exact appService syncedBooks)).
  - apply quiet_refl.
  - apply quiet_trans.
  - intros x w0 r0 w0'. apply processOldBook_exact.
Qed.

Lemma old_exact_result (appService : option AppService) (syncedBooks : list Book)
    (oldBook b : Book) :
  old_exact appService syncedBooks oldBook b → old_result syncedBooks oldBook b.
Proof.
  unfold old_exact, old_result. destruct (matching syncedBooks oldBook) as [m |]; [| done].
  destruct (wants_cover m oldBook).
  - intros (url & _ & ->). eexists. split; [right; by eexists | done].
  - intros ->. eexists. split; [by left | done].
Qed.

Lemma processNewBook_exact (appService : option AppService) (newBook : Book)
    (w w' : World) :
  processNewBook appService newBook w = (Return tt, w') →
  ∃ b, hydrated_by appService newBook b
       ∧ updatedLibrary w' = updatedLibrary w ++ [b].
Proof.
  unfold processNewBook. intros H.
  apply bind_inv in H as [(url & w1 & H1 & H2) | [[_ [=]] | [_ [=]]]].
  pose proof (call_generateCoverImageUrl_quiet _ _ _ _ _ H1) as [[_ Hu] _].
  apply call_generateCoverImageUrl_value in H1.
  injection H2 as <-. eexists. split; [by eexists |]. simpl. by rewrite Hu.
Qed.

Lemma hydrate_all_exact (appService : option AppService) (batch : list Book)
    (w w' : World) (l : list unit) :
  Promise_all (processNewBook appService <$> batch) w = (Return l, w') →
  ∃ X, Forall2 (hydrated_by appService) batch X
       ∧ updatedLibrary w' = updatedLibrary w ++ X.
Proof.
  revert w l w'. induction batch as [| n batch IH]; intros w l w'.
  - simpl. unfold ret. intros [= _ <-]. exists []. split; [constructor |].
    by rewrite app_nil_r.
  - rewrite fmap_cons, Promise_all_cons.
    destruct (processNewBook appService n w) as [r1 w1] eqn:E1. cbn [fst snd].
    destruct (Promise_all (processNewBook appService <$> batch) w1)
      as [rs w2] eqn:E2. cbn [fst snd].
    destruct r1 as [[] | |], rs as [l' | |]; try done. intros [= _ <-].
    apply processNewBook_exact in E1 as (b & Hb & Hu1).
    apply IH in E2 as (X & HX & Hu2).
    exists (b :: X). split; [by constructor |]. by rewrite Hu2, Hu1, <- app_assoc.
Qed.

Lemma hydrate_batch_exact (appService : option AppService) (total i : nat)
    (batch : list Book) (w w' : World) :
  hydrate_batch appService total i batch w = (Return tt, w') →
  ∃ X, Forall2 (hydrated_by appService) batch X
       ∧ updatedLibrary w' = updatedLibrary w ++ X.
Proof.
  unfold hydrate_batch. intros H.
  apply bind_inv in H as [(a & w1 & H1 & H) | [[_ [=]] | [_ [=]]]].
  apply call_downloadBookCovers_quiet in H1 as [[_ Hu1] _].
  apply bind_inv in H as [(l & w2 & H2 & H) | [[_ [=]] | [_ [=]]]].
  apply hydrate_all_exact in H2 as (X & HX & Hu2).
  unfold get_updatedLibrary, setLibrary, setSyncProgress, mbind, Async_bind, bind in H.
  injection H as <-. exists X. split; [done |]. cbn. by rewrite Hu2, Hu1.
Qed.

Lemma batch_starts_done (n i : nat) : (n ≤ i)%nat → batch_starts n i = [].
Proof.
  intros H. unfold batch_starts, batchSize.
  replace (n - i + (10 - 1))%nat with 9%nat by lia. reflexivity.
Qed.

Lemma batch_starts_step (n i : nat) :
  (i < n)%nat → batch_starts n i = i :: batch_starts n (i + batchSize).
Proof.
  intros H. unfold batch_starts, batchSize.
  assert ((n - i + (10 - 1)) / 10 = S ((n - (i + 10) + (10 - 1)) / 10))%nat as ->.
  { destruct (Nat.le_gt_cases (i + 10) n) as [Hle | Hgt].
    - replace (n - i + (10 - 1))%nat with ((n - (i + 10) + (10 - 1)) + 1 * 10)%nat by lia.
      rewrite Nat.div_add by lia. lia.
    - replace (n - (i + 10) + (10 - 1))%nat with 9%nat by lia.
      change (9 / 10)%nat with 0%nat.
      symmetry. apply (Nat.div_unique _ 10 1 (n - i - 1)); lia. }
  cbn [seq fmap list_fmap]. f_equal; [lia |].
  rewrite <- fmap_S_seq, <- list_fmap_compose.
  apply list_fmap_ext. intros _ k _. simpl. lia.
Qed.

(** A run of the loop over the new records that goes well: the records
    appended, and what is reported to the interface on the way. *)
Lemma hydrate_loop_completed (appService : option AppService) (total : nat)
    (nb : list Book) (fuel i : nat) (w w' : World) :
  for_batches fuel nb batchSize (hydrate_batch appService total) i w = (Return tt, w') →
  ∃ X t,
    Forall2 (hydrated_by appService) (drop i nb) X
    ∧ updatedLibrary w' = updatedLibrary w ++ X
    ∧ trace w' = trace w ++ t
    ∧ published_progress t = progress_at total <$> batch_starts (length nb) i
    ∧ snapshot_sizes t
      = (λ j, length (updatedLibrary w) + ((j + batchSize) `min` length nb - i))%nat
        <$> batch_starts (length nb) i.
Proof.
  revert i w. induction fuel as [| fuel IH]; intros i w; simpl;
    destruct (Nat.ltb_spec i (length nb)) as [Hlt | Hge]; try done.
  - unfold ret. intros [= <-]. exists [], [].
    rewrite drop_ge, batch_starts_done, !app_nil_r by done. repeat split. constructor.
  - intros H. apply bind_inv in H as [([] & w1 & H1 & H) | [[_ [=]] | [_ [=]]]].
    pose proof (hydrate_batch_exact _ _ _ _ _ _ H1) as (X1 & HX1 & Hu1).
    apply hydrate_batch_run in H1 as (_ & _ & Hret).
    destruct Hret as (X1' & t1 & HX1' & Hu1' & _ & _ & Hf1 & Ht1); [done |].
    rewrite Hu1 in Hu1'. apply app_inv_head in Hu1' as <-.
    apply IH in H as (X2 & t2 & HX2 & Hu2 & Ht2 & Hp2 & Hs2).
    exists (X1 ++ X2), (t1 ++ [SetLibrary (updatedLibrary w ++ X1);
                              SetSyncProgress (progress_at total i)] ++ t2).
    split.
    { rewrite <- (take_drop batchSize (drop i nb)), drop_drop.
      apply Forall2_app; [| done]. unfold slice in HX1.
      by replace (i + batchSize - i)%nat with batchSize in HX1 by lia. }
    split; [by rewrite Hu2, Hu1, <- app_assoc |].
    split; [by rewrite Ht2, Ht1, <- !app_assoc |].
    rewrite batch_starts_step by done. rewrite !fmap_cons.
    rewrite !published_progress_app, !snapshot_sizes_app,
      published_progress_batch, snapshot_sizes_batch,
      (published_progress_silent t1), (snapshot_sizes_silent t1)
      by (by apply service_not_report).
    rewrite Hp2, Hs2. cbn [app]. split; [done |]. f_equal.
    + rewrite length_app. apply Forall2_length in HX1.
      rewrite <- HX1, length_slice. lia.
    + apply list_fmap_ext. intros idx j Hj. rewrite Hu1, length_app.
      apply Forall2_length in HX1. rewrite <- HX1, length_slice.
      apply list_elem_of_lookup_2, list_elem_of_fmap in Hj as (k & -> & _).
      unfold batchSize. lia.
  - unfold ret. intros [= <-]. exists [], [].
    rewrite drop_ge, batch_starts_done, !app_nil_r by done. repeat split. constructor.
Qed.

Lemma hydrate_loop_emits (P : event → Prop) (appService : option AppService)
    (total : nat) (nb : list Book) (fuel i : nat) :
  (∀ batch, P (DownloadBookCovers batch)) →
  (∀ book, P (GenerateCoverImageUrl book)) →
  (∀ l, P (SetLibrary l)) →
  (∀ p, P (SetSyncProgress p)) →
  emits P (for_batches fuel nb batchSize (hydrate_batch appService total) i).
Proof.
  intros Hdl Hgen Hlib Hprog. apply emits_for_batches. intros j Hj.
  unfold hydrate_batch.
  apply emits_bind; [by apply emits_downloadBookCovers |].
  intros _. apply emits_bind.
  { apply emits_Promise_all. intros. by apply emits_processNewBook. }
  intros _. apply emits_bind; [by apply emits_silent |].
  intros snapshot. apply emits_bind; [by apply emits_setLibrary |].
  intros _. by apply emits_setSyncProgress.
Qed.

Lemma flag_events_none (t : list event) :
  Forall (λ e, match e with SetIsSyncing _ => False | _ => True end) t →
  flag_events t = [].
Proof.
  unfold flag_events. induction 1 as [| e t He _ IH]; [done |].
  destruct e; try done; exact IH.
Qed.

Lemma saved_snapshots_none (t : list event) :
  Forall (λ e, match e with SaveLibraryBooks _ => False | _ => True end) t →
  saved_snapshots t = [].
Proof.
  unfold saved_snapshots. induction 1 as [| e t He _ IH]; [done |].
  destruct e; try done; exact IH.
Qed.

Lemma flag_events_app (t1 t2 : list event) :
  flag_events (t1 ++ t2) = flag_events t1 ++ flag_events t2.
Proof. apply omap_app. Qed.

Lemma saved_snapshots_app (t1 t2 : list event) :
  saved_snapshots (t1 ++ t2) = saved_snapshots t1 ++ saved_snapshots t2.
Proof. apply omap_app. Qed.

Lemma download_loop_cover_calls (appService : option AppService) (xs : list Book)
    (fuel i : nat) (w w' : World) (r : result unit) :
  for_batches fuel xs oldBooksBatchSize
    (λ _ batch, call_downloadBookCovers appService batch) i w = (r, w') →
  ∃ t, trace w' = trace w ++ t ∧ Forall (λ e, is_cover_call e = true) t.
Proof.
  intros H.
  assert (emits (λ e, is_cover_call e = true)
            (for_batches fuel xs oldBooksBatchSize
               (λ _ batch, call_downloadBookCovers appService batch) i)) as He.
  { apply emits_for_batches. intros. by apply emits_downloadBookCovers. }
  specialize (He w). by rewrite H in He.
Qed.

Lemma merge_old_cover_calls (appService : option AppService) (syncedBooks lib : list Book)
    (w w' : World) (r : result (list Book)) :
  Promise_all (processOldBook appService syncedBooks <$> lib) w = (r, w') →
  ∃ t, trace w' = trace w ++ t ∧ Forall (λ e, is_cover_call e = true) t.
Proof.
  intros H.
  assert (emits (λ e, is_cover_call e = true)
            (Promise_all (processOldBook appService syncedBooks <$> lib))) as He.
  { apply emits_Promise_all. intros. by apply emits_processOldBook. }
  specialize (He w). by rewrite H in He.
Qed.

(** A completed cycle, phase by phase: service calls for the records already
    in the library; the flag raised if there are arrivals; the loop over the
    arrivals; the commit, the save and the flag lowered. *)
Lemma updateLibrary_completed (appService : option AppService) (synced : list Book)
    (w w' : World) :
  isSyncing (store w) = false →
  synced ≠ [] →
  updateLibrary appService (Some synced) w = (Return tt, w') →
  ∃ merged X t2 tloop,
    Forall2 (old_exact appService (Array_sort byUpdatedAt synced))
      (library (store w)) merged
    ∧ Forall2 (hydrated_by appService) (arrived (library (store w)) synced) X
    ∧ library (store w') = merged ++ X
    ∧ isSyncing (store w') = false
    ∧ Forall (λ e, is_cover_call e = true) t2
    ∧ Forall (λ e, match e with
                   | SetIsSyncing _ | SaveLibraryBooks _ | SyncBooks _ _ => False
                   | _ => True
                   end) tloop
    ∧ published_progress tloop
      = progress_at (length (arrived (library (store w)) synced))
        <$> batch_starts (length (arrived (library (store w)) synced)) 0
    ∧ snapshot_sizes tloop
      = (λ j, length (library (store w))
              + (j + batchSize) `min` length (arrived (library (store w)) synced))%nat
        <$> batch_starts (length (arrived (library (store w)) synced)) 0
    ∧ trace w'
      = trace w ++ t2
        ++ (if (0 <? length (arrived (library (store w)) synced))%nat
            then [SetIsSyncing true] else [])
        ++ tloop
        ++ [SetLibrary (merged ++ X)]
        ++ (if appService is Some _ then [SaveLibraryBooks (merged ++ X)] else [])
        ++ (if (0 <? length (arrived (library (store w)) synced))%nat
            then [SetIsSyncing false] else []).
Proof.
  intros Hsync Hne. unfold updateLibrary. rewrite Hsync.
  destruct synced as [| s0 ss]; [done |].
  change (λ a b : Book, updatedAt a - updatedAt b) with byUpdatedAt.
  set (S := Array_sort byUpdatedAt (s0 :: ss)). cbv zeta. intros H.
  apply bind_inv in H as [(a & w1 & H1 & H) | [[_ [=]] | [_ [=]]]].
  pose proof (download_loop_cover_calls _ _ _ _ _ _ _ H1) as (ta & Hta & Hfa).
  apply download_loop_quiet in H1 as [Hq1 _]; [| lia].
  apply bind_inv in H as [(merged & w2 & H2 & H) | [[_ [=]] | [_ [=]]]].
  pose proof (merge_old_cover_calls _ _ _ _ _ _ H2) as (tb & Htb & Hfb).
  apply merge_old_exact in H2 as (Hq2 & _ & Hm).
  specialize (Hm merged eq_refl).
  pose proof (quiet_trans _ _ _ Hq1 Hq2) as [(Hs2 & Hp2 & t2 & Ht2 & _) Hu2].
  assert (Forall (λ e, is_cover_call e = true) t2) as Hf2.
  { rewrite Htb, Hta, <- app_assoc in Ht2. apply app_inv_head in Ht2 as <-.
    by apply Forall_app. }
  assert (Forall2 (old_result S) (library (store w)) merged) as Hm'.
  { eapply Forall2_impl; [exact Hm |]. intros ? ?. apply old_exact_result. }
  rewrite (merged_hashes _ _ _ Hm') in H.
  change (List.filter _ S) with (arrived (library (store w)) (s0 :: ss)) in H.
  set (nb := arrived (library (store w)) (s0 :: ss)) in *.
  apply bind_inv in H as [(? & w3 & H3 & H) | [[[=] _] | [[=] _]]].
  injection H3 as _ <-.
  apply bind_inv in H as [(? & w4 & H4 & H) | [[H4 [=]] | [H4 [=]]]].
  change (λ (i : nat) (batch : list Book), _)
    with (hydrate_batch appService (length nb)) in H.
  assert (isSyncing (store w4) = (0 <? length nb)%nat
          ∧ updatedLibrary w4 = merged
          ∧ trace w4
            = trace w ++ t2 ++ if (0 <? length nb)%nat then [SetIsSyncing true] else [])
    as (Hs4 & Hu4 & Ht4).
  { destruct (0 <? length nb)%nat; injection H4 as _ <-; cbn;
      rewrite ?Hs2, ?Ht2, ?app_nil_r, <- ?app_assoc; auto. }
  apply bind_inv in H as [([] & w5 & H5 & H) | [[_ [=]] | [_ [=]]]].
  destruct (hydrate_loop_emits
              (λ e, match e with
                    | SetIsSyncing _ | SaveLibraryBooks _ | SyncBooks _ _ => False
                    | _ => True
                    end) appService (length nb) nb (length nb) 0) with (w := w4)
    as (tloop' & Htl' & Hfl); try done.
  rewrite H5 in Htl'. cbn [snd] in Htl'.
  pose proof H5 as H5'.
  eapply hydrate_loop_run with (merged := merged) (X0 := []) in H5'
    as (_ & Hs5 & _);
    [| lia | by rewrite Hu4, app_nil_r | rewrite take_0; constructor].
  apply hydrate_loop_completed in H5 as (X & tloop & HX & Hu5 & Ht5 & Hpp & Hss).
  rewrite Ht5 in Htl'. apply app_inv_head in Htl' as <-.
  rewrite drop_0 in HX. rewrite Hu4 in Hu5, Hss.
  exists merged, X, t2, tloop.
  unfold get_updatedLibrary, setLibrary, call_saveLibraryBooks, when, setIsSyncing,
    tell, ret, mbind, Async_bind, bind in H.
  split; [done |]. split; [done |].
  assert (length merged = length (library (store w))) as Hlen
    by (symmetry; by eapply Forall2_length).
  assert (snapshot_sizes tloop
          = (λ j, length (library (store w)) + (j + batchSize) `min` length nb)%nat
            <$> batch_starts (length nb) 0) as Hss'.
  { rewrite Hss, Hlen. apply list_fmap_ext. intros; lia. }
  destruct appService, (0 <? length nb)%nat; injection H as <-;
    cbn [store library isSyncing trace emit with_store];
    rewrite ?Hs5, ?Hs4, ?Hu5, ?Ht5, ?Ht4, <- ?app_assoc; repeat split; auto.
Qed.

(** ** The sync controller *)

Lemma filter_sublist_impl (p q : Book → bool) (l : list Book) :
  (∀ x, p x = true → q x = true) →
  List.filter p l `sublist_of` List.filter q l.
Proof.
  intros Himp. induction l as [| x l IH]; simpl; [constructor |].
  destruct (p x) eqn:Hp.
  - rewrite (Himp x Hp). by constructor.
  - destruct (q x); [by constructor | done].
Qed.

Lemma filter_sublist (p : Book → bool) (l : list Book) :
  List.filter p l `sublist_of` l.
Proof.
  induction l as [| x l IH]; simpl; [constructor |].
  destruct (p x); by constructor.
Qed.

(** X1. The payload of local changes shrinks as the cursor advances: the
    selection at a later cursor is a sub-list of the selection at an earlier
    one, which is a sub-list of the library, order kept. *)
Theorem getNewBooks_cursor_monotone (u : string) (c1 c2 : Z) (w : World) :
  c1 ≤ c2 →
  ∃ sel1 sel2,
    books (getNewBooks (Some u) c1 w) = Some sel1
    ∧ books (getNewBooks (Some u) c2 w) = Some sel2
    ∧ sel2 `sublist_of` sel1
    ∧ sel1 `sublist_of` library (store w).
Proof.
  intros Hc. unfold getNewBooks. cbn [books]. do 2 eexists.
  split; [reflexivity |]. split; [reflexivity |]. split.
  - apply filter_sublist_impl. intros x Hx.
    apply orb_true_iff in Hx as [Hx | Hx]; apply orb_true_iff.
    + left. apply Z.ltb_lt in Hx. apply Z.ltb_lt. lia.
    + right. destruct (nullish_or (deletedAt x) (VNum 0)); try done.
      simpl in *. apply Z.ltb_lt in Hx. apply Z.ltb_lt. lia.
  - apply filter_sublist.
Qed.

Lemma getNewBooks_cursor_monotone_witness :
  ∃ sel1 sel2,
    books (getNewBooks Sample.me 1 (Sample.world_of [Sample.tomb; Sample.local1]))
    = Some sel1
    ∧ books (getNewBooks Sample.me 3 (Sample.world_of [Sample.tomb; Sample.local1]))
      = Some sel2
    ∧ sel2 `sublist_of` sel1
    ∧ sel1 `sublist_of` library (store (Sample.world_of [Sample.tomb; Sample.local1])).
Proof.
  apply (getNewBooks_cursor_monotone "reader" 1 3
           (Sample.world_of [Sample.tomb; Sample.local1])).
  lia.
Defined.

Lemma filter_all (p : Book → bool) (l : list Book) :
  (∀ x, x ∈ l → p x = true) → List.filter p l = l.
Proof.
  induction l as [| x l IH]; intros H; simpl; [done |].
  rewrite (H x) by left. f_equal. apply IH. intros y Hy. apply H. by right.
Qed.

(** X2. A push by a signed-in user calls the gateway exactly once, with
    direction [push], whatever the cursor and whether or not anything
    changed: it sends the whole library when the cursor is below every
    [updatedAt], and an empty payload when no record has a timestamp above
    the cursor. It throws exactly when the gateway rejects, and leaves the
    store and the latch alone. *)
Theorem pushLibrary_payload (u : string) (sync : Sync) (w : World) :
  Forall deletedAt_typed (library (store w)) →
  ∃ payload,
    pushLibrary (Some u) sync w
    = (if syncBooks sync (Some payload) push then Return tt else Throw,
       emit (SyncBooks (Some payload) push) w)
    ∧ payload `sublist_of` library (store w)
    ∧ (Forall (λ b, lastSyncedAtBooks sync < updatedAt b) (library (store w)) →
       payload = library (store w))
    ∧ (Forall (λ b, updatedAt b ≤ lastSyncedAtBooks sync
                    ∧ deletedAt_or_0 b ≤ lastSyncedAtBooks sync)
         (library (store w)) →
       payload = []).
Proof.
  intros Hty. unfold pushLibrary, getNewBooks. cbn [books].
  exists (List.filter
            (λ book, (lastSyncedAtBooks sync <? updatedAt book)
                     || Js.lt (VNum (lastSyncedAtBooks sync))
                          (nullish_or (deletedAt book) (VNum 0)))
            (library (store w))).
  split; [| split; [apply filter_sublist | split]].
  - unfold tell, mbind, Async_bind, bind. by destruct (syncBooks sync _ push).
  - intros Hall. apply filter_all. intros x Hx. rewrite Forall_forall in Hall.
    apply orb_true_iff. left. apply Z.ltb_lt. by apply Hall.
  - intros Hall. apply filter_nil. intros x Hx.
    rewrite Forall_forall in Hall, Hty.
    destruct (Hall x Hx) as [Hu Hd].
    apply not_true_is_false. intros Hsel.
    apply (changed_since_cursor _ _ (Hty x Hx)) in Hsel. lia.
Qed.

Lemma pushLibrary_payload_witness :
  ∃ payload,
    pushLibrary Sample.me (Sample.gateway 0) (Sample.world_of [Sample.tomb; Sample.local1])
    = (if syncBooks (Sample.gateway 0) (Some payload) push then Return tt else Throw,
       emit (SyncBooks (Some payload) push)
         (Sample.world_of [Sample.tomb; Sample.local1]))
    ∧ payload `sublist_of` library (store (Sample.world_of [Sample.tomb; Sample.local1])).
Proof.
  destruct (pushLibrary_payload "reader" (Sample.gateway 0)
              (Sample.world_of [Sample.tomb; Sample.local1]))
    as (payload & Hrun & Hsub & _).
  - repeat constructor.
  - exists payload. split; [exact Hrun | exact Hsub].
Defined.

Lemma session_single_flight_witness :
  awaiting (session_run Sample.me
              {| world := Sample.world_of []; awaiting := 0 |}
              [CallPull; CallPull; Settle false; CallPull])
  = (if isPullingRef
          (world (session_run Sample.me
                    {| world := Sample.world_of []; awaiting := 0 |}
                    [CallPull; CallPull; Settle false; CallPull]))
     then 1 else 0)%nat.
Proof.
  apply (session_single_flight Sample.me
           [CallPull; CallPull; Settle false; CallPull]
           {| world := Sample.world_of []; awaiting := 0 |}).
  reflexivity.
Defined.

Lemma settlements_cons (a : action) (sched : list action) :
  settlements (a :: sched)
  = ((match a with Settle _ => 1 | CallPull => 0 end) + settlements sched)%nat.
Proof. unfold settlements. simpl. by destruct a. Qed.

(** X4. Over any interleaving of calls of [pullLibrary] and settlements of
    its request, the gateway is invoked at most once more than requests have
    settled (and not even that once when a pull was in flight at the start):
    a new request is made only after the previous one has settled. *)
Theorem session_gateway_bound (user : option string) (sched : list action) (s : Session) :
  (gateway_calls (trace (world (session_run user s sched)))
   + (if isPullingRef (world (session_run user s sched)) then 0 else 1)
   ≤ gateway_calls (trace (world s))
     + (if isPullingRef (world s) then 0 else 1)
     + settlements sched)%nat.
Proof.
  revert s. induction sched as [| a sched IH]; intros s.
  - unfold settlements. simpl. lia.
  - change (session_run user s (a :: sched))
      with (session_run user (session_step user s a) sched).
    etransitivity; [apply IH |]. rewrite settlements_cons.
    destruct a as [| fulfilled]; simpl.
    + unfold pullLibrary_call. destruct user as [u |]; [| simpl; lia].
      destruct (isPullingRef (world s)) eqn:E; simpl; rewrite ?E; [lia |].
      rewrite gateway_calls_app.
      change (gateway_calls [SyncBooks (Some []) pull]) with 1%nat. lia.
    + destruct (awaiting s); simpl; [lia |].
      destruct (isPullingRef (world s)); lia.
Qed.

(** X5. A pull that was rejected does not block the next one: once the
    request has settled, either way, a new call of [pullLibrary] goes to the
    gateway again. *)
Theorem pullLibrary_after_settle (u : string) (fulfilled : bool) (w : World) :
  isPullingRef w = false →
  ∃ w1 w2 w3,
    pullLibrary_call (Some u) w = (Awaiting, w1)
    ∧ pullLibrary_settle fulfilled w1
      = (if fulfilled then Return tt else Throw, w2)
    ∧ pullLibrary_call (Some u) w2 = (Awaiting, w3)
    ∧ trace w3 = trace w ++ [SyncBooks (Some []) pull; SyncBooks (Some []) pull]
    ∧ store w3 = store w.
Proof.
  intros H. do 3 eexists.
  split; [by apply pullLibrary_call_free |].
  split; [reflexivity |].
  split; [by apply pullLibrary_call_free |].
  split; [| reflexivity]. cbn [trace emit with_isPullingRef].
  by rewrite <- app_assoc.
Qed.

Lemma pullLibrary_after_settle_witness :
  ∃ w1 w2 w3,
    pullLibrary_call Sample.me (Sample.world_of []) = (Awaiting, w1)
    ∧ pullLibrary_settle false w1 = (Throw, w2)
    ∧ pullLibrary_call Sample.me w2 = (Awaiting, w3)
    ∧ trace w3
      = trace (Sample.world_of [])
        ++ [SyncBooks (Some []) pull; SyncBooks (Some []) pull]
    ∧ store w3 = store (Sample.world_of []).
Proof.
  apply (pullLibrary_after_settle "reader" false (Sample.world_of [])).
  reflexivity.
Defined.

(** X6. While a pull is in flight, a change of the library triggers no
    autosync: between the call of [pullLibrary] and the settlement of its
    request the effect leaves the world as it is, whatever the throttle
    says and whatever the memoised callback holds. After the settlement a
    trigger that the throttle lets through runs the memoised callback: it
    calls the gateway with direction [both] and the selection for the user
    and the cursor that callback holds, when that user is signed in and that
    cursor is not zero, and does nothing otherwise. *)
Theorem autoSyncEffect_during_pull (u : string) (allowed fulfilled : bool)
    (memo_user : option string) (memo : Sync) (w : World) :
  isPullingRef w = false →
  ∃ w1 w2,
    pullLibrary_call (Some u) w = (Awaiting, w1)
    ∧ autoSyncEffect (Some u) allowed memo_user memo w1 = (Return tt, w1)
    ∧ w2 = (pullLibrary_settle fulfilled w1).2
    ∧ autoSyncEffect (Some u) true memo_user memo w2
      = (Return tt,
         if bool_decide (is_Some memo_user ∧ lastSyncedAtBooks memo ≠ 0)
         then emit (SyncBooks
                      (books (getNewBooks memo_user (lastSyncedAtBooks memo) w2)) both)
                w2
         else w2).
Proof.
  intros H. do 2 eexists.
  split; [by apply pullLibrary_call_free |].
  split; [by rewrite autoSyncEffect_gate, bool_decide_eq_false_2 by (by intros (_ & ? & _)) |].
  split; [reflexivity |].
  rewrite autoSyncEffect_gate, bool_decide_eq_true_2 by eauto.
  unfold handleAutoSync. case_bool_decide as Hm.
  - destruct Hm as [[v ->] Hc]. cbn [getNewBooks lastSyncedAt truthy].
    by destruct (Z.eqb_spec (lastSyncedAtBooks memo) 0).
  - destruct memo_user as [v |]; [| reflexivity]. cbn [getNewBooks lastSyncedAt truthy].
    destruct (Z.eqb_spec (lastSyncedAtBooks memo) 0) as [E | E]; [reflexivity |].
    destruct Hm. eauto.
Qed.

Lemma autoSyncEffect_during_pull_witness :
  ∃ w1 w2,
    pullLibrary_call Sample.me (Sample.world_of [Sample.local1]) = (Awaiting, w1)
    ∧ autoSyncEffect Sample.me true (Some "earlier") (Sample.gateway 5) w1
      = (Return tt, w1)
    ∧ w2 = (pullLibrary_settle true w1).2
    ∧ autoSyncEffect Sample.me true (Some "earlier") (Sample.gateway 5) w2
      = (Return tt,
         if bool_decide (is_Some (Some "earlier")
                         ∧ lastSyncedAtBooks (Sample.gateway 5) ≠ 0)
         then emit (SyncBooks
                      (books (getNewBooks (Some "earlier")
                                (lastSyncedAtBooks (Sample.gateway 5)) w2))
                      both)
                w2
         else w2).
Proof.
  apply (autoSyncEffect_during_pull "reader" true true (Some "earlier")
           (Sample.gateway 5) (Sample.world_of [Sample.local1])).
  reflexivity.
Defined.

(** ** What a merge cycle does to the outside *)

Lemma emits_by_outcome_bind {A B} (P Q : event → Prop) (m : Async A) (k : A → Async B) :
  (∀ e, P e → Q e) →
  emits P m → (∀ a, emits_by_outcome P Q (k a)) →
  emits_by_outcome P Q (m ≫= k).
Proof.
  intros HPQ Hm Hk w. unfold mbind, Async_bind, bind.
  destruct (Hm w) as (t1 & Ht1 & Hf1).
  destruct (m w) as [[a | |] w1]; cbn [fst snd] in *; [| by exists t1 | by exists t1].
  destruct (Hk a w1) as (t2 & Ht2 & Hf2).
  exists (t1 ++ t2). split; [by rewrite Ht2, Ht1, app_assoc |].
  destruct (k a w1).1; apply Forall_app; split; try done.
  eapply Forall_impl; [exact Hf1 | exact HPQ].
Qed.

Lemma emits_by_outcome_returns {A} (P Q : event → Prop) (m : Async A) :
  emits Q m → (∀ w, ∃ a, (m w).1 = Return a) → emits_by_outcome P Q m.
Proof.
  intros Hm Hret w. destruct (Hm w) as (t & Ht & Hf). destruct (Hret w) as [a Ha].
  exists t. split; [done |]. by rewrite Ha.
Qed.

(** The events of a cycle that does not return are of the kinds that occur
    before the final commit. *)
Lemma updateLibrary_emits_by_outcome (P Q : event → Prop)
    (appService : option AppService) (synced : option (list Book)) (w : World) :
  (∀ e, P e → Q e) →
  (∀ batch, P (DownloadBookCovers batch)) →
  (∀ book, P (GenerateCoverImageUrl book)) →
  (∀ l, P (SetLibrary l)) →
  P (SetIsSyncing true) →
  (∀ p, P (SetSyncProgress p)) →
  (∀ l, Q (SaveLibraryBooks l)) →
  Q (SetIsSyncing false) →
  ∃ t, trace (updateLibrary appService synced w).2 = trace w ++ t
       ∧ match (updateLibrary appService synced w).1 with
         | Return _ => Forall Q t
         | _ => Forall P t
         end.
Proof.
  intros HPQ Hdl Hgen Hlib Hup Hprog Hsave Hdown. unfold updateLibrary.
  assert (∃ t, trace (ret tt w).2 = trace w ++ t
               ∧ match (ret tt w).1 with
                 | Return _ => Forall Q t
                 | _ => Forall P t
                 end) as Hskip.
  { exists []. split; [by rewrite app_nil_r | constructor]. }
  destruct (isSyncing (store w)); [exact Hskip |].
  destruct synced as [[| s0 ss] |]; [exact Hskip | | exact Hskip].
  clear Hskip. cbv zeta.
  match goal with
  | |- ∃ t, trace (?m w).2 = _ ∧ _ =>
      enough (emits_by_outcome P Q m) as H by apply H
  end.
  apply emits_by_outcome_bind; [done | |].
  { apply emits_for_batches. intros. by apply emits_downloadBookCovers. }
  intros _. apply emits_by_outcome_bind; [done | |].
  { apply emits_Promise_all. intros. by apply emits_processOldBook. }
  intros merged. apply emits_by_outcome_bind; [done | by apply emits_silent |].
  intros _. apply emits_by_outcome_bind;
    [done | by apply emits_when, emits_setIsSyncing |].
  intros _. apply emits_by_outcome_bind; [done | by apply hydrate_loop_emits |].
  intros _. apply emits_by_outcome_returns.
  - apply emits_bind; [by apply emits_silent |].
    intros final. apply emits_bind; [by apply emits_setLibrary, HPQ |].
    intros _. apply emits_bind; [by apply emits_saveLibraryBooks |].
    intros _. by apply emits_when, emits_setIsSyncing.
  - intros w0. exists tt.
    unfold get_updatedLibrary, setLibrary, call_saveLibraryBooks, when, setIsSyncing,
      tell, ret, mbind, Async_bind, bind.
    by destruct appService, (0 <? _)%nat.
Qed.

Lemma gateway_calls_none (t : list event) :
  Forall (λ e, is_SyncBooks e = false) t → gateway_calls t = 0%nat.
Proof.
  unfold gateway_calls. induction 1 as [| e t He _ IH]; [done |].
  simpl. by rewrite He.
Qed.

(** X7. A merge cycle never calls the gateway and never touches the pull
    latch, on any path. *)
Theorem updateLibrary_no_gateway (appService : option AppService)
    (synced : option (list Book)) (w : World) :
  gateway_calls (trace (updateLibrary appService synced w).2) = gateway_calls (trace w)
  ∧ isPullingRef (updateLibrary appService synced w).2 = isPullingRef w.
Proof.
  split.
  - destruct (updateLibrary_emits (λ e, is_SyncBooks e = false) appService synced w)
      as (t & Ht & Hf); try done.
    rewrite Ht, gateway_calls_app, (gateway_calls_none _ Hf). lia.
  - destruct (isSyncing (store w)) eqn:Hs; [by rewrite updateLibrary_busy |].
    destruct synced as [[| s0 ss] |].
    + rewrite updateLibrary_nothing; [done | by right].
    + destruct (updateLibrary appService (Some (s0 :: ss)) w) as [r w'] eqn:E.
      by apply updateLibrary_run in E as (_ & Hp & _).
    + rewrite updateLibrary_nothing; [done | by left].
Qed.

(** X8. Every batch that a merge cycle hands to [downloadBookCovers], on any
    path, is non-empty, holds at most twenty records, and holds only records
    that are uploaded and not deleted: a tombstone's cover is never
    downloaded. *)
Theorem updateLibrary_cover_batches (appService : option AppService)
    (synced : option (list Book)) (w : World) :
  ∃ t, trace (updateLibrary appService synced w).2 = trace w ++ t
       ∧ ∀ batch, DownloadBookCovers batch ∈ t →
           batch ≠ [] ∧ (length batch ≤ 20)%nat
           ∧ Forall (λ x, truthy (deletedAt x) = false ∧ truthy (uploadedAt x) = true)
               batch.
Proof.
  destruct (updateLibrary_emits
              (λ e, match e with
                    | DownloadBookCovers batch =>
                        batch ≠ [] ∧ (length batch ≤ 20)%nat
                        ∧ Forall (λ x, truthy (deletedAt x) = false
                                       ∧ truthy (uploadedAt x) = true) batch
                    | _ => True
                    end) appService synced w) as (t & Ht & Hf); try done.
  exists t. split; [done |]. intros batch Hin. rewrite Forall_forall in Hf.
  exact (Hf _ Hin).
Qed.

(** X9. Every progress fraction that a merge cycle publishes, on any path,
    is greater than 0 and at most 1. *)
Theorem updateLibrary_progress_range (appService : option AppService)
    (synced : option (list Book)) (w : World) :
  ∃ t, trace (updateLibrary appService synced w).2 = trace w ++ t
       ∧ Forall (λ p, (0 < p)%Q ∧ (p <= 1)%Q) (published_progress t).
Proof.
  destruct (updateLibrary_emits
              (λ e, match e with
                    | SetSyncProgress p => (0 < p)%Q ∧ (p <= 1)%Q
                    | _ => True
                    end) appService synced w) as (t & Ht & Hf); try done.
  exists t. split; [done |]. clear Ht. unfold published_progress.
  induction Hf as [| e t He _ IH]; [constructor |].
  destruct e; try exact IH. by constructor.
Qed.

(** X10. What is handed to [saveLibraryBooks] is the library that the cycle
    commits. A cycle that is not skipped (the flag is down and the batch is
    not empty), that returns and that has an app service saves exactly once,
    and saves the library it leaves in the store. Every other cycle saves
    nothing: one that is skipped, one that throws, one without a service. *)
Theorem updateLibrary_saves (appService : option AppService)
    (synced : option (list Book)) (w : World) :
  ∃ t, trace (updateLibrary appService synced w).2 = trace w ++ t
       ∧ ((updateLibrary appService synced w).1 = Return tt →
          is_Some appService →
          isSyncing (store w) = false →
          (∃ s ss, synced = Some (s :: ss)) →
          saved_snapshots t = [library (store (updateLibrary appService synced w).2)])
       ∧ ((updateLibrary appService synced w).1 ≠ Return tt
          ∨ appService = None
          ∨ isSyncing (store w) = true
          ∨ synced = None
          ∨ synced = Some [] →
          saved_snapshots t = []).
Proof.
  destruct (isSyncing (store w)) eqn:Hs.
  { rewrite updateLibrary_busy by done. exists []. rewrite app_nil_r.
    split; [done |]. split; [by intros _ _ [=] | done]. }
  destruct (decide (synced = None ∨ synced = Some [])) as [Hskip | Hgo].
  { rewrite updateLibrary_nothing by done. exists []. rewrite app_nil_r.
    split; [done |]. split; [| done].
    intros _ _ _ (s & ss & ->). by destruct Hskip. }
  destruct synced as [batch |]; [| destruct Hgo; by left].
  assert (batch ≠ []) as Hne by (intros ->; destruct Hgo; by right).
  destruct (updateLibrary appService (Some batch) w) as [r w'] eqn:E.
  destruct r as [[] | |].
  - apply updateLibrary_completed in E
      as (merged & X & t2 & tloop & _ & _ & Hl & _ & Hf2 & Hfl & _ & _ & Ht);
      [| done | done].
    eexists. split; [exact Ht |]. cbn [fst snd].
    rewrite !saved_snapshots_app.
    rewrite (saved_snapshots_none t2), (saved_snapshots_none tloop).
    + split.
      * intros _ [svc ->] _ _. rewrite Hl. by destruct (0 <? _)%nat.
      * intros [H | [-> | [[=] | [[=] | [= ->]]]]]; [done | | done].
        by destruct (0 <? _)%nat.
    + eapply Forall_impl; [exact Hfl |]. by intros [].
    + eapply Forall_impl; [exact Hf2 |]. by intros [].
  - destruct (updateLibrary_emits_by_outcome
                (λ e, match e with SaveLibraryBooks _ => False | _ => True end)
                (λ _, True) appService (Some batch) w) as (t & Ht & Hf); try done.
    rewrite E in Ht, Hf. exists t. split; [done |]. cbn [fst snd].
    split; [by intros [=] |]. intros _. by apply saved_snapshots_none.
  - pose proof (updateLibrary_settles appService (Some batch) w) as Hno.
    by rewrite E in Hno.
Qed.

(** ** Progress and the syncing flag *)

Lemma reports_of_flag (c b : bool) :
  published_progress (if c then [SetIsSyncing b] else []) = []
  ∧ snapshot_sizes (if c then [SetIsSyncing b] else []) = [].
Proof. by destruct c. Qed.

Lemma reports_of_save (appService : option AppService) (l : list Book) :
  published_progress (if appService is Some _ then [SaveLibraryBooks l] else []) = []
  ∧ snapshot_sizes (if appService is Some _ then [SaveLibraryBooks l] else []) = [].
Proof. by destruct appService. Qed.

(** What a completed cycle reports to the interface. *)
Lemma updateLibrary_reports (appService : option AppService)
    (synced : list Book) (w w' : World) :
  isSyncing (store w) = false →
  synced ≠ [] →
  updateLibrary appService (Some synced) w = (Return tt, w') →
  ∃ t, trace w' = trace w ++ t
       ∧ published_progress t
         = progress_at (length (arrived (library (store w)) synced))
           <$> batch_starts (length (arrived (library (store w)) synced)) 0
       ∧ length (published_progress t)
         = ((length (arrived (library (store w)) synced) + 9) / 10)%nat
       ∧ snapshot_sizes t
         = ((λ i, length (library (store w))
                  + (i + 10) `min` length (arrived (library (store w)) synced))%nat
            <$> batch_starts (length (arrived (library (store w)) synced)) 0)
           ++ [length (library (store w))
               + length (arrived (library (store w)) synced)]%nat.
Proof.
  intros Hsync Hne Hrun.
  apply updateLibrary_completed in Hrun
    as (merged & X & t2 & tloop & Hm & HX & _ & _ & Hf2 & Hfl & Hpp & Hss & Ht);
    [| done | done].
  eexists. split; [exact Ht |].
  assert (Forall (λ e, is_report e = false) t2) as Hq2
    by (eapply Forall_impl; [exact Hf2 |]; by intros []).
  rewrite !published_progress_app, !snapshot_sizes_app,
    (published_progress_silent t2), (snapshot_sizes_silent t2) by done.
  rewrite (proj1 (reports_of_flag _ true)), (proj2 (reports_of_flag _ true)),
    (proj1 (reports_of_flag _ false)), (proj2 (reports_of_flag _ false)),
    (proj1 (reports_of_save _ _)), (proj2 (reports_of_save _ _)).
  change (published_progress [SetLibrary (merged ++ X)]) with (@nil Q).
  change (snapshot_sizes [SetLibrary (merged ++ X)]) with [length (merged ++ X)].
  rewrite Hpp, Hss, app_nil_r. cbn [app].
  split; [done |]. split.
  - rewrite length_fmap. unfold batch_starts. rewrite length_fmap, length_seq.
    unfold batchSize. f_equal. lia.
  - f_equal. rewrite length_app.
    apply Forall2_length in Hm. apply Forall2_length in HX. by rewrite <- Hm, <- HX.
Qed.

(** X11. A completed merge cycle with [n] newly arrived records publishes
    ⌈n/10⌉ progress fractions, the one for the batch that starts at record
    [i] being min((i + 10)/n, 1), and writes one library snapshot per batch,
    min(i + 10, n) records larger than the library it started from, then
    commits the library with all [n]. *)
Theorem updateLibrary_progress_steps (appService : option AppService)
    (synced : list Book) (w w' : World) :
  isSyncing (store w) = false →
  synced ≠ [] →
  updateLibrary appService (Some synced) w = (Return tt, w') →
  ∃ t, trace w' = trace w ++ t
       ∧ published_progress t
         = progress_at (length (arrived (library (store w)) synced))
           <$> batch_starts (length (arrived (library (store w)) synced)) 0
       ∧ length (published_progress t)
         = ((length (arrived (library (store w)) synced) + 9) / 10)%nat
       ∧ snapshot_sizes t
         = ((λ i, length (library (store w))
                  + (i + 10) `min` length (arrived (library (store w)) synced))%nat
            <$> batch_starts (length (arrived (library (store w)) synced)) 0)
           ++ [length (library (store w))
               + length (arrived (library (store w)) synced)]%nat.
Proof. apply updateLibrary_reports. Qed.

Lemma updateLibrary_progress_steps_witness :
  ∃ t, trace (updateLibrary (Some Sample.covers_ok)
                (Some [Sample.fresh5; Sample.synced3])
                (Sample.world_of [Sample.local1])).2
       = trace (Sample.world_of [Sample.local1]) ++ t
       ∧ published_progress t
         = progress_at (length (arrived (library (store (Sample.world_of [Sample.local1])))
                                  [Sample.fresh5; Sample.synced3]))
           <$> batch_starts (length (arrived (library (store (Sample.world_of [Sample.local1])))
                                       [Sample.fresh5; Sample.synced3])) 0.
Proof.
  destruct (updateLibrary_progress_steps (Some Sample.covers_ok)
              [Sample.fresh5; Sample.synced3] (Sample.world_of [Sample.local1])
              (updateLibrary (Some Sample.covers_ok)
                 (Some [Sample.fresh5; Sample.synced3])
                 (Sample.world_of [Sample.local1])).2)
    as (t & Ht & Hp & _).
  - reflexivity.
  - discriminate.
  - vm_compute. reflexivity.
  - exists t. split; [exact Ht | exact Hp].
Defined.

Lemma progress_at_mono (total i j : nat) :
  (0 < total)%nat → (i ≤ j)%nat → (progress_at total i <= progress_at total j)%Q.
Proof.
  intros Ht Hij. unfold progress_at. apply Q.min_le_compat_r.
  apply Qmult_le_compat_r.
  - rewrite <- Zle_Qle. lia.
  - apply Qinv_le_0_compat. change 0%Q with (inject_Z 0). rewrite <- Zle_Qle. lia.
Qed.

Lemma batch_starts_from (n i j : nat) : j ∈ batch_starts n i → (i ≤ j)%nat.
Proof.
  unfold batch_starts. intros H. apply list_elem_of_fmap in H as (k & -> & _). lia.
Qed.

Lemma progress_steps_sorted (total n : nat) (k i : nat) :
  (0 < total)%nat → (n - i ≤ k)%nat →
  StronglySorted Qle (progress_at total <$> batch_starts n i).
Proof.
  intros Ht. revert i. induction k as [| k IH]; intros i Hk.
  - rewrite batch_starts_done by lia. constructor.
  - destruct (Nat.le_gt_cases n i) as [Hge | Hlt].
    + rewrite batch_starts_done by lia. constructor.
    + rewrite batch_starts_step by done. rewrite fmap_cons. constructor.
      * apply IH. unfold batchSize. lia.
      * apply Forall_forall. intros p Hp.
        apply list_elem_of_fmap in Hp as (j & -> & Hj).
        apply progress_at_mono; [done |]. apply batch_starts_from in Hj. lia.
Qed.

Lemma progress_steps_last (n : nat) :
  (0 < n)%nat →
  ∃ p, last (progress_at n <$> batch_starts n 0) = Some p ∧ (p == 1)%Q.
Proof.
  intros Hn. unfold batch_starts, batchSize.
  replace (n - 0 + (10 - 1))%nat with (n + 9)%nat by lia.
  destruct ((n + 9) / 10)%nat as [| c] eqn:Hc.
  { apply Nat.div_small_iff in Hc; lia. }
  rewrite seq_S, !fmap_app, !fmap_cons, !fmap_nil, last_snoc.
  eexists. split; [reflexivity |]. unfold progress_at, batchSize.
  apply Q.min_r.
  assert (n ≤ 0 + (0 + c) * 10 + 10)%nat as Hle.
  { pose proof (Nat.div_mod_eq (n + 9) 10) as Hdm. rewrite Hc in Hdm.
    pose proof (Nat.mod_upper_bound (n + 9) 10). lia. }
  apply Qle_shift_div_l.
  - change 0%Q with (inject_Z 0). rewrite <- Zlt_Qlt. lia.
  - rewrite Qmult_1_l, <- Zle_Qle. lia.
Qed.

(** X12. In a completed merge cycle the published progress never goes down,
    and, when at least one record arrived, the last fraction published is
    1. *)
Theorem updateLibrary_progress_monotone (appService : option AppService)
    (synced : list Book) (w w' : World) :
  isSyncing (store w) = false →
  arrived (library (store w)) synced ≠ [] →
  updateLibrary appService (Some synced) w = (Return tt, w') →
  ∃ t, trace w' = trace w ++ t
       ∧ StronglySorted Qle (published_progress t)
       ∧ ∃ p, last (published_progress t) = Some p ∧ (p == 1)%Q.
Proof.
  intros Hsync Harr Hrun.
  assert (synced ≠ []) as Hne by (intros ->; by destruct Harr).
  destruct (updateLibrary_reports _ _ _ _ Hsync Hne Hrun)
    as (t & Ht & Hp & _).
  assert (0 < length (arrived (library (store w)) synced))%nat as Hn.
  { destruct (arrived (library (store w)) synced); [done | simpl; lia]. }
  exists t. split; [done |]. rewrite Hp. split.
  - apply (progress_steps_sorted _ _ (length (arrived (library (store w)) synced)));
      [done | lia].
  - by apply progress_steps_last.
Qed.

Lemma updateLibrary_progress_monotone_witness :
  ∃ t, trace (updateLibrary (Some Sample.covers_ok)
                (Some [Sample.fresh5; Sample.synced3])
                (Sample.world_of [Sample.local1])).2
       = trace (Sample.world_of [Sample.local1]) ++ t
       ∧ StronglySorted Qle (published_progress t)
       ∧ ∃ p, last (published_progress t) = Some p ∧ (p == 1)%Q.
Proof.
  apply (updateLibrary_progress_monotone (Some Sample.covers_ok)
           [Sample.fresh5; Sample.synced3] (Sample.world_of [Sample.local1])).
  - reflexivity.
  - vm_compute. discriminate.
  - vm_compute. reflexivity.
Defined.

(** X13. A completed merge cycle with at least one newly arrived record sets
    the syncing flag exactly twice: raised, then, at the end, lowered. *)
Theorem updateLibrary_flag_cycle (appService : option AppService)
    (synced : list Book) (w w' : World) :
  isSyncing (store w) = false →
  arrived (library (store w)) synced ≠ [] →
  updateLibrary appService (Some synced) w = (Return tt, w') →
  ∃ t, trace w' = trace w ++ t
       ∧ flag_events t = [true; false]
       ∧ isSyncing (store w') = false.
Proof.
  intros Hsync Harr Hrun.
  assert (synced ≠ []) as Hne by (intros ->; by destruct Harr).
  apply updateLibrary_completed in Hrun
    as (merged & X & t2 & tloop & _ & _ & _ & Hs & Hf2 & Hfl & _ & _ & Ht);
    [| done | done].
  eexists. split; [exact Ht |]. split; [| done].
  rewrite !flag_events_app, (flag_events_none t2), (flag_events_none tloop).
  - destruct (arrived (library (store w)) synced); [done |].
    by destruct appService.
  - eapply Forall_impl; [exact Hfl |]. by intros [].
  - eapply Forall_impl; [exact Hf2 |]. by intros [].
Qed.

Lemma updateLibrary_flag_cycle_witness :
  ∃ t, trace (updateLibrary (Some Sample.covers_ok) (Some [Sample.fresh5])
                (Sample.world_of [Sample.local1])).2
       = trace (Sample.world_of [Sample.local1]) ++ t
       ∧ flag_events t = [true; false]
       ∧ isSyncing (store (updateLibrary (Some Sample.covers_ok) (Some [Sample.fresh5])
                             (Sample.world_of [Sample.local1])).2) = false.
Proof.
  apply (updateLibrary_flag_cycle (Some Sample.covers_ok) [Sample.fresh5]
           (Sample.world_of [Sample.local1])).
  - reflexivity.
  - vm_compute. discriminate.
  - vm_compute. reflexivity.
Defined.

(** X14. A merge cycle that finds no newly arrived record never shows a
    syncing indicator: on any path it neither sets the flag nor publishes
    progress. *)
Theorem updateLibrary_silent_update (appService : option AppService)
    (synced : list Book) (w : World) :
  isSyncing (store w) = false →
  arrived (library (store w)) synced = [] →
  ∃ t, trace (updateLibrary appService (Some synced) w).2 = trace w ++ t
       ∧ flag_events t = []
       ∧ published_progress t = [].
Proof.
  intros Hsync Harr.
  destruct (decide (synced = [])) as [-> | Hne].
  { rewrite updateLibrary_nothing by (by right). exists []. by rewrite app_nil_r. }
  destruct (updateLibrary appService (Some synced) w) as [r w'] eqn:E.
  destruct r as [[] | |].
  - apply updateLibrary_completed in E
      as (merged & X & t2 & tloop & _ & _ & _ & _ & Hf2 & Hfl & Hpp & _ & Ht);
      [| done | done].
    eexists. split; [exact Ht |]. rewrite Harr in *. cbn [length Nat.ltb Nat.leb].
    rewrite !flag_events_app, !published_progress_app,
      (flag_events_none t2), (flag_events_none tloop), Hpp,
      (published_progress_silent t2).
    + by destruct appService.
    + eapply Forall_impl; [exact Hf2 |]. by intros [].
    + eapply Forall_impl; [exact Hfl |]. by intros [].
    + eapply Forall_impl; [exact Hf2 |]. by intros [].
  - pose proof E as E'.
    apply updateLibrary_phases in E
      as [[_ [(_ & _ & t & Ht & Hf) _]]
         | (merged & t4 & w4 & r5 & w5 & _ & _ & _ & _ & _ & _ & _ & Hloop & Hend)];
      [| | done | done].
    + exists t. split; [done |]. split.
      * apply flag_events_none. eapply Forall_impl; [exact Hf |]. by intros [].
      * apply published_progress_silent. by apply service_not_report.
    + rewrite Harr in Hloop. rewrite for_batches_done in Hloop by (simpl; lia).
      injection Hloop as <- <-. by destruct Hend.
  - pose proof (updateLibrary_settles appService (Some synced) w) as Hno.
    by rewrite E in Hno.
Qed.

Lemma updateLibrary_silent_update_witness :
  ∃ t, trace (updateLibrary (Some Sample.covers_ok) (Some [Sample.synced5])
                (Sample.world_of [Sample.local1])).2
       = trace (Sample.world_of [Sample.local1]) ++ t
       ∧ flag_events t = []
       ∧ published_progress t = [].
Proof.
  apply (updateLibrary_silent_update (Some Sample.covers_ok) [Sample.synced5]
           (Sample.world_of [Sample.local1])).
  - reflexivity.
  - vm_compute. reflexivity.
Defined.

(** ** The library a merge cycle leaves *)

(** X15. The records of the library keep their places: on any path, the
    library that a merge cycle leaves in the store starts with records
    carrying the hashes of the library it started from, in the same
    order. *)
Theorem updateLibrary_keeps_order (appService : option AppService)
    (synced : option (list Book)) (w : World) :
  take (length (library (store w)))
    (hash <$> library (store (updateLibrary appService synced w).2))
  = hash <$> library (store w).
Proof.
  destruct (updateLibrary_library appService synced w)
    as [-> | (batch & merged & _ & Hm & k & X & -> & _)].
  - rewrite <- (length_fmap hash). apply firstn_all.
  - rewrite fmap_app, (merged_hashes _ _ _ Hm), <- (length_fmap hash (library (store w))).
    by rewrite take_app_length.
Qed.

Lemma old_result_unmatched (syncedBooks : list Book) (oldBook b : Book) :
  (∀ s, s ∈ syncedBooks → hash s ≠ hash oldBook) →
  old_result syncedBooks oldBook b → b = oldBook.
Proof.
  intros Hno. unfold old_result.
  destruct (matching syncedBooks oldBook) as [m |] eqn:E; [| done].
  apply matching_Some in E as [Hin Hh]. by destruct (Hno m Hin).
Qed.

(** X16. A local record whose hash does not occur in the synced batch comes
    through a merge cycle untouched and in its place, on any path. *)
Theorem updateLibrary_unmatched_untouched (appService : option AppService)
    (synced : list Book) (w : World) (i : nat) (oldBook : Book) :
  library (store w) !! i = Some oldBook →
  (∀ s, s ∈ synced → hash s ≠ hash oldBook) →
  library (store (updateLibrary appService (Some synced) w).2) !! i = Some oldBook.
Proof.
  intros Hi Hno.
  destruct (updateLibrary_library appService (Some synced) w)
    as [-> | (batch & merged & [= <-] & Hm & k & X & -> & _)]; [done |].
  destruct (Forall2_lookup_l _ _ _ _ _ Hm Hi) as (b & Hb & Hres).
  apply old_result_unmatched in Hres as ->.
  - by apply lookup_app_l_Some.
  - intros s Hs. apply Hno. by apply Array_sort_elem in Hs.
Qed.

Lemma updateLibrary_unmatched_untouched_witness :
  library (store (updateLibrary (Some Sample.covers_ok)
                    (Some [Sample.synced5; Sample.fresh3])
                    (Sample.world_of [Sample.local1; Sample.tomb])).2) !! 1%nat
  = Some Sample.tomb.
Proof.
  apply (updateLibrary_unmatched_untouched (Some Sample.covers_ok)
           [Sample.synced5; Sample.fresh3]
           (Sample.world_of [Sample.local1; Sample.tomb]) 1 Sample.tomb).
  - reflexivity.
  - intros s Hs. apply elem_of_cons in Hs as [-> | Hs]; [by vm_compute |].
    apply elem_of_cons in Hs as [-> | Hs]; [by vm_compute |].
    by apply elem_of_nil in Hs.
Defined.

Lemma StronglySorted_filter (p : Book → bool) (l : list Book) :
  StronglySorted not_after l → StronglySorted not_after (List.filter p l).
Proof.
  induction 1 as [| x l Hl IH Hx]; simpl; [constructor |].
  destruct (p x); [| done]. constructor; [done |].
  apply Forall_forall. intros y Hy. rewrite Forall_forall in Hx. apply Hx.
  by apply list_elem_of_In, filter_In in Hy as [Hy%list_elem_of_In _].
Qed.

(** X17. What a completed merge cycle appends: behind the records of the
    library come the newly arrived records, each with [coverImageUrl] set to
    what the cover service generated for it ([undefined] without a service)
    and otherwise as received. They come batch after batch, the batches
    being taken ten at a time from the arrivals in ascending [updatedAt];
    the order of the records of one batch among themselves is that in which
    their covers were generated and is not fixed. A record arrives only if
    it is uploaded, not deleted, and its hash is new to the library. *)
Theorem updateLibrary_appends_arrivals (appService : option AppService)
    (synced : list Book) (w w' : World) :
  isSyncing (store w) = false →
  updateLibrary appService (Some synced) w = (Return tt, w') →
  (∃ X, Forall2 (hydrated_by appService) (arrived (library (store w)) synced) X
        ∧ ∀ j, take (j * 10) (drop (length (library (store w))) (library (store w')))
               ≡ₚ take (j * 10) X)
  ∧ length (library (store w'))
    = (length (library (store w)) + length (arrived (library (store w)) synced))%nat
  ∧ StronglySorted not_after (arrived (library (store w)) synced)
  ∧ Forall (λ n, n ∈ synced
                 ∧ (hash n ∉ hash <$> library (store w))
                 ∧ truthy (uploadedAt n) = true
                 ∧ truthy (deletedAt n) = false)
      (arrived (library (store w)) synced).
Proof.
  intros Hsync Hrun.
  assert (∃ X, Forall2 (hydrated_by appService) (arrived (library (store w)) synced) X
               ∧ drop (length (library (store w))) (library (store w')) = X
               ∧ length (library (store w'))
                 = (length (library (store w)) + length X)%nat) as (X & HX & Hd & Hlen).
  { destruct (decide (synced = [])) as [-> | Hne].
    { rewrite updateLibrary_nothing in Hrun by (by right). injection Hrun as <-.
      exists []. rewrite drop_all. split; [constructor |]. split; [done |].
      cbn [length]. lia. }
    apply updateLibrary_completed in Hrun as (merged & X & _ & _ & Hm & HX & -> & _);
      [| done | done].
    apply Forall2_length in Hm. exists X. split; [done |].
    rewrite length_app, Hm. by rewrite drop_app_length. }
  split; [| split; [| split]].
  - exists X. split; [done |]. intros j. by rewrite Hd.
  - by rewrite Hlen, (Forall2_length _ _ _ HX).
  - apply StronglySorted_filter, Array_sort_sorted.
  - apply Forall_forall. intros n Hn.
    apply arrived_elem in Hn as (Hin & Hh & Hu & Hd').
    by apply Array_sort_elem in Hin.
Qed.

Lemma updateLibrary_appends_arrivals_witness :
  ∃ X, Forall2 (hydrated_by (Some Sample.covers_ok))
         (arrived (library (store (Sample.world_of [Sample.local1])))
            [Sample.fresh5; Sample.synced3]) X
       ∧ ∀ j, take (j * 10)
                (drop (length (library (store (Sample.world_of [Sample.local1]))))
                   (library (store (updateLibrary (Some Sample.covers_ok)
                                      (Some [Sample.fresh5; Sample.synced3])
                                      (Sample.world_of [Sample.local1])).2)))
              ≡ₚ take (j * 10) X.
Proof.
  apply (updateLibrary_appends_arrivals (Some Sample.covers_ok)
           [Sample.fresh5; Sample.synced3] (Sample.world_of [Sample.local1])).
  - reflexivity.
  - vm_compute. reflexivity.
Defined.

Lemma updateLibrary_merged_at (appService : option AppService) (synced : list Book)
    (w w' : World) (i : nat) (oldBook : Book) :
  isSyncing (store w) = false →
  synced ≠ [] →
  updateLibrary appService (Some synced) w = (Return tt, w') →
  library (store w) !! i = Some oldBook →
  ∃ b, library (store w') !! i = Some b
       ∧ old_exact appService (Array_sort byUpdatedAt synced) oldBook b.
Proof.
  intros Hsync Hne Hrun Hi.
  apply updateLibrary_completed in Hrun as (merged & X & _ & _ & Hm & _ & -> & _);
    [| done | done].
  destruct (Forall2_lookup_l _ _ _ _ _ Hm Hi) as (b & Hb & Hres).
  exists b. split; [by apply lookup_app_l_Some | done].
Qed.

Lemma truthy_present (book : Book) (k : string) :
  truthy (prop book k) = true → ∃ v, book !! k = Some v ∧ truthy v = true.
Proof.
  unfold prop. destruct (book !! k) as [v |]; [eauto | done].
Qed.

(** X18. A deletion made elsewhere reaches the local record: when the synced
    record that a local record matches is a tombstone, a completed cycle
    stores their plain merge, with no cover generated for it. The stored
    record carries the synced [deletedAt] if the tombstone is the newer of
    the two, and also, whichever is newer, if the local record has no
    [deletedAt] property of its own. *)
Theorem updateLibrary_remote_deletion (appService : option AppService)
    (synced : list Book) (w w' : World) (i : nat) (oldBook m : Book) :
  isSyncing (store w) = false →
  updateLibrary appService (Some synced) w = (Return tt, w') →
  library (store w) !! i = Some oldBook →
  matching (Array_sort byUpdatedAt synced) oldBook = Some m →
  truthy (deletedAt m) = true →
  library (store w') !! i = Some (mergedBook m oldBook)
  ∧ (updatedAt m > updatedAt oldBook ∨ oldBook !! "deletedAt" = None →
     deletedAt (mergedBook m oldBook) = deletedAt m).
Proof.
  intros Hsync Hrun Hi Hm Hdel.
  assert (synced ≠ []) as Hne.
  { intros ->. discriminate Hm. }
  destruct (updateLibrary_merged_at _ _ _ _ _ _ Hsync Hne Hrun Hi) as (b & Hb & Hres).
  unfold old_exact in Hres. rewrite Hm in Hres.
  unfold wants_cover in Hres. rewrite Hdel in Hres. cbn in Hres. subst b.
  split; [done |]. apply truthy_present in Hdel as (v & Hv & _).
  unfold deletedAt, prop, mergedBook. intros [Hnewer | Hnone].
  - destruct (Z.gtb_spec (updatedAt m) (updatedAt oldBook)); [| lia].
    by rewrite lookup_spread, Hv.
  - destruct (updatedAt m >? updatedAt oldBook);
      by rewrite lookup_spread, ?Hv, ?Hnone.
Qed.

Lemma updateLibrary_remote_deletion_witness :
  library (store (updateLibrary (Some Sample.covers_ok) (Some [Sample.gone1])
                    (Sample.world_of [Sample.fresh3])).2) !! 0%nat
  = Some (mergedBook Sample.gone1 Sample.fresh3).
Proof.
  apply (updateLibrary_remote_deletion (Some Sample.covers_ok) [Sample.gone1]
           (Sample.world_of [Sample.fresh3]) _ 0 Sample.fresh3 Sample.gone1).
  - reflexivity.
  - vm_compute. reflexivity.
  - reflexivity.
  - vm_compute. reflexivity.
  - vm_compute. reflexivity.
Defined.

(** X19. A local record that no synced record of its hash is newer than
    keeps what it has: on any path, the record stored in its place has every
    property of the local record with the same value, except
    [coverImageUrl]; a local tombstone stays one. *)
Theorem updateLibrary_local_wins (appService : option AppService)
    (synced : list Book) (w : World) (i : nat) (oldBook : Book) :
  library (store w) !! i = Some oldBook →
  (∀ s, s ∈ synced → hash s = hash oldBook → updatedAt s ≤ updatedAt oldBook) →
  ∃ b, library (store (updateLibrary appService (Some synced) w).2) !! i = Some b
       ∧ (∀ k v, k ≠ "coverImageUrl" → oldBook !! k = Some v → b !! k = Some v)
       ∧ (truthy (deletedAt oldBook) = true → deletedAt b = deletedAt oldBook).
Proof.
  intros Hi Hold.
  assert (∃ b, library (store (updateLibrary appService (Some synced) w).2) !! i = Some b
               ∧ ∀ k v, k ≠ "coverImageUrl" → oldBook !! k = Some v → b !! k = Some v)
    as (b & Hb & Hkeep).
  { destruct (updateLibrary_library appService (Some synced) w)
      as [-> | (batch & merged & [= <-] & Hm & k & X & -> & _)]; [by exists oldBook |].
    destruct (Forall2_lookup_l _ _ _ _ _ Hm Hi) as (b & Hb & Hres).
    exists b. split; [by apply lookup_app_l_Some |].
    intros k0 v Hk Hv. eapply old_result_settled; eauto.
    intros m Hm'. apply matching_sorted in Hm' as (Hin & Hh & _). by apply Hold. }
  exists b. split; [done |]. split; [done |].
  intros Hdel. apply truthy_present in Hdel as (v & Hv & _).
  unfold deletedAt, prop. by rewrite (Hkeep "deletedAt" v), Hv.
Qed.

Lemma updateLibrary_local_wins_witness :
  ∃ b, library (store (updateLibrary (Some Sample.covers_ok) (Some [Sample.gone1])
                         (Sample.world_of [Sample.fresh3])).2) !! 0%nat = Some b
       ∧ (∀ k v, k ≠ "coverImageUrl" → Sample.fresh3 !! k = Some v → b !! k = Some v)
       ∧ (truthy (deletedAt Sample.fresh3) = true → deletedAt b = deletedAt Sample.fresh3).
Proof.
  apply (updateLibrary_local_wins (Some Sample.covers_ok) [Sample.gone1]
           (Sample.world_of [Sample.fresh3]) 0 Sample.fresh3).
  - reflexivity.
  - intros s Hs _. apply elem_of_cons in Hs as [-> | Hs]; [by vm_compute |].
    by apply elem_of_nil in Hs.
Defined.

Lemma updatedAt_mergedBook (m l : Book) :
  has_updatedAt m → has_updatedAt l →
  updatedAt (mergedBook m l) = updatedAt m `max` updatedAt l.
Proof.
  intros Hm Hl. unfold mergedBook.
  destruct (Z.gtb_spec (updatedAt m) (updatedAt l)); rewrite updatedAt_spread; lia || done.
Qed.

(** X20. Timestamps never go back: in a completed cycle the record stored
    for a matched local record carries the later of the two [updatedAt], the
    local one and that of the synced record it was merged with. *)
Theorem updateLibrary_updatedAt_max (appService : option AppService)
    (synced : list Book) (w w' : World) (i : nat) (oldBook m : Book) :
  isSyncing (store w) = false →
  Forall has_updatedAt synced →
  has_updatedAt oldBook →
  updateLibrary appService (Some synced) w = (Return tt, w') →
  library (store w) !! i = Some oldBook →
  matching (Array_sort byUpdatedAt synced) oldBook = Some m →
  ∃ b, library (store w') !! i = Some b
       ∧ updatedAt b = updatedAt m `max` updatedAt oldBook.
Proof.
  intros Hsync Hty Hl Hrun Hi Hm.
  assert (synced ≠ []) as Hne by (intros ->; discriminate Hm).
  destruct (updateLibrary_merged_at _ _ _ _ _ _ Hsync Hne Hrun Hi) as (b & Hb & Hres).
  exists b. split; [done |].
  apply old_exact_result in Hres. unfold old_result in Hres. rewrite Hm in Hres.
  destruct Hres as (l' & Hhyd & ->).
  apply matching_sorted in Hm as (Hin & _). rewrite Forall_forall in Hty.
  rewrite updatedAt_mergedBook, (updatedAt_maybe_hydrated _ _ Hhyd);
    [done | by apply Hty | by eapply has_updatedAt_maybe_hydrated].
Qed.

Lemma updateLibrary_updatedAt_max_witness :
  ∃ b, library (store (updateLibrary (Some Sample.covers_ok) (Some [Sample.synced5])
                         (Sample.world_of [Sample.local1])).2) !! 0%nat = Some b
       ∧ updatedAt b = updatedAt Sample.synced5 `max` updatedAt Sample.local1.
Proof.
  apply (updateLibrary_updatedAt_max (Some Sample.covers_ok) [Sample.synced5]
           (Sample.world_of [Sample.local1]) _ 0 Sample.local1 Sample.synced5).
  - reflexivity.
  - repeat constructor; eexists; reflexivity.
  - eexists; reflexivity.
  - vm_compute. reflexivity.
  - reflexivity.
  - vm_compute. reflexivity.
Defined.

(** X21. Merging the same synced record into the result of a merge changes
    nothing. *)
Theorem mergedBook_idempotent (m l : Book) :
  has_updatedAt m → has_updatedAt l →
  mergedBook m (mergedBook m l) = mergedBook m l.
Proof.
  intros Hm Hl.
  rewrite (mergedBook_not_newer m (mergedBook m l))
    by (by apply updatedAt_mergedBook_ge).
  apply map_eq. intros k. rewrite lookup_spread.
  destruct (mergedBook m l !! k) as [v |] eqn:E; [done |].
  destruct (m !! k) as [v |] eqn:Ek; [| done].
  destruct (keys_mergedBook m l k) as [v' Hv']; [eauto | congruence].
Qed.

Lemma mergedBook_idempotent_witness :
  mergedBook Sample.synced5 (mergedBook Sample.synced5 Sample.local1)
  = mergedBook Sample.synced5 Sample.local1.
Proof.
  apply (mergedBook_idempotent Sample.synced5 Sample.local1).
  - exists 5. reflexivity.
  - exists 1. reflexivity.
Defined.

(** X22. A cycle fails only through its cover service: with a service whose
    calls all resolve, or with no service at all, a cycle that is given a
    library whose flag is down returns, and leaves the flag down. *)
Theorem updateLibrary_completes (appService : option AppService)
    (synced : option (list Book)) (w : World) :
  reliable appService →
  isSyncing (store w) = false →
  (updateLibrary appService synced w).1 = Return tt
  ∧ isSyncing (store (updateLibrary appService synced w).2) = false.
Proof.
  intros Hrel Hsync. pose proof (updateLibrary_returns _ synced w Hrel) as Hret.
  split; [done |].
  destruct synced as [[| s0 ss] |].
  - rewrite updateLibrary_nothing; [done | by right].
  - destruct (updateLibrary appService (Some (s0 :: ss)) w) as [r w'] eqn:E.
    cbn [fst snd] in *. subst r.
    apply updateLibrary_run in E as (_ & _ & _ & Hfin); [| done | done].
    by destruct Hfin as (merged & X & _ & _ & _ & Hs).
  - rewrite updateLibrary_nothing; [done | by left].
Qed.

Lemma updateLibrary_completes_witness :
  (updateLibrary (Some Sample.covers_ok) (Some [Sample.fresh5; Sample.synced3])
     (Sample.world_of [Sample.local1])).1 = Return tt
  ∧ isSyncing (store (updateLibrary (Some Sample.covers_ok)
                        (Some [Sample.fresh5; Sample.synced3])
                        (Sample.world_of [Sample.local1])).2) = false.
Proof.
  apply (updateLibrary_completes (Some Sample.covers_ok)
           (Some [Sample.fresh5; Sample.synced3]) (Sample.world_of [Sample.local1])).
  - intros svc [= <-]. split; [intros book; eexists; reflexivity | reflexivity].
  - reflexivity.
Defined.

(** X23. A cover is generated only where one is due: every record that a
    merge cycle hands to [generateCoverImageUrl], on any path, is either a
    record of the library whose synced match is uploaded and not deleted and
    which has no [coverDownloadedAt], or a record of the batch that is
    uploaded and not deleted. *)
Theorem updateLibrary_cover_targets (appService : option AppService)
    (synced : list Book) (w : World) :
  ∃ t, trace (updateLibrary appService (Some synced) w).2 = trace w ++ t
       ∧ ∀ book, GenerateCoverImageUrl book ∈ t →
           (book ∈ library (store w)
            ∧ ∃ m, matching (Array_sort byUpdatedAt synced) book = Some m
                   ∧ truthy (deletedAt m) = false
                   ∧ truthy (uploadedAt m) = true
                   ∧ truthy (coverDownloadedAt book) = false)
           ∨ (book ∈ synced
              ∧ truthy (uploadedAt book) = true
              ∧ truthy (deletedAt book) = false).
Proof.
  destruct (updateLibrary_emits
              (λ e, match e with
                    | GenerateCoverImageUrl book =>
                        (book ∈ library (store w)
                         ∧ ∃ m, matching (Array_sort byUpdatedAt synced) book = Some m
                                ∧ truthy (deletedAt m) = false
                                ∧ truthy (uploadedAt m) = true
                                ∧ truthy (coverDownloadedAt book) = false)
                        ∨ (book ∈ synced
                           ∧ truthy (uploadedAt book) = true
                           ∧ truthy (deletedAt book) = false)
                    | _ => True
                    end) appService (Some synced) w) as (t & Ht & Hf); try done.
  - intros book batch m _ [= <-] Hin Hm Hw. left. split; [done |]. exists m.
    unfold wants_cover in Hw.
    apply andb_prop in Hw as [Hw Hc]. apply andb_prop in Hw as [Hd Hu].
    apply negb_true_iff in Hd, Hc. done.
  - intros book batch _ [= <-] Hin Hu Hd. by right.
  - exists t. split; [done |]. intros book Hin. rewrite Forall_forall in Hf.
    exact (Hf _ Hin).
Qed.

Lemma hydrated_by_none (nb X : list Book) :
  Forall2 (hydrated_by None) nb X →
  X = (λ n, assign n "coverImageUrl" VUndefined) <$> nb.
Proof.
  induction 1 as [| n b nb X Hb _ IH]; [done |].
  destruct Hb as (url & Hurl & ->). injection Hurl as <-.
  rewrite fmap_cons. by f_equal.
Qed.

(** X24. Without an app service a merge cycle still runs to its end: it
    calls nothing outside the store, saves nothing, and appends each newly
    arrived record with [coverImageUrl] set to [undefined]. *)
Theorem updateLibrary_without_service (synced : list Book) (w : World) :
  isSyncing (store w) = false →
  (updateLibrary None (Some synced) w).1 = Return tt
  ∧ (∃ t, trace (updateLibrary None (Some synced) w).2 = trace w ++ t
          ∧ Forall (λ e, is_service e = false) t)
  ∧ drop (length (library (store w)))
      (library (store (updateLibrary None (Some synced) w).2))
    = (λ n, assign n "coverImageUrl" VUndefined) <$> arrived (library (store w)) synced.
Proof.
  intros Hsync.
  assert ((updateLibrary None (Some synced) w).1 = Return tt) as Hret
    by (apply updateLibrary_returns; by intros svc [=]).
  split; [done |]. split.
  - apply updateLibrary_emits; try done; by intros; match goal with
                                                    | H : is_Some None |- _ => destruct H
                                                    end.
  - destruct (decide (synced = [])) as [-> | Hne].
    { rewrite updateLibrary_nothing by (by right). by rewrite drop_all. }
    destruct (updateLibrary None (Some synced) w) as [r w'] eqn:E.
    cbn [fst snd] in *. subst r.
    apply updateLibrary_completed in E as (merged & X & _ & _ & Hm & HX & -> & _);
      [| done | done].
    apply Forall2_length in Hm. rewrite Hm, drop_app_length.
    by apply hydrated_by_none.
Qed.

Lemma updateLibrary_without_service_witness :
  (updateLibrary None (Some [Sample.fresh5]) (Sample.world_of [Sample.local1])).1
  = Return tt.
Proof.
  apply (updateLibrary_without_service [Sample.fresh5] (Sample.world_of [Sample.local1])).
  reflexivity.
Defined.

(** ** Which batches of arrivals are published *)

Lemma bind_fst {A B} (m : Async A) (k : A → Async B) (w : World) :
  ((m ≫= k) w).1
  = match (m w).1 with
    | Return a => (k a (m w).2).1
    | Throw => Throw
    | OutOfFuel => OutOfFuel
    end.
Proof. unfold mbind, Async_bind, bind. by destruct (m w) as [[a | |] w1]. Qed.

Lemma processNewBook_outcome (appService : option AppService) (newBook : Book) (w : World) :
  (processNewBook appService newBook w).1
  = if cover_of appService newBook is Some _ then Return tt else Throw.
Proof.
  unfold processNewBook. rewrite bind_fst.
  destruct appService as [svc |]; [| reflexivity].
  unfold call_generateCoverImageUrl. rewrite bind_fst. cbn [tell fst snd cover_of].
  by destruct (generateCoverImageUrl svc newBook).
Qed.

Lemma hydrate_all_outcome (appService : option AppService) (batch : list Book) (w : World) :
  if forallb (λ n, bool_decide (is_Some (cover_of appService n))) batch
  then ∃ l, (Promise_all (processNewBook appService <$> batch) w).1 = Return l
  else (Promise_all (processNewBook appService <$> batch) w).1 = Throw.
Proof.
  revert w. induction batch as [| n batch IH]; intros w; [by exists [] |].
  rewrite fmap_cons, Promise_all_cons. cbn [fst forallb].
  rewrite processNewBook_outcome.
  specialize (IH (processNewBook appService n w).2).
  destruct (cover_of appService n) as [url |].
  - rewrite bool_decide_eq_true_2 by eauto. cbn [andb].
    destruct (forallb _ batch).
    + destruct IH as [l ->]. by eexists.
    + by rewrite IH.
  - rewrite bool_decide_eq_false_2 by (by intros [? [=]]). cbn [andb].
    pose proof (hydrate_all_run appService batch (processNewBook appService n w).2) as Hrun.
    destruct (Promise_all (processNewBook appService <$> batch)
                (processNewBook appService n w).2) as [[l | |] w2]; [done | done |].
    by destruct (Hrun _ _ eq_refl) as (_ & ? & _).
Qed.

Lemma resolves_covers (appService : option AppService) (batch : list Book) :
  resolves appService batch
  = (if appService is Some svc then downloadBookCovers svc batch else true)
    && forallb (λ n, bool_decide (is_Some (cover_of appService n))) batch.
Proof.
  destruct appService as [svc |]; [reflexivity |]. cbn [resolves cover_of andb].
  symmetry. apply forallb_forall. intros n _. apply bool_decide_eq_true_2. eauto.
Qed.

(** An iteration of the second loop returns when the cover service resolves
    every call made for the batch, and throws otherwise. *)
Lemma hydrate_batch_outcome (appService : option AppService) (total i : nat)
    (batch : list Book) (w : World) :
  (hydrate_batch appService total i batch w).1
  = if resolves appService batch then Return tt else Throw.
Proof.
  rewrite resolves_covers. unfold hydrate_batch. rewrite bind_fst.
  assert ((call_downloadBookCovers appService batch w).1
          = if (if appService is Some svc then downloadBookCovers svc batch else true)
            then Return tt else Throw) as ->.
  { destruct appService as [svc |]; [| reflexivity].
    unfold call_downloadBookCovers. rewrite bind_fst. cbn [tell fst snd].
    by destruct (downloadBookCovers svc batch). }
  destruct (if appService is Some svc then downloadBookCovers svc batch else true);
    [| reflexivity].
  cbn [andb]. rewrite bind_fst.
  pose proof (hydrate_all_outcome appService batch
                (call_downloadBookCovers appService batch w).2) as Hall.
  destruct (forallb _ batch).
  - destruct Hall as [l ->]. reflexivity.
  - by rewrite Hall.
Qed.

(** The second loop, entered at batch [q] with the arrivals of the batches
    before it published: each further batch that the service resolves adds
    its arrivals to the library in the store and publishes one progress
    fraction; the first batch that the service does not resolve ends the
    loop and adds nothing. *)
Lemma hydrate_loop_published (appService : option AppService) (merged nb : list Book)
    (total fuel q : nat) (X0 : list Book) (w w' : World) (r : result unit) :
  updatedLibrary w = merged ++ X0 →
  drop (length merged) (library (store w)) = X0 →
  Forall2 (hydrated_by appService) (take (q * batchSize) nb) X0 →
  for_batches fuel nb batchSize (hydrate_batch appService total) (q * batchSize) w
  = (r, w') →
  ∃ t X,
    trace w' = trace w ++ t
    ∧ Forall2 (hydrated_by appService)
        (take ((q + length (published_progress t)) * batchSize) nb) X
    ∧ drop (length merged) (library (store w')) = X
    ∧ (r = Return tt → updatedLibrary w' = merged ++ X)
    ∧ (∀ j, (q ≤ j < q + length (published_progress t))%nat →
            resolves appService (slice nb (j * batchSize) (j * batchSize + batchSize))
            = true)
    ∧ (r = Throw →
       resolves appService
         (slice nb ((q + length (published_progress t)) * batchSize)
            ((q + length (published_progress t)) * batchSize + batchSize))
       = false).
Proof.
  assert (∀ (r0 : result unit) (w0 : World) (q0 : nat) (X : list Book),
            r0 ≠ Throw →
            updatedLibrary w0 = merged ++ X →
            drop (length merged) (library (store w0)) = X →
            Forall2 (hydrated_by appService) (take (q0 * batchSize) nb) X →
            ∃ t X',
              trace w0 = trace w0 ++ t
              ∧ Forall2 (hydrated_by appService)
                  (take ((q0 + length (published_progress t)) * batchSize) nb) X'
              ∧ drop (length merged) (library (store w0)) = X'
              ∧ (r0 = Return tt → updatedLibrary w0 = merged ++ X')
              ∧ (∀ j, (q0 ≤ j < q0 + length (published_progress t))%nat →
                      resolves appService
                        (slice nb (j * batchSize) (j * batchSize + batchSize))
                      = true)
              ∧ (r0 = Throw →
                 resolves appService
                   (slice nb ((q0 + length (published_progress t)) * batchSize)
                      ((q0 + length (published_progress t)) * batchSize + batchSize))
                 = false)) as Hstop.
  { intros r0 w0 q0 X Hr0 Hu Hl HX. exists [], X.
    cbn [published_progress omap length]. rewrite app_nil_r, Nat.add_0_r.
    split; [done |]. split; [done |]. split; [done |]. split; [done |].
    split; [intros; lia | done]. }
  revert q X0 w. induction fuel as [| fuel IH]; intros q X0 w Hu Hl HX0; simpl;
    destruct (Nat.ltb_spec (q * batchSize) (length nb)) as [Hlt | Hge].
  - intros H. inversion H. subst r w'. by apply (Hstop _ _ _ X0).
  - intros H. inversion H. subst r w'. by apply (Hstop _ _ _ X0).
  - intros H. pose proof (hydrate_batch_outcome appService total (q * batchSize)
                  (slice nb (q * batchSize) (q * batchSize + batchSize)) w) as Hout.
    apply bind_inv in H as [(a & w1 & H1 & H) | [[H1 ->] | [H1 ->]]];
      rewrite H1 in Hout; cbn [fst] in Hout;
      pose proof H1 as H1';
      apply hydrate_batch_run in H1 as (Hr1 & Hthrow & Hret); [| | done].
    + destruct a. apply hydrate_batch_exact in H1' as (X' & HX' & Hu').
      destruct Hret as (X & t & _ & Hu1 & Hs1 & _ & Hft & Ht1); [done |].
      assert (X' = X) as -> by (rewrite Hu1 in Hu'; by apply app_inv_head in Hu').
      assert (Forall2 (hydrated_by appService) (take (S q * batchSize) nb) (X0 ++ X))
        as HX1.
      { replace (S q * batchSize)%nat with (q * batchSize + batchSize)%nat by lia.
        rewrite <- take_take_drop. apply Forall2_app; [done |].
        unfold slice in HX'.
        by replace (q * batchSize + batchSize - q * batchSize)%nat
          with batchSize in HX' by lia. }
      replace (q * batchSize + batchSize)%nat with (S q * batchSize)%nat in H by lia.
      apply IH with (X0 := X0 ++ X) in H
          as (t' & X2 & Ht' & HX2 & Hl2 & Hret2 & Hres2 & Hthrow2);
        [| by rewrite Hu1, Hu, <- app_assoc
         | rewrite Hs1; cbn [library]; by rewrite Hu, <- app_assoc, drop_app_length
         | done].
      exists (t ++ [SetLibrary (updatedLibrary w ++ X);
                    SetSyncProgress
                      (Qmin (inject_Z (Z.of_nat (q * batchSize + batchSize))
                             / inject_Z (Z.of_nat total)) 1)] ++ t'), X2.
      assert (length (published_progress
                        (t ++ [SetLibrary (updatedLibrary w ++ X);
                               SetSyncProgress
                                 (Qmin (inject_Z (Z.of_nat (q * batchSize + batchSize))
                                        / inject_Z (Z.of_nat total)) 1)] ++ t'))
              = S (length (published_progress t'))) as Hcount.
      { rewrite !published_progress_app, published_progress_batch,
          (published_progress_silent t) by (by apply service_not_report).
        reflexivity. }
      rewrite Hcount.
      replace (q + S (length (published_progress t')))%nat
        with (S q + length (published_progress t'))%nat by lia.
      split; [by rewrite Ht', Ht1, <- !app_assoc |].
      split; [done |]. split; [done |]. split; [done |]. split; [| done].
      intros j Hj. destruct (decide (j = q)) as [-> | Hne].
      * revert Hout. destruct (resolves appService
                    (slice nb (q * batchSize) (q * batchSize + batchSize))); [done | by intros [=]].
      * apply Hres2. lia.
    + destruct Hthrow as (Hs & _ & t & Ht & Hft); [done |].
      exists t, X0.
      rewrite (published_progress_silent t) by (by apply service_not_report).
      cbn [length]. rewrite Nat.add_0_r.
      split; [done |]. split; [done |]. split; [by rewrite Hs |].
      split; [by intros [=] |]. split; [intros; lia |].
      intros _. revert Hout. destruct (resolves appService
                    (slice nb (q * batchSize) (q * batchSize + batchSize))); [by intros [=] | done].
  - intros H. inversion H. subst r w'. by apply (Hstop _ _ _ X0).
Qed.

(** X25. Arrivals reach the store in whole batches of ten, and a batch that
    fails is not published while those before it stay. On any path, let [q]
    be the number of progress fractions the cycle has published. Then what
    the library in the store holds behind the places of the library the
    cycle started from is the hydrated arrivals of the first [q] batches,
    batch after batch (the order within a batch is not fixed); the cover
    service resolved every call made for each of these [q] batches; and if
    the cycle threw after it raised the flag, it was batch [q] whose calls
    the service did not resolve, and nothing of that batch or of a later
    one has been added. *)
Theorem updateLibrary_whole_batches (appService : option AppService)
    (synced : list Book) (w : World) :
  ∃ t X,
    trace (updateLibrary appService (Some synced) w).2 = trace w ++ t
    ∧ Forall2 (hydrated_by appService)
        (take (length (published_progress t) * 10) (arrived (library (store w)) synced)) X
    ∧ (∀ j, take (j * 10)
              (drop (length (library (store w)))
                 (library (store (updateLibrary appService (Some synced) w).2)))
            ≡ₚ take (j * 10) X)
    ∧ (∀ j, (j < length (published_progress t))%nat →
            resolves appService
              (slice (arrived (library (store w)) synced) (j * 10) (j * 10 + 10))
            = true)
    ∧ ((updateLibrary appService (Some synced) w).1 = Throw →
       SetIsSyncing true ∈ t →
       resolves appService
         (slice (arrived (library (store w)) synced)
            (length (published_progress t) * 10)
            (length (published_progress t) * 10 + 10))
       = false).
Proof.
  assert (∀ w0 : World,
            ∃ t X,
              trace w0 = trace w0 ++ t
              ∧ Forall2 (hydrated_by appService)
                  (take (length (published_progress t) * 10)
                     (arrived (library (store w)) synced)) X
              ∧ (∀ j, take (j * 10)
                        (drop (length (library (store w))) (library (store w)))
                      ≡ₚ take (j * 10) X)
              ∧ (∀ j, (j < length (published_progress t))%nat →
                      resolves appService
                        (slice (arrived (library (store w)) synced) (j * 10) (j * 10 + 10))
                      = true)
              ∧ (@Return unit tt = Throw →
                 SetIsSyncing true ∈ t →
                 resolves appService
                   (slice (arrived (library (store w)) synced)
                      (length (published_progress t) * 10)
                      (length (published_progress t) * 10 + 10))
                 = false)) as Hskip.
  { intros w0. exists [], []. rewrite app_nil_r, drop_all.
    split; [done |]. split; [constructor |]. split; [done |].
    split; [intros j Hj; simpl in Hj; lia | intros [=]]. }
  destruct (isSyncing (store w)) eqn:Hs.
  { rewrite updateLibrary_busy by done. apply Hskip. }
  destruct synced as [| s0 ss].
  { rewrite updateLibrary_nothing by (by right). apply Hskip. }
  clear Hskip.
  destruct (updateLibrary appService (Some (s0 :: ss)) w) as [r w'] eqn:E.
  cbn [fst snd].
  apply updateLibrary_phases in E
    as [[-> [(Hst & _ & t & Ht & Hft) _]]
       | (merged & t4 & w4 & r5 & w5 & Hm & Hl4 & _ & _ & Hu4 & Ht4 & Hf4 & Hloop & Hend)];
    [| | done | done].
  - exists t, []. rewrite (published_progress_silent t) by (by apply service_not_report).
    rewrite Hst, drop_all.
    split; [done |]. split; [constructor |]. split; [done |].
    split; [cbn [length]; intros; lia |].
    intros _ Hin. rewrite Forall_forall in Hft. by apply Hft in Hin.
  - pose proof (Forall2_length _ _ _ Hm) as Hlen.
    apply (hydrate_loop_published _ merged _ _ _ 0 []) in Hloop
        as (tl & X & Htl & HX & Hl & Hret & Hres & Hthrow);
      [| by rewrite app_nil_r | by rewrite Hl4, <- Hlen, drop_all | constructor].
    rewrite Nat.add_0_l in HX, Hthrow.
    destruct r5 as [[] | |].
    + destruct Hend as (-> & Hl' & _ & _ & t6 & Ht6 & Hf6).
      exists (t4 ++ tl ++ SetLibrary (updatedLibrary w5) :: t6), X.
      assert (published_progress (t4 ++ tl ++ SetLibrary (updatedLibrary w5) :: t6)
              = published_progress tl) as ->.
      { rewrite !published_progress_app, (published_progress_silent t4) by done.
        change (published_progress (SetLibrary (updatedLibrary w5) :: t6))
          with (published_progress t6).
        by rewrite (published_progress_silent t6), app_nil_r by done. }
      split; [by rewrite Ht6, Htl, Ht4, <- !app_assoc |].
      split; [done |].
      split; [by rewrite Hl', Hret, Hlen, drop_app_length |].
      split; [intros j Hj; apply Hres; lia | done].
    + destruct Hend as [-> ->]. exists (t4 ++ tl), X.
      rewrite published_progress_app, (published_progress_silent t4) by done.
      cbn [app].
      split; [by rewrite Htl, Ht4, <- app_assoc |].
      split; [done |].
      split; [by rewrite Hlen, Hl |].
      split; [intros j Hj; apply Hres; lia |]. intros _ _. by apply Hthrow.
    + destruct Hend as [-> ->]. exists (t4 ++ tl), X.
      rewrite published_progress_app, (published_progress_silent t4) by done.
      cbn [app].
      split; [by rewrite Htl, Ht4, <- app_assoc |].
      split; [done |].
      split; [by rewrite Hlen, Hl |].
      split; [intros j Hj; apply Hres; lia | done].
Qed.
